(** * vps-modern: grid, field and particle container, verified against the specification

    Shallow embedding of
      - src/grid/src/grid.cpp            (Grid, Field)
      - src/particles/src/particles.cpp  (Particles, advance_positions)
      - src/app/main.cpp                 (compute_density)

    Arithmetic conventions.
      - [value_type = double] has two readings.  In the modules [grid],
        [particles] and [app] it is read in exact arithmetic: a double is a
        rational number ([Q]), [+ - * /] are the exact operations and values
        are compared with [Qeq] ([==]); rounding, infinities and NaN are
        outside that reading, which serves the statements that do not turn on
        rounding (conservation, the container, the kernels).  In the modules
        [ieee] and [grid64] a double is an IEEE 754 binary64 number and every
        operation rounds to nearest, ties to even, once (no contraction into
        fused multiply-add, no extended precision); the statements about
        [Grid::Grid], [wrap_position], [cell_index] and [interpolate] that
        turn on rounding are made there.
      - [std::size_t] and [std::ptrdiff_t] are 64-bit: a value is a [Z] in the
        type's range and every [static_cast] between them is written out with
        its wrap-around.  An operation whose behaviour C++ leaves undefined
        (signed overflow, [%] overflow, a double that does not fit the integer
        type, an index outside its vector) yields [None]. *)

From Stdlib Require Import ZArith QArith Qround Lia Lqa String.
From Stdlib Require Import Permutation Morphisms.
From Stdlib Require PrimFloat SpecFloat FloatOps FloatAxioms.
From stdpp Require Import base list.

Local Open Scope Z_scope.

(** ** Machine integers *)

Module cxx.

Definition SIZE_MAX : Z := 2 ^ 64 - 1.
Definition PTRDIFF_MIN : Z := - 2 ^ 63.
Definition PTRDIFF_MAX : Z := 2 ^ 63 - 1.

Definition is_size_t (z : Z) : Prop := 0 <= z <= SIZE_MAX.
Definition is_ptrdiff_t (z : Z) : Prop := PTRDIFF_MIN <= z <= PTRDIFF_MAX.

Definition fits_ptrdiff_t (z : Z) : bool :=
  (PTRDIFF_MIN <=? z) && (z <=? PTRDIFF_MAX).

(** [static_cast<std::size_t>(z)]: reduction modulo 2^64. *)
Definition to_size_t (z : Z) : Z := z mod 2 ^ 64.

(** [static_cast<std::ptrdiff_t>(z)]: the two's complement reading. *)
Definition to_ptrdiff_t (z : Z) : Z := (z + 2 ^ 63) mod 2 ^ 64 - 2 ^ 63.

(** Signed arithmetic on [std::ptrdiff_t]; overflow is undefined. *)
Definition ptrdiff_add (a b : Z) : option Z :=
  if fits_ptrdiff_t (a + b) then Some (a + b) else None.

(** [a % b] on [std::ptrdiff_t]: the remainder of the truncating division,
    undefined for [b = 0] and for [PTRDIFF_MIN % -1]. *)
Definition ptrdiff_rem (a b : Z) : option Z :=
  if (b =? 0) || ((a =? PTRDIFF_MIN) && (b =? -1)) then None
  else Some (Z.rem a b).

(** The exact reading of [double]: rationals.  Rounding toward zero, the
    integral part kept by a conversion of a floating value to an integer
    type. *)
Definition Qtruncate (q : Q) : Z :=
  if Qle_bool 0 q then Qfloor q else Qceiling q.

(** [static_cast<std::ptrdiff_t>(q)] for a double [q]: the fractional part is
    discarded; undefined when the result is not representable. *)
Definition double_to_ptrdiff_t (q : Q) : option Z :=
  let t := Qtruncate q in
  if fits_ptrdiff_t t then Some t else None.

(** [static_cast<double>(n)] for an integer [n], without the rounding a
    value above [2^53] undergoes (see [ieee.to_double]). *)
Definition to_double (n : Z) : Q := inject_Z n.

(** [std::fmod(x, y)]: [x - n * y] where [n] is [x / y] with its fractional
    part truncated; the result has the sign of [x]. *)
Definition fmod (x y : Q) : Q := (x - inject_Z (Qtruncate (x / y)) * y)%Q.

(** Exceptions thrown by the code and by the containers it uses. *)
Inductive exception : Type :=
| invalid_argument (what : string)
| length_error
| bad_alloc.

(** [std::vector<double>::max_size()] (PTRDIFF_MAX / sizeof(double)). *)
Definition vector_max_size : Z := PTRDIFF_MAX / 8.

End cxx.

(** ** Grid and Field (src/grid), doubles read as rationals *)

Module grid.
Import cxx.

Inductive BoundaryCondition : Type :=
| Periodic.

Record Grid : Type := mkGrid {
  n_cells_ : Z;
  x_min_ : Q;
  x_max_ : Q;
  length_ : Q;
  dx_ : Q;
  inv_dx_ : Q;
  bc_ : BoundaryCondition
}.

(** [Grid::Grid]: the member initialisers run first, then the two checks. *)
Definition Grid_ctor (n_cells : Z) (x_min x_max : Q) (bc : BoundaryCondition)
  : exception + Grid :=
  let length := (x_max - x_min)%Q in
  let dx := (length / to_double n_cells)%Q in
  let inv_dx := (1 / dx)%Q in
  let this := mkGrid n_cells x_min x_max length dx inv_dx bc in
  if n_cells =? 0 then
    inl (invalid_argument "Grid must have at least one cell")
  else if Qle_bool x_max x_min then
    inl (invalid_argument "x_min must be less than x_max")
  else inr this.

Definition n_cells (g : Grid) : Z := n_cells_ g.
Definition x_min (g : Grid) : Q := x_min_ g.
Definition x_max (g : Grid) : Q := x_max_ g.
Definition length (g : Grid) : Q := length_ g.
Definition dx (g : Grid) : Q := dx_ g.
Definition boundary_condition (g : Grid) : BoundaryCondition := bc_ g.

(** The accessors below carry [assert(i < n_cells_)] in the source. *)
Definition cell_center (g : Grid) (i : Z) : Q :=
  (x_min_ g + (to_double i + (1 # 2)) * dx_ g)%Q.

Definition cell_left (g : Grid) (i : Z) : Q :=
  (x_min_ g + to_double i * dx_ g)%Q.

Definition cell_right (g : Grid) (i : Z) : Q :=
  (x_min_ g + to_double (to_size_t (i + 1)) * dx_ g)%Q.

Definition wrap_position (g : Grid) (x : Q) : Q :=
  match bc_ g with
  | Periodic =>
      let x_rel := (x - x_min_ g)%Q in
      let x_rel := fmod x_rel (length_ g) in
      let x_rel := if Qlt_le_dec x_rel 0 then (x_rel + length_ g)%Q else x_rel in
      (x_min_ g + x_rel)%Q
  end.

Definition cell_index (g : Grid) (x : Q) : option Z :=
  let x_wrapped := wrap_position g x in
  match double_to_ptrdiff_t ((x_wrapped - x_min_ g) * inv_dx_ g)%Q with
  | None => None
  | Some idx =>
      let idx := if idx <? 0 then 0 else idx in
      let idx :=
        if n_cells_ g <=? to_size_t idx
        then to_ptrdiff_t (to_size_t (n_cells_ g - 1))
        else idx in
      Some (to_size_t idx)
  end.

Definition interpolation_weights (g : Grid) (x : Q) : option (Q * Q) :=
  let x_wrapped := wrap_position g x in
  match cell_index g x_wrapped with
  | None => None
  | Some idx =>
      let x_left := cell_left g idx in
      let right_weight := ((x_wrapped - x_left) * inv_dx_ g)%Q in
      let left_weight := (1 - right_weight)%Q in
      Some (left_weight, right_weight)
  end.

Definition wrap_index (g : Grid) (i : Z) : option Z :=
  match bc_ g with
  | Periodic =>
      let n := to_ptrdiff_t (n_cells_ g) in
      match ptrdiff_rem i n with
      | None => None
      | Some i =>
          if i <? 0 then
            match ptrdiff_add i n with
            | None => None
            | Some i => Some (to_size_t i)
            end
          else Some (to_size_t i)
      end
  end.

Definition contains (g : Grid) (x : Q) : bool :=
  Qle_bool (x_min_ g) x && negb (Qle_bool (x_max_ g) x).

(** [Grid::cell_centers]: [centers(n_cells_)] is built with [n_cells_]
    zeros (the vector constructor throws as in [Field_ctor] below), then the
    loop stores [cell_center(i)] in slot [i], for [i < n_cells_], every one
    of them a slot of the vector. *)
Definition cell_centers (mem : bool) (g : Grid) : exception + list Q :=
  if vector_max_size <? n_cells_ g then inl length_error
  else if (0 <? n_cells_ g) && negb mem then inl bad_alloc
  else
    let n := Z.to_nat (n_cells_ g) in
    inr (foldl (fun centers i => <[i := cell_center g (Z.of_nat i)]> centers)
           (replicate n 0%Q) (seq 0 n)).

(** A Field: the grid it refers to and one value per cell. *)
Record Field : Type := mkField {
  grid_ : Grid;
  data_ : list Q
}.

(** [Field::Field]: [data_(grid.n_cells(), initial_value)].  The vector
    constructor throws for a length above [max_size()] and when the
    allocation fails ([mem] tells whether the allocator delivers). *)
Definition Field_ctor (mem : bool) (g : Grid) (initial_value : Q)
  : exception + Field :=
  if vector_max_size <? n_cells g then inl length_error
  else if (0 <? n_cells g) && negb mem then inl bad_alloc
  else inr (mkField g (replicate (Z.to_nat (n_cells g)) initial_value)).

Definition size (f : Field) : Z := Z.of_nat (List.length (data_ f)).

(** [operator[]]: [assert(i < data_.size())]; reading past the end is
    undefined. *)
Definition at_ (f : Field) (i : Z) : option Q :=
  if (0 <=? i) && (i <? size f) then data_ f !! Z.to_nat i else None.

Definition set_at (f : Field) (i : Z) (v : Q) : option Field :=
  if (0 <=? i) && (i <? size f)
  then Some (mkField (grid_ f) (<[Z.to_nat i := v]> (data_ f)))
  else None.

Definition fill (f : Field) (val : Q) : Field :=
  mkField (grid_ f) (replicate (List.length (data_ f)) val).

Definition zero (f : Field) : Field := fill f 0%Q.

Definition interpolate (f : Field) (x : Q) : option Q :=
  match cell_index (grid_ f) x with
  | None => None
  | Some idx =>
      match interpolation_weights (grid_ f) x with
      | None => None
      | Some (w_left, w_right) =>
          match ptrdiff_add (to_ptrdiff_t idx) 1 with
          | None => None
          | Some nxt =>
              match wrap_index (grid_ f) nxt with
              | None => None
              | Some idx_next =>
                  match at_ f idx, at_ f idx_next with
                  | Some a, Some b => Some (w_left * a + w_right * b)%Q
                  | _, _ => None
                  end
              end
          end
      end
  end.

End grid.

(** ** Particles (src/particles) *)

Module particles.
Import cxx.

(** [std::vector<double>]: its elements and its capacity. *)
Record vector : Type := mkvector {
  elems : list Q;
  cap : Z
}.

Definition vsize (v : vector) : Z := Z.of_nat (List.length (elems v)).

Definition vector_empty : vector := mkvector [] 0.

(** Capacity chosen by a growing reallocation (the libstdc++ policy: the size
    plus the larger of the size and the number of added elements).  No
    statement below depends on it. *)
Definition grown_capacity (v : vector) (added : Z) : Z :=
  Z.min vector_max_size (vsize v + Z.max (vsize v) added).

(** In every operation below [mem] tells whether the allocator delivers the
    block the operation asks for; it is consulted only when the vector has to
    reallocate.  A vector operation that throws leaves its vector unchanged. *)

Definition vector_ctor (mem : bool) (n : Z) (val : Q) : exception + vector :=
  if vector_max_size <? n then inl length_error
  else if (0 <? n) && negb mem then inl bad_alloc
  else inr (mkvector (replicate (Z.to_nat n) val) n).

Definition vector_reserve (mem : bool) (n : Z) (v : vector) : exception + vector :=
  if vector_max_size <? n then inl length_error
  else if n <=? cap v then inr v
  else if mem then inr (mkvector (elems v) n)
  else inl bad_alloc.

Definition vector_resize (mem : bool) (n : Z) (val : Q) (v : vector)
  : exception + vector :=
  if n <=? vsize v then inr (mkvector (take (Z.to_nat n) (elems v)) (cap v))
  else
    let grown := elems v ++ replicate (Z.to_nat (n - vsize v)) val in
    if n <=? cap v then inr (mkvector grown (cap v))
    else if vector_max_size <? n then inl length_error
    else if mem then inr (mkvector grown (grown_capacity v (n - vsize v)))
    else inl bad_alloc.

Definition vector_clear (v : vector) : vector := mkvector [] (cap v).

Definition vector_push_back (mem : bool) (val : Q) (v : vector)
  : exception + vector :=
  if vsize v <? cap v then inr (mkvector (elems v ++ [val]) (cap v))
  else if vector_max_size <=? vsize v then inl length_error
  else if mem then inr (mkvector (elems v ++ [val]) (grown_capacity v 1))
  else inl bad_alloc.

(** [pop_back]: the last element is removed; undefined on an empty vector. *)
Definition vector_pop_back (v : vector) : option vector :=
  if vsize v =? 0 then None
  else Some (mkvector (take (Nat.pred (List.length (elems v))) (elems v)) (cap v)).

Record Particles : Type := mkParticles {
  x_ : vector;
  v_ : vector;
  f_ : vector
}.

(** What the allocator answers to the requests made for [x_], [v_] and [f_]
    during one member function call. *)
Record allocator : Type := mkallocator {
  mem_x : bool;
  mem_v : bool;
  mem_f : bool
}.

(** How a member function call ends: it returns, it exits by an exception, or
    it breaks its contract (an [assert] fires in a debug build, the behaviour
    is undefined otherwise). *)
Inductive outcome (A : Type) : Type :=
| Returned (a : A)
| Thrown (e : exception)
| Undefined.
Arguments Returned {A} a.
Arguments Thrown {A} e.
Arguments Undefined {A}.

(** A member function: from the object before the call to the way the call
    ends and the object after it.  After [Thrown] the object is what the
    statements executed before the throw made of it. *)
Definition method (A : Type) : Type := Particles -> outcome A * Particles.

Definition ret {A : Type} (a : A) : method A := fun p => (Returned a, p).

Definition bind {A B : Type} (c : method A) (k : A -> method B) : method B :=
  fun p =>
    match c p with
    | (Returned a, p') => k a p'
    | (Thrown e, p') => (Thrown e, p')
    | (Undefined, p') => (Undefined, p')
    end.

Declare Scope method_scope.
Delimit Scope method_scope with method.
Notation "c1 ;; c2" := (bind c1 (fun _ => c2))
  (at level 100, c2 at level 200, right associativity) : method_scope.
Local Open Scope method_scope.

(** A statement [x_.op(...)], [v_.op(...)], [f_.op(...)]. *)
Definition on_x (op : vector -> exception + vector) : method unit :=
  fun p =>
    match op (x_ p) with
    | inl e => (Thrown e, p)
    | inr x' => (Returned tt, mkParticles x' (v_ p) (f_ p))
    end.

Definition on_v (op : vector -> exception + vector) : method unit :=
  fun p =>
    match op (v_ p) with
    | inl e => (Thrown e, p)
    | inr v' => (Returned tt, mkParticles (x_ p) v' (f_ p))
    end.

Definition on_f (op : vector -> exception + vector) : method unit :=
  fun p =>
    match op (f_ p) with
    | inl e => (Thrown e, p)
    | inr f' => (Returned tt, mkParticles (x_ p) (v_ p) f')
    end.

(** A statement [x_.op()], [v_.op()], [f_.op()] that throws nothing and whose
    behaviour is undefined where [op] has no result. *)
Definition on_x_noexcept (op : vector -> option vector) : method unit :=
  fun p =>
    match op (x_ p) with
    | None => (Undefined, p)
    | Some x' => (Returned tt, mkParticles x' (v_ p) (f_ p))
    end.

Definition on_v_noexcept (op : vector -> option vector) : method unit :=
  fun p =>
    match op (v_ p) with
    | None => (Undefined, p)
    | Some v' => (Returned tt, mkParticles (x_ p) v' (f_ p))
    end.

Definition on_f_noexcept (op : vector -> option vector) : method unit :=
  fun p =>
    match op (f_ p) with
    | None => (Undefined, p)
    | Some f' => (Returned tt, mkParticles (x_ p) (v_ p) f')
    end.

Definition size (p : Particles) : Z := vsize (x_ p).
Definition capacity (p : Particles) : Z := cap (x_ p).
Definition empty (p : Particles) : bool := size p =? 0.

Definition reserve (a : allocator) (n : Z) : method unit :=
  on_x (vector_reserve (mem_x a) n) ;;
  on_v (vector_reserve (mem_v a) n) ;;
  on_f (vector_reserve (mem_f a) n).

Definition resize (a : allocator) (n : Z) : method unit :=
  on_x (vector_resize (mem_x a) n 0%Q) ;;
  on_v (vector_resize (mem_v a) n 0%Q) ;;
  on_f (vector_resize (mem_f a) n 0%Q).

Definition resize_with (a : allocator) (n : Z) (x_val v_val f_val : Q)
  : method unit :=
  on_x (vector_resize (mem_x a) n x_val) ;;
  on_v (vector_resize (mem_v a) n v_val) ;;
  on_f (vector_resize (mem_f a) n f_val).

Definition clear : method unit :=
  on_x (fun v => inr (vector_clear v)) ;;
  on_v (fun v => inr (vector_clear v)) ;;
  on_f (fun v => inr (vector_clear v)).

Definition push_back (a : allocator) (x_val v_val f_val : Q) : method unit :=
  on_x (vector_push_back (mem_x a) x_val) ;;
  on_v (vector_push_back (mem_v a) v_val) ;;
  on_f (vector_push_back (mem_f a) f_val).

Definition pop_back : method unit :=
  fun p =>
    if empty p then (Undefined, p)
    else
      (on_x_noexcept vector_pop_back ;;
       on_v_noexcept vector_pop_back ;;
       on_f_noexcept vector_pop_back) p.

(** [Particles() = default]. *)
Definition Particles_default : Particles :=
  mkParticles vector_empty vector_empty vector_empty.

(** [Particles(size_type capacity)]: the members are default-constructed and
    the body calls [reserve(capacity)]. *)
Definition Particles_capacity (a : allocator) (capacity : Z) : outcome Particles :=
  match reserve a capacity Particles_default with
  | (Returned _, p) => Returned p
  | (Thrown e, _) => Thrown e
  | (Undefined, _) => Undefined
  end.

(** [Particles(size, x_val, v_val, f_val)]: the three member initialisers, in
    the order of declaration. *)
Definition Particles_fill (a : allocator) (size : Z) (x_val v_val f_val : Q)
  : outcome Particles :=
  match vector_ctor (mem_x a) size x_val with
  | inl e => Thrown e
  | inr x =>
      match vector_ctor (mem_v a) size v_val with
      | inl e => Thrown e
      | inr v =>
          match vector_ctor (mem_f a) size f_val with
          | inl e => Thrown e
          | inr f => Returned (mkParticles x v f)
          end
      end
  end.

(** Index-based access: [assert(i < size())], then [x_[i]]. *)
Definition x_at (p : Particles) (i : Z) : option Q :=
  if (0 <=? i) && (i <? size p) then elems (x_ p) !! Z.to_nat i else None.

Definition v_at (p : Particles) (i : Z) : option Q :=
  if (0 <=? i) && (i <? size p) then elems (v_ p) !! Z.to_nat i else None.

Definition f_at (p : Particles) (i : Z) : option Q :=
  if (0 <=? i) && (i <? size p) then elems (f_ p) !! Z.to_nat i else None.

(** One iteration of the loop of [advance_positions]: [x[i] += v[i] * dt] on
    the spans [x] and [v]. *)
Definition advance_slot (v : list Q) (dt : Q) (x : list Q) (i : nat)
  : option (list Q) :=
  match x !! i, v !! i with
  | Some xi, Some vi => Some (<[i := (xi + vi * dt)%Q]> x)
  | _, _ => None
  end.

(** The iterations of the loop, run in the order given. *)
Fixpoint advance_loop (order : list nat) (v : list Q) (dt : Q) (x : list Q)
  : option (list Q) :=
  match order with
  | [] => Some x
  | i :: rest =>
      match advance_slot v dt x i with
      | None => None
      | Some x' => advance_loop rest v dt x'
      end
  end.

(** [advance_positions] with the iterations [0 .. n-1] scheduled in [order]
    (the loop carries [#pragma omp parallel for simd] when OpenMP is on). *)
Definition advance_positions_scheduled (order : list nat) (p : Particles) (dt : Q)
  : option Particles :=
  match advance_loop order (elems (v_ p)) dt (elems (x_ p)) with
  | None => None
  | Some x' => Some (mkParticles (mkvector x' (cap (x_ p))) (v_ p) (f_ p))
  end.

(** [advance_positions]: the sequential loop [for (i = 0; i < n; ++i)]. *)
Definition advance_positions (p : Particles) (dt : Q) : option Particles :=
  advance_positions_scheduled (seq 0 (Z.to_nat (size p))) p dt.

(** A loop whose body calls member functions: the iterations run in order
    and the first one that does not return ends the loop. *)
Fixpoint for_each {A : Type} (body : A -> method unit) (l : list A)
  : method unit :=
  match l with
  | [] => ret tt
  | a :: rest => bind (body a) (fun _ => for_each body rest)
  end.

(** A loop [s[i] = h(s[i])] over the indices [order] of a span [s]; an index
    past the end of the span is undefined. *)
Fixpoint for_each_slot (h : Q -> Q) (order : list nat) (s : list Q)
  : option (list Q) :=
  match order with
  | [] => Some s
  | i :: rest =>
      match s !! i with
      | None => None
      | Some si => for_each_slot h rest (<[i := h si]> s)
      end
  end.

(** [advance_velocities]: [v[i] += dv] for [i < n], where [n] is
    [particles.size()] (the length of [x_]) and [v] the span over [v_]. *)
Definition advance_velocities (p : Particles) (acceleration dt : Q)
  : option Particles :=
  let n := size p in
  let dv := (acceleration * dt)%Q in
  match for_each_slot (fun vi => (vi + dv)%Q) (seq 0 (Z.to_nat n)) (elems (v_ p)) with
  | None => None
  | Some v' => Some (mkParticles (x_ p) (mkvector v' (cap (v_ p))) (f_ p))
  end.

End particles.

(** ** The driver's kernels (src/app/main.cpp) *)

Module app.
Import cxx.

Section Initialization.

(** [std::cos], [std::exp], [std::sqrt] and [std::numbers::pi], which the
    exact arithmetic of this model does not provide. *)
Variables cos exp sqrt : Q -> Q.
Variable pi : Q.

(** The sample that [initialize_particles] appends for cell [i] and
    velocity point [j]. *)
Definition initial_x (g : grid.Grid) (i : nat) : Q :=
  grid.cell_center g (Z.of_nat i).

Definition initial_v (n_v : Z) (v_thermal : Q) (j : nat) : Q :=
  let v_min := (-4 * v_thermal)%Q in
  let v_max := (4 * v_thermal)%Q in
  let dv := ((v_max - v_min) / to_double n_v)%Q in
  (v_min + (to_double (Z.of_nat j) + (1 # 2)) * dv)%Q.

Definition initial_f (g : grid.Grid) (n_v : Z) (v_thermal epsilon k : Q)
    (i j : nat) : Q :=
  let x := initial_x g i in
  let density_factor := (1 + epsilon * cos (k * x))%Q in
  let v := initial_v n_v v_thermal j in
  let f_maxwell := exp (- v * v / (2 * v_thermal * v_thermal))%Q in
  let f_maxwell := (f_maxwell / (sqrt (2 * pi) * v_thermal))%Q in
  (f_maxwell * density_factor)%Q.

(** [initialize_particles]: [particles(total_particles)] reserves, then the
    two nested loops append one sample per cell and velocity point.  [a0]
    serves the constructor and [mem i j] the [push_back] of iteration
    [(i, j)]; an exception leaves the function. *)
Definition initialize_particles (a0 : particles.allocator)
    (mem : nat -> nat -> particles.allocator)
    (g : grid.Grid) (n_particles_per_cell : Z) (v_thermal epsilon k : Q)
  : particles.outcome particles.Particles :=
  let n_cells := grid.n_cells g in
  let n_v := n_particles_per_cell in
  let total_particles := to_size_t (n_cells * n_v) in
  match particles.Particles_capacity a0 total_particles with
  | particles.Returned p =>
      match
        particles.for_each
          (fun i =>
             particles.for_each
               (fun j =>
                  particles.push_back (mem i j) (initial_x g i)
                    (initial_v n_v v_thermal j)
                    (initial_f g n_v v_thermal epsilon k i j))
               (seq 0 (Z.to_nat n_v)))
          (seq 0 (Z.to_nat n_cells)) p
      with
      | (particles.Returned _, p') => particles.Returned p'
      | (particles.Thrown e, _) => particles.Thrown e
      | (particles.Undefined, _) => particles.Undefined
      end
  | particles.Thrown e => particles.Thrown e
  | particles.Undefined => particles.Undefined
  end.

End Initialization.

(** One iteration of the loop of [compute_density]. *)
Definition deposit_one (p : particles.Particles) (g : grid.Grid) (inv_dx : Q)
    (density : grid.Field) (k : nat) : option grid.Field :=
  match particles.x_at p (Z.of_nat k), particles.f_at p (Z.of_nat k) with
  | Some x, Some f =>
      match grid.cell_index g x with
      | None => None
      | Some i =>
          match grid.at_ density i with
          | None => None
          | Some old => grid.set_at density i (old + f * inv_dx)%Q
          end
      end
  | _, _ => None
  end.

Fixpoint deposit_loop (p : particles.Particles) (g : grid.Grid) (inv_dx : Q)
    (ks : list nat) (density : grid.Field) : option grid.Field :=
  match ks with
  | [] => Some density
  | k :: rest =>
      match deposit_one p g inv_dx density k with
      | None => None
      | Some density' => deposit_loop p g inv_dx rest density'
      end
  end.

Definition compute_density (p : particles.Particles) (g : grid.Grid)
    (density : grid.Field) : option grid.Field :=
  let density := grid.zero density in
  let inv_dx := (1 / grid.dx g)%Q in
  deposit_loop p g inv_dx (seq 0 (Z.to_nat (particles.size p))) density.

(** [apply_periodic_bc]: [x_span[p] = grid.wrap_position(x_span[p])] for
    [p < particles.size()]. *)
Definition apply_periodic_bc (p : particles.Particles) (g : grid.Grid)
  : option particles.Particles :=
  match particles.for_each_slot (grid.wrap_position g)
          (seq 0 (Z.to_nat (particles.size p)))
          (particles.elems (particles.x_ p)) with
  | None => None
  | Some x' =>
      Some (particles.mkParticles
              (particles.mkvector x' (particles.cap (particles.x_ p)))
              (particles.v_ p) (particles.f_ p))
  end.

(** [std::min(a, b)] and [std::max(a, b)] on doubles. *)
Definition std_min (a b : Q) : Q := if Qlt_le_dec b a then b else a.
Definition std_max (a b : Q) : Q := if Qlt_le_dec a b then b else a.

(** The extrema that [print_status] computes before it prints them:
    [rho_min] and [rho_max] start at [density[0]] and are folded over all
    cells. *)
Definition density_range (density : grid.Field) : option (Q * Q) :=
  match grid.at_ density 0 with
  | None => None
  | Some d0 =>
      foldl (fun acc i =>
               match acc, grid.at_ density (Z.of_nat i) with
               | Some (rho_min, rho_max), Some d =>
                   Some (std_min rho_min d, std_max rho_max d)
               | _, _ => None
               end)
            (Some (d0, d0)) (seq 0 (Z.to_nat (grid.size density)))
  end.

(** One pass of the time loop of [main]: free streaming, periodic boundary,
    density. *)
Definition time_step (g : grid.Grid) (dt : Q)
    (state : particles.Particles * grid.Field)
  : option (particles.Particles * grid.Field) :=
  let '(p, density) := state in
  match particles.advance_positions p dt with
  | None => None
  | Some p =>
      match apply_periodic_bc p g with
      | None => None
      | Some p =>
          match compute_density p g density with
          | None => None
          | Some density => Some (p, density)
          end
      end
  end.

(** The time loop: [n_steps] passes. *)
Fixpoint time_loop (n_steps : nat) (g : grid.Grid) (dt : Q)
    (state : particles.Particles * grid.Field)
  : option (particles.Particles * grid.Field) :=
  match n_steps with
  | O => Some state
  | S n =>
      match time_step g dt state with
      | None => None
      | Some state' => time_loop n g dt state'
      end
  end.

(** The simulation of [main] from the initialised particles on: the initial
    density, then the time loop. *)
Definition simulate (n_steps : nat) (g : grid.Grid) (dt : Q)
    (p : particles.Particles) (density : grid.Field)
  : option (particles.Particles * grid.Field) :=
  match compute_density p g density with
  | None => None
  | Some density => time_loop n_steps g dt (p, density)
  end.

End app.

(** ** Objects the program can hold, and the words of the specification *)

Module wf.
Import cxx.

(** A valid Grid is one its constructor returned. *)
Definition valid (g : grid.Grid) : Prop :=
  exists n_cells x_min x_max bc,
    is_size_t n_cells /\ grid.Grid_ctor n_cells x_min x_max bc = inr g.

(** A Field over its grid: one value per cell, held in a [std::vector]. *)
Definition Field_ok (f : grid.Field) : Prop :=
  valid (grid.grid_ f) /\
  grid.size f = grid.n_cells (grid.grid_ f) /\
  grid.size f <= vector_max_size.

(** What every valid Grid satisfies. *)
Record Grid_facts (g : grid.Grid) : Prop := {
  gf_n_pos : 1 <= grid.n_cells_ g;
  gf_n_size : grid.n_cells_ g <= SIZE_MAX;
  gf_bounds : (grid.x_min_ g < grid.x_max_ g)%Q;
  gf_length : (grid.length_ g == grid.x_max_ g - grid.x_min_ g)%Q;
  gf_length_pos : (0 < grid.length_ g)%Q;
  gf_dx_pos : (0 < grid.dx_ g)%Q;
  gf_inv_dx_pos : (0 < grid.inv_dx_ g)%Q;
  gf_dx_n : (grid.dx_ g * inject_Z (grid.n_cells_ g) == grid.length_ g)%Q;
  gf_inv_dx : (grid.inv_dx_ g * grid.dx_ g == 1)%Q
}.

(** The offset from [x_min_] that [wrap_position] computes: the remainder of
    [x - x_min_] by the domain length, brought back above zero. *)
Definition wrapped_offset (g : grid.Grid) (x : Q) : Q :=
  let x_rel := fmod (x - grid.x_min_ g) (grid.length_ g) in
  if Qlt_le_dec x_rel 0 then (x_rel + grid.length_ g)%Q else x_rel.

(** The three sequences of a particle set have one length. *)
Definition synchronized (p : particles.Particles) : Prop :=
  particles.vsize (particles.x_ p) = particles.vsize (particles.v_ p) /\
  particles.vsize (particles.v_ p) = particles.vsize (particles.f_ p).

(** The three sequences all have length [n]. *)
Definition lengths_are (p : particles.Particles) (n : Z) : Prop :=
  particles.vsize (particles.x_ p) = n /\
  particles.vsize (particles.v_ p) = n /\
  particles.vsize (particles.f_ p) = n.

(** The public operations on the length of a particle set. *)
Inductive operation : Type :=
| op_reserve (a : particles.allocator) (n : Z)
| op_resize (a : particles.allocator) (n : Z)
| op_resize_with (a : particles.allocator) (n : Z) (x_val v_val f_val : Q)
| op_clear
| op_push_back (a : particles.allocator) (x_val v_val f_val : Q)
| op_pop_back.

Definition run (op : operation) : particles.method unit :=
  match op with
  | op_reserve a n => particles.reserve a n
  | op_resize a n => particles.resize a n
  | op_resize_with a n x_val v_val f_val =>
      particles.resize_with a n x_val v_val f_val
  | op_clear => particles.clear
  | op_push_back a x_val v_val f_val => particles.push_back a x_val v_val f_val
  | op_pop_back => particles.pop_back
  end.

(** The size arguments are [size_type] values. *)
Definition argument_ok (op : operation) : Prop :=
  match op with
  | op_reserve _ n | op_resize _ n | op_resize_with _ n _ _ _ => is_size_t n
  | op_clear | op_push_back _ _ _ _ | op_pop_back => True
  end.

(** The particle sets a program holds as long as no operation has thrown:
    what a constructor returned, and what an operation that returned made of
    such a set.  ([pop_back] on an empty set does not return: it breaks its
    contract.) *)
Inductive built : particles.Particles -> Prop :=
| built_default : built particles.Particles_default
| built_capacity a n p :
    is_size_t n -> particles.Particles_capacity a n = particles.Returned p ->
    built p
| built_fill a n x_val v_val f_val p :
    is_size_t n ->
    particles.Particles_fill a n x_val v_val f_val = particles.Returned p ->
    built p
| built_step op p p' :
    built p -> argument_ok op -> run op p = (particles.Returned tt, p') ->
    built p'.

(** Successive calls of [advance_positions] with one time step, as in the
    loops of the tests and of [main]. *)
Fixpoint advance_steps (k : nat) (p : particles.Particles) (dt : Q)
  : option particles.Particles :=
  match k with
  | O => Some p
  | S k' =>
      match particles.advance_positions p dt with
      | None => None
      | Some p' => advance_steps k' p' dt
      end
  end.

(** The allocator that delivers every block, and the one that runs out of
    memory after serving [x_]. *)
Definition plentiful : particles.allocator := particles.mkallocator true true true.
Definition exhausted_after_x : particles.allocator :=
  particles.mkallocator true false false.

Definition Qsum (l : list Q) : Q := foldr Qplus 0%Q l.

(** [sum(field[i] * dx for all i)]. *)
Definition integral (g : grid.Grid) (values : list Q) : Q :=
  Qsum (map (fun v => v * grid.dx g)%Q values).

(** Deposition in the words of the specification: zero the field, then for
    every sample accumulate [field[grid.cell_index(x[i])] += f[i] / grid.dx()]. *)
Fixpoint accumulate_spec (g : grid.Grid) (xs fs : list Q) (field : list Q)
  : option (list Q) :=
  match xs, fs with
  | x :: xs', f :: fs' =>
      match grid.cell_index g x with
      | Some i =>
          accumulate_spec g xs' fs'
            (alter (fun old => old + f / grid.dx g)%Q (Z.to_nat i) field)
      | None => None
      end
  | _, _ => Some field
  end.

Definition deposit_density_spec (g : grid.Grid) (xs fs : list Q) (field : list Q)
  : option (list Q) :=
  accumulate_spec g xs fs (replicate (List.length field) 0%Q).

(** Nearest-grid-point binning: the weight density that the samples lying
    in cell [j] bring to it. *)
Definition cell_load (g : grid.Grid) (xs fs : list Q) (j : Z) : Q :=
  Qsum (zip_with
          (fun x f =>
             if decide (grid.cell_index g x = Some j) then (f / grid.dx g)%Q
             else 0%Q)
          xs fs).

(** The grids of the concrete scenarios. *)
(** The clamp of [cell_index], in the words of the specification. *)
Definition clamp (n t : Z) : Z := Z.max 0 (Z.min (n - 1) t).

Definition grid_0_4 : grid.Grid :=
  grid.mkGrid 4 0 4 (4 - 0) ((4 - 0) / to_double 4) (1 / ((4 - 0) / to_double 4))
    grid.Periodic.

Definition grid_over_ptrdiff : grid.Grid :=
  let n := 2 ^ 63 + 5 in
  grid.mkGrid n 0 1 (1 - 0) ((1 - 0) / to_double n) (1 / ((1 - 0) / to_double n))
    grid.Periodic.

Definition grid_size_max : grid.Grid :=
  let n := SIZE_MAX in
  grid.mkGrid n 0 1 (1 - 0) ((1 - 0) / to_double n) (1 / ((1 - 0) / to_double n))
    grid.Periodic.

(** The deposition scenario of the specification: [Grid(n=10, x_min=0,
    x_max=10)], a field on it, and one sample of weight 1 at [x = 2.5]. *)
Definition grid_0_10 : grid.Grid :=
  grid.mkGrid 10 0 10 (10 - 0) ((10 - 0) / to_double 10)
    (1 / ((10 - 0) / to_double 10)) grid.Periodic.

Definition field_0_10 : grid.Field :=
  grid.mkField grid_0_10 (replicate 10 (3 # 1)%Q).

Definition one_sample : particles.Particles :=
  particles.mkParticles
    (particles.mkvector [5 # 2]%Q 1)
    (particles.mkvector [0]%Q 1)
    (particles.mkvector [1]%Q 1).

(** A field with fewer cells than [grid_0_10]. *)
Definition field_short : grid.Field := grid.mkField grid_0_10 [0; 0]%Q.

(** The field [f[i] = i] on [grid_0_4]. *)
Definition field_ramp : grid.Field := grid.mkField grid_0_4 [0; 1; 2; 3]%Q.

(** A constant field on [grid_0_4]. *)
Definition field_const_5 : grid.Field := grid.mkField grid_0_4 [5; 5; 5; 5]%Q.

(** Three samples on [grid_0_4], two of them in one cell, one outside the
    domain. *)
Definition three_samples : particles.Particles :=
  particles.mkParticles
    (particles.mkvector [1 # 2; 3 # 4; 9 # 2]%Q 3)
    (particles.mkvector [1; -1; 0]%Q 3)
    (particles.mkvector [1 # 3; 2 # 3; 5]%Q 3).

End wf.

(** ** Binary64 arithmetic *)

Module ieee.
Import cxx PrimFloat SpecFloat FloatOps.

(** [double]: an IEEE 754 binary64 number; [+ - * /] round to nearest, ties
    to even, once per operation. *)
Definition double : Set := float.
Bind Scope float_scope with double.

(** [a < b] and [a >= b]: both are false when an operand is a NaN. *)
Definition lt (a b : double) : bool :=
  match compare a b with
  | FLt => true
  | _ => false
  end.

Definition ge (a b : double) : bool :=
  match compare a b with
  | FEq | FGt => true
  | _ => false
  end.

(** The double nearest to [m * 2^e]. *)
Definition of_scaled (m e : Z) : double :=
  SF2Prim (binary_normalize prec emax m e false).

(** [static_cast<double>(n)] for an integer [n]: the nearest double. *)
Definition to_double (n : Z) : double := of_scaled n 0.

(** [static_cast<std::ptrdiff_t>(x)]: the fractional part is discarded;
    undefined for a NaN, an infinity and a value outside the type's range. *)
Definition double_to_ptrdiff_t (x : double) : option Z :=
  match Prim2SF x with
  | S754_zero _ => Some 0
  | S754_finite s m e =>
      let t := if 0 <=? e then Z.pos m * 2 ^ e else Z.pos m / 2 ^ (- e) in
      let t := if s then - t else t in
      if fits_ptrdiff_t t then Some t else None
  | S754_infinity _ | S754_nan => None
  end.

(** [std::fmod(x, y)]: the exact remainder [x - n * y], [n] the quotient
    [x / y] with its fractional part discarded; it has the sign of [x] and is
    a double, so no rounding takes place.  NaN for a NaN operand, an infinite
    [x] or a zero [y]; [x] itself for an infinite [y]. *)
Definition fmod (x y : double) : double :=
  match Prim2SF x, Prim2SF y with
  | S754_nan, _ | _, S754_nan => nan
  | S754_infinity _, _ => nan
  | _, S754_zero _ => nan
  | S754_zero _, _ => x
  | S754_finite _ _ _, S754_infinity _ => x
  | S754_finite sx mx ex, S754_finite _ my ey =>
      let e := Z.min ex ey in
      let r := (Z.pos mx * 2 ^ (ex - e)) mod (Z.pos my * 2 ^ (ey - e)) in
      if r =? 0 then (if sx then neg_zero else zero)
      else of_scaled (if sx then - r else r) e
  end.

(** A double, in the form its specification gives it, that is neither
    negative nor a NaN: [+0], a positive number or [+inf]. *)
Definition SFnonneg (x : spec_float) : Prop :=
  match x with
  | S754_zero s | S754_infinity s | S754_finite s _ _ => s = false
  | S754_nan => False
  end.

End ieee.

(** ** Grid and Field over binary64 doubles (src/grid) *)

Module grid64.
Import cxx PrimFloat ieee.

Abbreviation BoundaryCondition := grid.BoundaryCondition.

Record Grid : Type := mkGrid {
  n_cells_ : Z;
  x_min_ : double;
  x_max_ : double;
  length_ : double;
  dx_ : double;
  inv_dx_ : double;
  bc_ : BoundaryCondition
}.

(** [Grid::Grid]: the member initialisers run first, then the two checks. *)
Definition Grid_ctor (n_cells : Z) (x_min x_max : double) (bc : BoundaryCondition)
  : exception + Grid :=
  let length := (x_max - x_min)%float in
  let dx := (length / to_double n_cells)%float in
  let inv_dx := (1 / dx)%float in
  let this := mkGrid n_cells x_min x_max length dx inv_dx bc in
  if n_cells =? 0 then
    inl (invalid_argument "Grid must have at least one cell")
  else if ge x_min x_max then
    inl (invalid_argument "x_min must be less than x_max")
  else inr this.

Definition n_cells (g : Grid) : Z := n_cells_ g.
Definition x_min (g : Grid) : double := x_min_ g.
Definition x_max (g : Grid) : double := x_max_ g.
Definition length (g : Grid) : double := length_ g.
Definition dx (g : Grid) : double := dx_ g.

Definition cell_left (g : Grid) (i : Z) : double :=
  (x_min_ g + to_double i * dx_ g)%float.

Definition wrap_position (g : Grid) (x : double) : double :=
  match bc_ g with
  | grid.Periodic =>
      let x_rel := (x - x_min_ g)%float in
      let x_rel := fmod x_rel (length_ g) in
      let x_rel := if lt x_rel 0 then (x_rel + length_ g)%float else x_rel in
      (x_min_ g + x_rel)%float
  end.

Definition cell_index (g : Grid) (x : double) : option Z :=
  let x_wrapped := wrap_position g x in
  match double_to_ptrdiff_t ((x_wrapped - x_min_ g) * inv_dx_ g)%float with
  | None => None
  | Some idx =>
      let idx := if idx <? 0 then 0 else idx in
      let idx :=
        if n_cells_ g <=? to_size_t idx
        then to_ptrdiff_t (to_size_t (n_cells_ g - 1))
        else idx in
      Some (to_size_t idx)
  end.

Definition interpolation_weights (g : Grid) (x : double) : option (double * double) :=
  let x_wrapped := wrap_position g x in
  match cell_index g x_wrapped with
  | None => None
  | Some idx =>
      let x_left := cell_left g idx in
      let right_weight := ((x_wrapped - x_left) * inv_dx_ g)%float in
      let left_weight := (1 - right_weight)%float in
      Some (left_weight, right_weight)
  end.

Definition wrap_index (g : Grid) (i : Z) : option Z :=
  match bc_ g with
  | grid.Periodic =>
      let n := to_ptrdiff_t (n_cells_ g) in
      match ptrdiff_rem i n with
      | None => None
      | Some i =>
          if i <? 0 then
            match ptrdiff_add i n with
            | None => None
            | Some i => Some (to_size_t i)
            end
          else Some (to_size_t i)
      end
  end.

Definition contains (g : Grid) (x : double) : bool :=
  ge x (x_min_ g) && lt x (x_max_ g).

Record Field : Type := mkField {
  grid_ : Grid;
  data_ : list double
}.

(** [Field::Field]: [data_(grid.n_cells(), initial_value)]. *)
Definition Field_ctor (mem : bool) (g : Grid) (initial_value : double)
  : exception + Field :=
  if vector_max_size <? n_cells g then inl length_error
  else if (0 <? n_cells g) && negb mem then inl bad_alloc
  else inr (mkField g (replicate (Z.to_nat (n_cells g)) initial_value)).

Definition size (f : Field) : Z := Z.of_nat (List.length (data_ f)).

Definition at_ (f : Field) (i : Z) : option double :=
  if (0 <=? i) && (i <? size f) then data_ f !! Z.to_nat i else None.

Definition interpolate (f : Field) (x : double) : option double :=
  match cell_index (grid_ f) x with
  | None => None
  | Some idx =>
      match interpolation_weights (grid_ f) x with
      | None => None
      | Some (w_left, w_right) =>
          match ptrdiff_add (to_ptrdiff_t idx) 1 with
          | None => None
          | Some nxt =>
              match wrap_index (grid_ f) nxt with
              | None => None
              | Some idx_next =>
                  match at_ f idx, at_ f idx_next with
                  | Some a, Some b => Some (w_left * a + w_right * b)%float
                  | _, _ => None
                  end
              end
          end
      end
  end.

End grid64.

(** ** Grids and Fields of doubles the program can hold *)

Module wf64.
Import cxx PrimFloat.

(** A Grid is an object its constructor returned. *)
Definition valid (g : grid64.Grid) : Prop :=
  exists n x_min x_max bc,
    is_size_t n /\ grid64.Grid_ctor n x_min x_max bc = inr g.

(** A Field over its Grid: one value per cell, held in a [std::vector]. *)
Definition Field_ok (f : grid64.Field) : Prop :=
  valid (grid64.grid_ f) /\
  grid64.size f = grid64.n_cells (grid64.grid_ f) /\
  grid64.size f <= vector_max_size.

Definition grid_0_4 : grid64.Grid :=
  grid64.mkGrid 4 0 4 4 1 1 grid.Periodic.

(** The test field of [Grid(4, 0, 4)] with [f[i] = i]. *)
Definition field_ramp : grid64.Field :=
  grid64.mkField grid_0_4 [0; 1; 2; 3]%float.

(** A field of seven cells that vanishes outside cell 5. *)
Definition field_pulse (g : grid64.Grid) : grid64.Field :=
  grid64.mkField g [0; 0; 0; 0; 0; 1; 0]%float.

End wf64.

(** * Properties *)

(** ** Truncation and [fmod] in exact arithmetic *)

Section Rounding.
Import cxx.
Local Open Scope Q_scope.

#[global] Instance Qtruncate_comp : Proper (Qeq ==> eq) Qtruncate.
Proof.
  intros p q Hpq. unfold Qtruncate.
  rewrite Hpq. destruct (Qle_bool 0 q); [apply Qfloor_comp | apply Qceiling_comp]; exact Hpq.
Qed.

#[global] Instance double_to_ptrdiff_t_comp : Proper (Qeq ==> eq) double_to_ptrdiff_t.
Proof.
  intros p q Hpq. unfold double_to_ptrdiff_t.
  rewrite (Qtruncate_comp p q Hpq). reflexivity.
Qed.

#[global] Instance fmod_comp : Proper (Qeq ==> Qeq ==> Qeq) fmod.
Proof.
  intros x x' Hx y y' Hy. unfold fmod.
  assert (Ht : Qtruncate (x / y) = Qtruncate (x' / y')) by now rewrite Hx, Hy.
  rewrite Ht, Hx, Hy. reflexivity.
Qed.

Lemma Qtruncate_nonneg (q : Q) :
  0 <= q -> inject_Z (Qtruncate q) <= q /\ q < inject_Z (Qtruncate q) + 1.
Proof.
  intros Hq. unfold Qtruncate.
  apply Qle_bool_iff in Hq. rewrite Hq. split.
  - apply Qfloor_le.
  - pose proof (Qlt_floor q) as H. rewrite inject_Z_plus in H. exact H.
Qed.

Lemma Qtruncate_neg (q : Q) :
  q < 0 -> q <= inject_Z (Qtruncate q) /\ inject_Z (Qtruncate q) - 1 < q.
Proof.
  intros Hq. unfold Qtruncate.
  destruct (Qle_bool 0 q) eqn:E.
  - apply Qle_bool_iff in E. lra.
  - split.
    + apply Qle_ceiling.
    + pose proof (Qceiling_lt q) as H.
      unfold Z.sub in H. rewrite inject_Z_plus in H. simpl in H.
      unfold Qminus. exact H.
Qed.

Lemma Qtruncate_unit (q : Q) : 0 <= q -> q < 1 -> Qtruncate q = 0%Z.
Proof.
  intros H0 H1. destruct (Qtruncate_nonneg q H0) as [Hlo Hhi].
  assert (Hz : (0 <= Qtruncate q < 1)%Z).
  { split.
    - unfold Qtruncate. apply Qle_bool_iff in H0. rewrite H0.
      change 0%Z with (Qfloor 0). apply Qfloor_resp_le. now apply Qle_bool_iff.
    - rewrite Zlt_Qlt. change (inject_Z 1) with 1. lra. }
  lia.
Qed.

(** The quotient [x / y] times [y] gives [x] back. *)
Lemma Qdiv_cancel (x y : Q) : ~ y == 0 -> x / y * y == x.
Proof. intros Hy. field. exact Hy. Qed.

Lemma fmod_nonneg (x y : Q) : 0 < y -> 0 <= x -> 0 <= fmod x y /\ fmod x y < y.
Proof.
  intros Hy Hx. unfold fmod.
  assert (Hq : 0 <= x / y).
  { apply Qle_shift_div_l; lra. }
  destruct (Qtruncate_nonneg _ Hq) as [Hlo Hhi].
  pose proof (Qdiv_cancel x y) as Hc.
  assert (Hc' : x / y * y == x) by (apply Hc; lra).
  set (t := inject_Z (Qtruncate (x / y))) in *.
  set (d := x / y) in *.
  split; nra.
Qed.

Lemma fmod_neg (x y : Q) : 0 < y -> x < 0 -> - y < fmod x y /\ fmod x y <= 0.
Proof.
  intros Hy Hx. unfold fmod.
  assert (Hq : x / y < 0).
  { apply Qlt_shift_div_r; lra. }
  destruct (Qtruncate_neg _ Hq) as [Hlo Hhi].
  assert (Hc' : x / y * y == x) by (apply Qdiv_cancel; lra).
  set (t := inject_Z (Qtruncate (x / y))) in *.
  set (d := x / y) in *.
  split; nra.
Qed.

Lemma fmod_small (x y : Q) : 0 <= x -> x < y -> fmod x y == x.
Proof.
  intros Hx Hxy. unfold fmod.
  assert (H0 : 0 <= x / y) by (apply Qle_shift_div_l; lra).
  assert (H1 : x / y < 1) by (apply Qlt_shift_div_r; lra).
  rewrite (Qtruncate_unit _ H0 H1). change (inject_Z 0) with 0. ring.
Qed.

End Rounding.

(** ** Machine integer conversions *)

Section Conversions.
Import cxx.

Lemma to_size_t_id (z : Z) : is_size_t z -> to_size_t z = z.
Proof. unfold is_size_t, SIZE_MAX, to_size_t. intros H. apply Z.mod_small. lia. Qed.

Lemma to_ptrdiff_t_id (z : Z) : is_ptrdiff_t z -> to_ptrdiff_t z = z.
Proof.
  unfold is_ptrdiff_t, PTRDIFF_MIN, PTRDIFF_MAX, to_ptrdiff_t. intros H.
  rewrite Z.mod_small by lia. lia.
Qed.

Lemma fits_ptrdiff_t_true (z : Z) : is_ptrdiff_t z -> fits_ptrdiff_t z = true.
Proof.
  unfold is_ptrdiff_t, fits_ptrdiff_t. intros [H1 H2].
  apply andb_true_intro; split; apply Z.leb_le; assumption.
Qed.

Lemma small_is_size_t (z : Z) : 0 <= z <= PTRDIFF_MAX -> is_size_t z.
Proof. unfold is_size_t, SIZE_MAX, PTRDIFF_MAX. lia. Qed.

Lemma small_is_ptrdiff_t (z : Z) : 0 <= z <= PTRDIFF_MAX -> is_ptrdiff_t z.
Proof. unfold is_ptrdiff_t, PTRDIFF_MIN, PTRDIFF_MAX. lia. Qed.

Lemma size_of_ptrdiff (z : Z) : to_size_t (to_ptrdiff_t z) = to_size_t z.
Proof.
  unfold to_size_t, to_ptrdiff_t.
  rewrite Zminus_mod_idemp_l. f_equal. lia.
Qed.

(** The two tests that end [cell_index], [if (idx < 0) idx = 0] and
    [if (size_t(idx) >= n_cells_) idx = n_cells_ - 1], with their casts, are
    the clamp to [[0, n-1]], for every cell count a [size_t] can hold. *)
Lemma clamp_code (n t : Z) :
  1 <= n <= SIZE_MAX -> is_ptrdiff_t t ->
  to_size_t
    (if n <=? to_size_t (if t <? 0 then 0 else t)
     then to_ptrdiff_t (to_size_t (n - 1))
     else (if t <? 0 then 0 else t))
  = wf.clamp n t.
Proof.
  unfold SIZE_MAX, is_ptrdiff_t, PTRDIFF_MIN, PTRDIFF_MAX, wf.clamp.
  intros Hn Ht.
  destruct (t <? 0) eqn:E.
  - apply Z.ltb_lt in E.
    change (to_size_t 0) with 0.
    replace (n <=? 0) with false by (symmetry; apply Z.leb_gt; lia).
    cbv iota. change (to_size_t 0) with 0. lia.
  - apply Z.ltb_ge in E.
    assert (Hs : to_size_t t = t) by (unfold to_size_t; apply Z.mod_small; lia).
    rewrite Hs. destruct (n <=? t) eqn:En.
    + apply Z.leb_le in En. rewrite size_of_ptrdiff.
      unfold to_size_t. rewrite !(Z.mod_small (n - 1)) by lia. lia.
    + apply Z.leb_gt in En. lia.
Qed.

Lemma clamp_range (n t : Z) : 1 <= n -> 0 <= wf.clamp n t <= n - 1.
Proof. unfold wf.clamp. lia. Qed.

Lemma double_to_ptrdiff_t_is_ptrdiff_t (q : Q) (t : Z) :
  double_to_ptrdiff_t q = Some t -> is_ptrdiff_t t.
Proof.
  unfold double_to_ptrdiff_t.
  destruct (fits_ptrdiff_t (Qtruncate q)) eqn:E; [|discriminate].
  intros [= <-]. unfold fits_ptrdiff_t in E.
  apply andb_true_iff in E. destruct E as [E1 E2].
  apply Z.leb_le in E1, E2. split; assumption.
Qed.

End Conversions.

(** ** Grid construction *)

Section GridFacts.
Import cxx.

Lemma Grid_ctor_inr (n : Z) (xmin xmax : Q) (bc : grid.BoundaryCondition) (g : grid.Grid) :
  grid.Grid_ctor n xmin xmax bc = inr g ->
  n <> 0 /\ (xmin < xmax)%Q /\
  g = grid.mkGrid n xmin xmax (xmax - xmin) ((xmax - xmin) / to_double n)
        (1 / ((xmax - xmin) / to_double n)) bc.
Proof.
  unfold grid.Grid_ctor. intros H.
  destruct (n =? 0) eqn:En; [discriminate|].
  destruct (Qle_bool xmax xmin) eqn:Ex; [discriminate|].
  apply Z.eqb_neq in En. split; [exact En|]. split.
  - apply Qnot_le_lt. intros Hle. apply Qle_bool_iff in Hle. congruence.
  - now inversion H.
Qed.

Lemma valid_facts (g : grid.Grid) : wf.valid g -> wf.Grid_facts g.
Proof.
  intros (n & xmin & xmax & bc & [Hn0 Hn1] & Hc).
  apply Grid_ctor_inr in Hc. destruct Hc as (Hnz & Hlt & ->).
  assert (Hn : (0 < inject_Z n)%Q).
  { change 0%Q with (inject_Z 0). rewrite <- Zlt_Qlt. lia. }
  assert (Hl : (0 < xmax - xmin)%Q) by lra.
  assert (Hdx : (0 < (xmax - xmin) / to_double n)%Q).
  { unfold to_double. apply Qlt_shift_div_l; lra. }
  constructor; simpl; try lia; try lra.
  - apply Qlt_shift_div_l; lra.
  - unfold to_double. field. lra.
  - unfold to_double in *. field. split; lra.
Qed.

End GridFacts.

Section GridConstruction.
Import cxx.

(** In exact arithmetic [Grid::Grid] throws [std::invalid_argument] exactly
    when [n_cells == 0] or [x_min >= x_max]; for all other arguments it
    returns the Grid with the given cell count and bounds, and that Grid has
    [n_cells >= 1], [x_min < x_max] and [dx > 0].  (In binary64 the quotient
    [dx] can underflow and a NaN bound passes the test.) *)
Lemma Grid_ctor_spec_exact (n : Z) (xmin xmax : Q) (bc : grid.BoundaryCondition) :
  is_size_t n ->
  ((n = 0 \/ (xmax <= xmin)%Q) <->
   exists what, grid.Grid_ctor n xmin xmax bc = inl (invalid_argument what)) /\
  (~ (n = 0 \/ (xmax <= xmin)%Q) ->
   exists g, grid.Grid_ctor n xmin xmax bc = inr g /\
     grid.n_cells g = n /\ grid.x_min g = xmin /\ grid.x_max g = xmax /\
     grid.length g = (xmax - xmin)%Q /\
     1 <= grid.n_cells g /\ (grid.x_min g < grid.x_max g)%Q /\ (0 < grid.dx g)%Q).
Proof.
  intros Hn. split.
  - unfold grid.Grid_ctor. split.
    + intros [-> | Hx].
      * simpl. eauto.
      * destruct (n =? 0); [eauto|].
        apply Qle_bool_iff in Hx. rewrite Hx. eauto.
    + intros [what H].
      destruct (n =? 0) eqn:En.
      * left. now apply Z.eqb_eq.
      * destruct (Qle_bool xmax xmin) eqn:Ex; [|discriminate].
        right. now apply Qle_bool_iff.
  - intros Hok.
    assert (Hnz : n <> 0) by tauto.
    assert (Hlt : ~ (xmax <= xmin)%Q) by tauto.
    unfold grid.Grid_ctor.
    apply Z.eqb_neq in Hnz. rewrite Hnz.
    destruct (Qle_bool xmax xmin) eqn:Ex.
    { apply Qle_bool_iff in Ex. contradiction. }
    eexists. split; [reflexivity|].
    assert (Hv : wf.valid
      (grid.mkGrid n xmin xmax (xmax - xmin) ((xmax - xmin) / to_double n)
         (1 / ((xmax - xmin) / to_double n)) bc)).
    { exists n, xmin, xmax, bc. split; [exact Hn|].
      unfold grid.Grid_ctor. now rewrite Hnz, Ex. }
    destruct (valid_facts _ Hv) as [F1 _ F3 _ _ F6 _ _ _]. simpl in *.
    unfold grid.n_cells, grid.x_min, grid.x_max, grid.length, grid.dx. simpl.
    repeat split; auto.
Qed.

End GridConstruction.

(** ** Index wrapping *)

Section WrapIndex.
Import cxx.
Variable g : grid.Grid.
Hypothesis g_valid : wf.valid g.
Hypothesis n_fits : grid.n_cells g <= PTRDIFF_MAX.

Lemma rem_to_mod (i n : Z) :
  0 < n ->
  (if Z.rem i n <? 0 then Z.rem i n + n else Z.rem i n) = i mod n.
Proof.
  intros Hn.
  pose proof (Z.rem_bound_abs i n ltac:(lia)) as Hb.
  pose proof (Z.quot_rem' i n) as Hq.
  destruct (Z.rem i n <? 0) eqn:E.
  - apply Z.ltb_lt in E.
    apply Z.mod_unique with (q := Z.quot i n - 1); lia.
  - apply Z.ltb_ge in E.
    apply Z.mod_unique with (q := Z.quot i n); lia.
Qed.

Lemma wrap_index_mod (i : Z) :
  is_ptrdiff_t i -> grid.wrap_index g i = Some (i mod grid.n_cells g).
Proof.
  intros Hi.
  destruct (valid_facts g g_valid) as [F1 _ _ _ _ _ _ _ _].
  unfold grid.n_cells in *.
  assert (Hn : is_ptrdiff_t (grid.n_cells_ g)) by (apply small_is_ptrdiff_t; lia).
  unfold grid.wrap_index. destruct (grid.bc_ g).
  rewrite (to_ptrdiff_t_id _ Hn).
  unfold ptrdiff_rem.
  replace (grid.n_cells_ g =? 0) with false by (symmetry; apply Z.eqb_neq; lia).
  replace (grid.n_cells_ g =? -1) with false by (symmetry; apply Z.eqb_neq; lia).
  rewrite andb_false_r. simpl.
  pose proof (rem_to_mod i (grid.n_cells_ g) ltac:(lia)) as Hm.
  pose proof (Z.mod_pos_bound i (grid.n_cells_ g) ltac:(lia)) as Hb.
  unfold PTRDIFF_MAX in n_fits.
  destruct (Z.rem i (grid.n_cells_ g) <? 0) eqn:E.
  - unfold ptrdiff_add. rewrite Hm.
    rewrite fits_ptrdiff_t_true by (apply small_is_ptrdiff_t; unfold PTRDIFF_MAX; lia).
    rewrite to_size_t_id by (apply small_is_size_t; unfold PTRDIFF_MAX; lia).
    reflexivity.
  - rewrite Hm.
    rewrite to_size_t_id by (apply small_is_size_t; unfold PTRDIFF_MAX; lia).
    reflexivity.
Qed.

End WrapIndex.

(** C6, as the code has it.  For every valid Grid whose cell count fits
    [std::ptrdiff_t] and every index [i] the parameter type can hold,
    [wrap_index(i)] returns [i mod n], which lies in [[0, n)], and it
    returns the same cell for [i + k*n], for every integer [k] for which
    [i + k*n] can be passed. *)
Theorem wrap_index_periodic (g : grid.Grid) (i k : Z) :
  wf.valid g ->
  grid.n_cells g <= cxx.PTRDIFF_MAX ->
  cxx.is_ptrdiff_t i ->
  cxx.is_ptrdiff_t (i + k * grid.n_cells g) ->
  exists r,
    grid.wrap_index g i = Some r /\
    0 <= r < grid.n_cells g /\
    r = i mod grid.n_cells g /\
    grid.wrap_index g (i + k * grid.n_cells g) = Some r.
Proof.
  intros Hv Hn Hi Hik.
  pose proof (wf.gf_n_pos g (valid_facts g Hv)) as Hpos.
  exists (i mod grid.n_cells g).
  rewrite (wrap_index_mod g Hv Hn i Hi).
  rewrite (wrap_index_mod g Hv Hn _ Hik).
  rewrite Z_mod_plus_full.
  unfold grid.n_cells in *.
  repeat split; try reflexivity; apply Z.mod_pos_bound; lia.
Qed.

Lemma valid_grid_0_4 : wf.valid wf.grid_0_4.
Proof.
  exists 4, 0%Q, 4%Q, grid.Periodic. split.
  - unfold cxx.is_size_t, cxx.SIZE_MAX. lia.
  - reflexivity.
Qed.

Lemma wrap_index_periodic_witness :
  exists r,
    grid.wrap_index wf.grid_0_4 (-1) = Some r /\
    0 <= r < 4 /\
    r = (-1) mod 4 /\
    grid.wrap_index wf.grid_0_4 (-1 + 3 * 4) = Some r.
Proof.
  apply (wrap_index_periodic wf.grid_0_4 (-1) 3 valid_grid_0_4).
  - vm_compute. discriminate.
  - unfold cxx.is_ptrdiff_t, cxx.PTRDIFF_MIN, cxx.PTRDIFF_MAX. lia.
  - unfold cxx.is_ptrdiff_t, cxx.PTRDIFF_MIN, cxx.PTRDIFF_MAX. simpl. lia.
Defined.

(** C6 as stated fails on a Grid of [2^63 + 5] cells: the cell count does
    not fit [std::ptrdiff_t], [static_cast<std::ptrdiff_t>(n_cells_)] is
    negative, and [-2^63] and [-2^63 + n] are wrapped to different cells. *)
Lemma wrap_index_not_periodic_over_ptrdiff :
  grid.Grid_ctor (2 ^ 63 + 5) 0 1 grid.Periodic = inr wf.grid_over_ptrdiff /\
  cxx.is_size_t (2 ^ 63 + 5) /\
  cxx.is_ptrdiff_t (- 2 ^ 63) /\
  cxx.is_ptrdiff_t (- 2 ^ 63 + 1 * grid.n_cells wf.grid_over_ptrdiff) /\
  grid.wrap_index wf.grid_over_ptrdiff (- 2 ^ 63) = Some (2 ^ 63) /\
  grid.wrap_index wf.grid_over_ptrdiff
    (- 2 ^ 63 + 1 * grid.n_cells wf.grid_over_ptrdiff) = Some 5 /\
  grid.wrap_index wf.grid_over_ptrdiff (- 2 ^ 63) <>
  grid.wrap_index wf.grid_over_ptrdiff
    (- 2 ^ 63 + 1 * grid.n_cells wf.grid_over_ptrdiff).
Proof.
  repeat split; try (vm_compute; congruence).
Qed.

(** ** Position wrapping and cell lookup *)

Section WrapPosition.
Import cxx.
Local Open Scope Q_scope.
Variable g : grid.Grid.
Hypothesis g_valid : wf.valid g.

Local Abbreviation F := (valid_facts g g_valid).
Local Abbreviation wrapped_offset := (wf.wrapped_offset g).

Lemma wrap_position_offset (x : Q) :
  grid.wrap_position g x = grid.x_min_ g + wrapped_offset x.
Proof. unfold grid.wrap_position, wf.wrapped_offset. now destruct (grid.bc_ g). Qed.

Lemma wrapped_offset_range (x : Q) :
  0 <= wrapped_offset x /\ wrapped_offset x < grid.length_ g.
Proof.
  pose proof (wf.gf_length_pos g F) as HL.
  unfold wf.wrapped_offset.
  destruct (Qlt_le_dec (x - grid.x_min_ g) 0) as [Hneg | Hpos].
  - destruct (fmod_neg _ _ HL Hneg) as [H1 H2].
    destruct (Qlt_le_dec _ 0); lra.
  - destruct (fmod_nonneg _ _ HL Hpos) as [H1 H2].
    destruct (Qlt_le_dec _ 0); lra.
Qed.

Lemma wrapped_offset_comp (x y : Q) : x == y -> wrapped_offset x == wrapped_offset y.
Proof.
  intros Hxy. unfold wf.wrapped_offset.
  assert (Hf : fmod (x - grid.x_min_ g) (grid.length_ g)
               == fmod (y - grid.x_min_ g) (grid.length_ g)) by now rewrite Hxy.
  do 2 destruct (Qlt_le_dec _ 0); lra.
Qed.

Lemma wrap_position_range (x : Q) :
  grid.x_min_ g <= grid.wrap_position g x /\ grid.wrap_position g x < grid.x_max_ g.
Proof.
  rewrite wrap_position_offset.
  pose proof (wrapped_offset_range x). pose proof (wf.gf_length g F). lra.
Qed.

Lemma wrap_position_comp (x y : Q) :
  x == y -> grid.wrap_position g x == grid.wrap_position g y.
Proof.
  intros Hxy. rewrite !wrap_position_offset.
  pose proof (wrapped_offset_comp x y Hxy). lra.
Qed.

(** A position of the domain is left where it is. *)
Lemma wrap_position_inside (x : Q) :
  grid.x_min_ g <= x -> x < grid.x_max_ g -> grid.wrap_position g x == x.
Proof.
  intros Hlo Hhi. rewrite wrap_position_offset. unfold wf.wrapped_offset.
  pose proof (wf.gf_length g F) as HL.
  assert (Hs : fmod (x - grid.x_min_ g) (grid.length_ g) == x - grid.x_min_ g).
  { apply fmod_small; lra. }
  destruct (Qlt_le_dec _ 0); lra.
Qed.

Lemma cell_index_comp (x y : Q) : x == y -> grid.cell_index g x = grid.cell_index g y.
Proof.
  intros Hxy. unfold grid.cell_index.
  assert (Hq : (grid.wrap_position g x - grid.x_min_ g) * grid.inv_dx_ g
               == (grid.wrap_position g y - grid.x_min_ g) * grid.inv_dx_ g).
  { rewrite (wrap_position_comp x y Hxy). reflexivity. }
  rewrite (double_to_ptrdiff_t_comp _ _ Hq). reflexivity.
Qed.

(** Wrapping first does not change the cell found. *)
Lemma cell_index_wrapped (x : Q) :
  grid.cell_index g (grid.wrap_position g x) = grid.cell_index g x.
Proof.
  pose proof (wrap_position_range x) as [Hlo Hhi].
  pose proof (wrap_position_inside _ Hlo Hhi) as Hid.
  unfold grid.cell_index.
  assert (Hq : (grid.wrap_position g (grid.wrap_position g x) - grid.x_min_ g)
                 * grid.inv_dx_ g
               == (grid.wrap_position g x - grid.x_min_ g) * grid.inv_dx_ g).
  { rewrite Hid. reflexivity. }
  rewrite (double_to_ptrdiff_t_comp _ _ Hq). reflexivity.
Qed.

(** In exact arithmetic, for a valid Grid and every position [x]:
    [wrap_position(x)] lies in [[x_min, x_max)], wrapping a wrapped position
    changes nothing, and [cell_index] gives the same answer on [x] and on
    [wrap_position(x)].  (In binary64 [x_rel += length_] can round up to
    [length_].) *)
Lemma wrap_position_idempotent_exact (x : Q) :
  (grid.x_min g <= grid.wrap_position g x /\
   grid.wrap_position g x < grid.x_max g) /\
  grid.wrap_position g (grid.wrap_position g x) == grid.wrap_position g x /\
  grid.cell_index g (grid.wrap_position g x) = grid.cell_index g x.
Proof.
  pose proof (wrap_position_range x) as [Hlo Hhi].
  split; [split; assumption|]. split.
  - exact (wrap_position_inside _ Hlo Hhi).
  - exact (cell_index_wrapped x).
Qed.

End WrapPosition.

(** [cell_index] ends with the clamp to [[0, n-1]], whatever the cell
    coordinate is. *)
Lemma cell_index_clamp (g : grid.Grid) (x : Q) :
  1 <= grid.n_cells_ g <= cxx.SIZE_MAX ->
  grid.cell_index g x
  = option_map (wf.clamp (grid.n_cells_ g))
      (cxx.double_to_ptrdiff_t
         ((grid.wrap_position g x - grid.x_min_ g) * grid.inv_dx_ g)%Q).
Proof.
  intros Hn. unfold grid.cell_index.
  destruct (cxx.double_to_ptrdiff_t _) as [t|] eqn:E; [|reflexivity].
  simpl. f_equal. apply clamp_code; [exact Hn|].
  exact (double_to_ptrdiff_t_is_ptrdiff_t _ _ E).
Qed.

Section CellIndex.
Import cxx.
Local Open Scope Q_scope.
Variable g : grid.Grid.
Hypothesis g_valid : wf.valid g.
Hypothesis index_fits : (grid.n_cells g - 1 <= PTRDIFF_MAX)%Z.

Local Abbreviation F := (valid_facts g g_valid).

(** The cell coordinate of a position: its wrapped offset in units of [dx]. *)
Lemma cell_coordinate_range (x : Q) :
  0 <= (grid.wrap_position g x - grid.x_min_ g) * grid.inv_dx_ g /\
  (grid.wrap_position g x - grid.x_min_ g) * grid.inv_dx_ g
    < inject_Z (grid.n_cells_ g).
Proof.
  rewrite wrap_position_offset.
  destruct (wrapped_offset_range g g_valid x) as [H0 H1].
  pose proof (wf.gf_inv_dx_pos g F) as Hi.
  pose proof (wf.gf_dx_pos g F) as Hd.
  pose proof (wf.gf_dx_n g F) as Hn.
  pose proof (wf.gf_inv_dx g F) as Hid.
  set (o := wf.wrapped_offset g x) in *.
  set (i := grid.inv_dx_ g) in *. set (d := grid.dx_ g) in *.
  set (n := inject_Z (grid.n_cells_ g)) in *. set (L := grid.length_ g) in *.
  assert (E : grid.x_min_ g + o - grid.x_min_ g == o) by ring.
  rewrite E. split.
  - nra.
  - assert (Hn' : n == L * i).
    { rewrite <- Hn. transitivity (n * (i * d)); [rewrite Hid; ring | ring]. }
    rewrite Hn'. nra.
Qed.

Lemma Qfloor_range (q : Q) (n : Z) :
  0 <= q -> q < inject_Z n -> (0 <= Qfloor q < n)%Z.
Proof.
  intros H0 Hn. split.
  - change 0%Z with (Qfloor 0). now apply Qfloor_resp_le.
  - rewrite Zlt_Qlt. pose proof (Qfloor_le q). lra.
Qed.

Lemma cell_index_floor (x : Q) :
  grid.cell_index g x
    = Some (Qfloor ((grid.wrap_position g x - grid.x_min_ g) * grid.inv_dx_ g)) /\
  (0 <= Qfloor ((grid.wrap_position g x - grid.x_min_ g) * grid.inv_dx_ g)
     < grid.n_cells_ g)%Z.
Proof.
  destruct (cell_coordinate_range x) as [H0 H1].
  pose proof (Qfloor_range _ _ H0 H1) as Hr.
  pose proof (wf.gf_n_size g F) as Hs.
  split; [|exact Hr].
  unfold grid.cell_index, double_to_ptrdiff_t, Qtruncate.
  apply Qle_bool_iff in H0. rewrite H0.
  set (t := Qfloor _) in *.
  unfold grid.n_cells, PTRDIFF_MAX in index_fits.
  rewrite fits_ptrdiff_t_true
    by (unfold is_ptrdiff_t, PTRDIFF_MIN, PTRDIFF_MAX; lia).
  replace (t <? 0)%Z with false by (symmetry; apply Z.ltb_ge; lia).
  cbv beta iota zeta.
  assert (Ht : to_size_t t = t)
    by (apply to_size_t_id; unfold is_size_t, SIZE_MAX in *; lia).
  rewrite Ht.
  replace (grid.n_cells_ g <=? t)%Z with false by (symmetry; apply Z.leb_gt; lia).
  now rewrite Ht.
Qed.

(** The index returned is the floor of the cell coordinate, which the clamp
    leaves as it is. *)
Lemma cell_index_clamped_floor (x : Q) :
  exists i,
    grid.cell_index g x = Some i /\
    (0 <= i <= grid.n_cells g - 1)%Z /\
    i = Z.max 0 (Z.min (grid.n_cells g - 1)
          (Qfloor ((grid.wrap_position g x - grid.x_min g) / grid.dx g))).
Proof.
  destruct (cell_index_floor x) as [Hc Hr].
  eexists. split; [exact Hc|].
  unfold grid.n_cells, grid.x_min, grid.dx in *.
  assert (Hq : (grid.wrap_position g x - grid.x_min_ g) / grid.dx_ g
               == (grid.wrap_position g x - grid.x_min_ g) * grid.inv_dx_ g).
  { pose proof (wf.gf_inv_dx g F) as Hid. pose proof (wf.gf_dx_pos g F) as Hd.
    transitivity ((grid.wrap_position g x - grid.x_min_ g) / grid.dx_ g
                  * (grid.inv_dx_ g * grid.dx_ g)).
    - rewrite Hid. ring.
    - field. lra. }
  rewrite (Qfloor_comp _ _ Hq).
  split; lia.
Qed.

End CellIndex.

(** In exact arithmetic, for a valid Grid whose cell indices all fit
    [std::ptrdiff_t] and every position [x], [cell_index(x)] is defined and
    returns an index in [[0, n-1]]: the floor of
    [(wrap_position(x) - x_min) / dx], clamped to [[0, n-1]].  (In binary64
    the product with the cached [inv_dx] and the quotient by [dx] can
    differ.) *)
Lemma cell_index_total_exact (g : grid.Grid) (x : Q) :
  wf.valid g ->
  grid.n_cells g - 1 <= cxx.PTRDIFF_MAX ->
  (exists i,
     grid.cell_index g x = Some i /\
     0 <= i <= grid.n_cells g - 1 /\
     i = Z.max 0 (Z.min (grid.n_cells g - 1)
           (Qfloor ((grid.wrap_position g x - grid.x_min g) / grid.dx g)))) /\
  (grid.Grid_ctor 4 0 4 grid.Periodic = inr wf.grid_0_4 /\
   grid.cell_index wf.grid_0_4 (399 # 100) = Some 3 /\
   grid.cell_index wf.grid_0_4 (45 # 10) = Some 0).
Proof.
  intros Hv Hn. split.
  - exact (cell_index_clamped_floor g Hv Hn x).
  - repeat split.
Qed.

(** On a Grid of [SIZE_MAX] cells, in exact arithmetic too: at [x = 3/4] the
    cell coordinate exceeds [PTRDIFF_MAX] and its conversion to
    [std::ptrdiff_t] is undefined. *)
Lemma cell_index_undefined_size_max_exact :
  grid.Grid_ctor cxx.SIZE_MAX 0 1 grid.Periodic = inr wf.grid_size_max /\
  cxx.is_size_t cxx.SIZE_MAX /\
  cxx.PTRDIFF_MAX <
    Qfloor ((grid.wrap_position wf.grid_size_max (3 # 4)
             - grid.x_min wf.grid_size_max) * grid.inv_dx_ wf.grid_size_max) /\
  grid.cell_index wf.grid_size_max (3 # 4) = None.
Proof.
  repeat split; try (vm_compute; congruence).
Qed.

(** ** Field interpolation *)

Section Interpolation.
Import cxx.
Variable f : grid.Field.
Hypothesis f_ok : wf.Field_ok f.

Local Abbreviation g := (grid.grid_ f).

Lemma field_grid_valid : wf.valid g.
Proof. exact (proj1 f_ok). Qed.

Lemma field_n_small : grid.n_cells g <= PTRDIFF_MAX / 8.
Proof. destruct f_ok as (_ & Hs & Hm). unfold vector_max_size in Hm. lia. Qed.

Lemma field_n_fits : grid.n_cells g <= PTRDIFF_MAX.
Proof.
  pose proof field_n_small as H.
  assert (PTRDIFF_MAX / 8 <= PTRDIFF_MAX) by (vm_compute; discriminate).
  lia.
Qed.

Lemma field_index_fits : grid.n_cells g - 1 <= PTRDIFF_MAX.
Proof. pose proof field_n_fits. lia. Qed.

Lemma at_in_range (i : Z) : 0 <= i < grid.n_cells g -> exists a, grid.at_ f i = Some a.
Proof.
  intros Hi. destruct f_ok as (_ & Hs & _).
  unfold grid.at_. rewrite Hs.
  replace (0 <=? i) with true by (symmetry; apply Z.leb_le; lia).
  replace (i <? grid.n_cells g) with true by (symmetry; apply Z.ltb_lt; lia).
  simpl. apply lookup_lt_is_Some.
  unfold grid.size in Hs. lia.
Qed.

Lemma interpolation_weights_eq (x : Q) (idx : Z) :
  grid.cell_index g x = Some idx ->
  grid.interpolation_weights g x =
    Some ((1 - (grid.wrap_position g x - grid.cell_left g idx) * grid.inv_dx_ g)%Q,
          ((grid.wrap_position g x - grid.cell_left g idx) * grid.inv_dx_ g)%Q).
Proof.
  intros Hc. unfold grid.interpolation_weights.
  rewrite (cell_index_wrapped g field_grid_valid x), Hc. reflexivity.
Qed.

Lemma next_index (idx : Z) :
  0 <= idx < grid.n_cells g -> ptrdiff_add (to_ptrdiff_t idx) 1 = Some (idx + 1).
Proof.
  intros Hi. pose proof field_n_fits as Hn.
  rewrite to_ptrdiff_t_id by (apply small_is_ptrdiff_t; lia).
  unfold ptrdiff_add.
  rewrite fits_ptrdiff_t_true by (apply small_is_ptrdiff_t; lia).
  reflexivity.
Qed.

(** [interpolate] runs to its last line and returns the blend of the two
    cells the weights refer to. *)
Lemma interpolate_defined (x : Q) :
  exists idx idx_next w_left w_right a b,
    grid.cell_index g x = Some idx /\
    0 <= idx < grid.n_cells g /\
    grid.interpolation_weights g x = Some (w_left, w_right) /\
    w_right = ((grid.wrap_position g x - grid.cell_left g idx) * grid.inv_dx_ g)%Q /\
    w_left = (1 - w_right)%Q /\
    grid.wrap_index g (idx + 1) = Some idx_next /\
    grid.at_ f idx = Some a /\
    grid.at_ f idx_next = Some b /\
    grid.interpolate f x = Some (w_left * a + w_right * b)%Q.
Proof.
  destruct (cell_index_floor g field_grid_valid field_index_fits x) as [Hc Hr].
  set (idx := Qfloor _) in *.
  pose proof (interpolation_weights_eq x idx Hc) as Hw.
  pose proof field_n_fits as Hn.
  assert (Hnext : is_ptrdiff_t (idx + 1)).
  { apply small_is_ptrdiff_t. unfold grid.n_cells in *. lia. }
  pose proof (wrap_index_mod g field_grid_valid Hn (idx + 1) Hnext) as Hwi.
  assert (Hb : 0 <= (idx + 1) mod grid.n_cells g < grid.n_cells g).
  { apply Z.mod_pos_bound. unfold grid.n_cells. lia. }
  destruct (at_in_range idx Hr) as [a Ha].
  destruct (at_in_range _ Hb) as [b Hbv].
  exists idx, ((idx + 1) mod grid.n_cells g).
  eexists _, _, a, b.
  repeat split; try eassumption; try reflexivity; try apply Hr.
  unfold grid.interpolate.
  rewrite Hc, Hw, (next_index idx Hr), Hwi, Ha, Hbv. reflexivity.
Qed.

(** On the left edge of cell [i] the cell found is [i] and the right weight
    vanishes. *)
Lemma left_edge (x : Q) (i : Z) :
  0 <= i < grid.n_cells g ->
  (x == grid.cell_left g i)%Q ->
  grid.cell_index g x = Some i /\
  ((grid.wrap_position g x - grid.cell_left g i) * grid.inv_dx_ g == 0)%Q.
Proof.
  intros Hi Hx.
  pose proof (valid_facts g field_grid_valid) as F.
  pose proof (wf.gf_dx_pos g F) as Hd. pose proof (wf.gf_dx_n g F) as Hn.
  pose proof (wf.gf_length g F) as HL. pose proof (wf.gf_inv_dx g F) as Hid.
  unfold grid.n_cells in Hi.
  assert (Hi0 : (0 <= inject_Z i)%Q).
  { change 0%Q with (inject_Z 0). rewrite <- Zle_Qle. lia. }
  assert (Hi1 : (inject_Z i < inject_Z (grid.n_cells_ g))%Q).
  { rewrite <- Zlt_Qlt. lia. }
  unfold grid.cell_left, to_double in *.
  assert (Hin : (grid.wrap_position g x == x)%Q).
  { apply wrap_position_inside; [exact field_grid_valid | nra | nra]. }
  assert (Hcoord : ((grid.wrap_position g x - grid.x_min_ g) * grid.inv_dx_ g
                    == inject_Z i)%Q).
  { rewrite Hin, Hx.
    transitivity (inject_Z i * (grid.inv_dx_ g * grid.dx_ g))%Q; [ring|].
    rewrite Hid. ring. }
  destruct (cell_index_floor g field_grid_valid field_index_fits x) as [Hc _].
  rewrite (Qfloor_comp _ _ Hcoord), Qfloor_Z in Hc.
  split; [exact Hc|].
  rewrite Hin, Hx. ring.
Qed.

(** In exact arithmetic, on a Field over its Grid, [interpolate(x)] returns
    [w_left * values[cell_index(x)] + w_right * values[wrap_index(cell_index(x) + 1)]]
    where [(w_left, w_right) = interpolation_weights(x)] sum to one.  When
    [x] is the left edge of cell [i] the weights are [(1, 0)] and the value
    returned is the one stored in cell [i]; on a Field whose cells all hold
    [c] the value returned is [c], for every position [x], inside the domain
    or beyond it.  (In binary64 neither is exact.) *)
Lemma interpolate_spec_exact (x : Q) :
  exists idx idx_next w_left w_right a b,
    grid.cell_index g x = Some idx /\
    grid.interpolation_weights g x = Some (w_left, w_right) /\
    grid.wrap_index g (idx + 1) = Some idx_next /\
    grid.at_ f idx = Some a /\
    grid.at_ f idx_next = Some b /\
    grid.interpolate f x = Some (w_left * a + w_right * b)%Q /\
    (w_left + w_right == 1)%Q /\
    (forall i, 0 <= i < grid.n_cells g -> (x == grid.cell_left g i)%Q ->
       idx = i /\ (w_left == 1)%Q /\ (w_right == 0)%Q /\
       (w_left * a + w_right * b == a)%Q) /\
    (forall c, (forall j v, grid.at_ f j = Some v -> (v == c)%Q) ->
       (w_left * a + w_right * b == c)%Q).
Proof.
  destruct (interpolate_defined x)
    as (idx & idx_next & wl & wr & a & b & Hc & Hr & Hw & Hwr & Hwl & Hwi & Ha & Hb & Hi).
  exists idx, idx_next, wl, wr, a, b.
  repeat (split; [assumption|]).
  split; [|split].
  - rewrite Hwl. ring.
  - intros i Hirange Hx.
    destruct (left_edge x i Hirange Hx) as [Hci Hz].
    assert (idx = i) by congruence. subst i.
    rewrite <- Hwr in Hz.
    assert (Hl : (wl == 1)%Q) by (rewrite Hwl, Hz; ring).
    repeat split; try assumption.
    rewrite Hl, Hz. ring.
  - intros c Hconst.
    rewrite (Hconst _ _ Ha), (Hconst _ _ Hb), Hwl. ring.
Qed.

End Interpolation.

Lemma field_const_5_ok : wf.Field_ok wf.field_const_5.
Proof.
  split; [exact valid_grid_0_4|]. split; [reflexivity|].
  vm_compute. discriminate.
Qed.

(** [Field::Field] builds a Field over its Grid. *)
Lemma Field_ctor_ok (mem : bool) (g : grid.Grid) (v0 : Q) (f : grid.Field) :
  wf.valid g -> grid.Field_ctor mem g v0 = inr f -> wf.Field_ok f /\ grid.grid_ f = g.
Proof.
  intros Hv. unfold grid.Field_ctor.
  destruct (cxx.vector_max_size <? grid.n_cells g) eqn:E; [discriminate|].
  destruct (_ && _); [discriminate|].
  intros H. inversion H; subst f; clear H. apply Z.ltb_ge in E.
  pose proof (wf.gf_n_pos g (valid_facts g Hv)) as Hn. unfold grid.n_cells in *.
  unfold wf.Field_ok, grid.size. simpl. rewrite length_replicate.
  repeat split; try assumption; unfold grid.n_cells; lia.
Qed.

(** ** Deposition *)

Section Sums.
Local Open Scope Q_scope.

Lemma insert_as_alter {A : Type} (h : A -> A) (l : list A) (j : nat) (old : A) :
  l !! j = Some old -> <[j := h old]> l = alter h j l.
Proof.
  revert j. induction l as [|a l IH]; intros [|j] Hl; simpl in *; try discriminate.
  - now inversion Hl.
  - f_equal. now apply IH.
Qed.

Lemma integral_insert (g : grid.Grid) (l : list Q) (j : nat) (old v : Q) :
  l !! j = Some old ->
  wf.integral g (<[j := v]> l) == wf.integral g l + (v - old) * grid.dx g.
Proof.
  unfold wf.integral, wf.Qsum.
  revert j. induction l as [|a l IH]; intros [|j] Hl; simpl in *; try discriminate.
  - inversion Hl; subst. ring.
  - rewrite (IH j Hl). ring.
Qed.

Lemma integral_zero (g : grid.Grid) (n : nat) :
  wf.integral g (replicate n 0) == 0.
Proof.
  unfold wf.integral, wf.Qsum. induction n as [|n IH]; simpl.
  - reflexivity.
  - rewrite IH. ring.
Qed.

Lemma Qsum_drop (l : list Q) (s : nat) (a : Q) :
  l !! s = Some a -> wf.Qsum (drop s l) = a + wf.Qsum (drop (S s) l).
Proof. intros Hl. now rewrite (drop_S l a s Hl). Qed.

End Sums.

Section Deposition.
Import cxx.
Local Open Scope Q_scope.
Variable p : particles.Particles.
Variable g : grid.Grid.
Hypothesis g_valid : wf.valid g.
Hypothesis p_sync : wf.synchronized p.

Local Abbreviation xs := (particles.elems (particles.x_ p)).
Local Abbreviation fs := (particles.elems (particles.f_ p)).
Local Abbreviation inv_dx := (1 / grid.dx g).

Lemma lengths_x_f : List.length fs = List.length xs.
Proof. destruct p_sync as [H1 H2]. unfold particles.vsize in *. lia. Qed.

Lemma x_at_lookup (k : nat) (x : Q) :
  xs !! k = Some x -> particles.x_at p (Z.of_nat k) = Some x.
Proof.
  intros Hx. pose proof (lookup_lt_Some _ _ _ Hx) as Hlt.
  unfold particles.x_at, particles.size, particles.vsize.
  replace (0 <=? Z.of_nat k)%Z with true by (symmetry; apply Z.leb_le; lia).
  replace (Z.of_nat k <? Z.of_nat (List.length xs))%Z with true
    by (symmetry; apply Z.ltb_lt; lia).
  simpl. now rewrite Nat2Z.id.
Qed.

Lemma f_at_lookup (k : nat) (w : Q) :
  fs !! k = Some w -> particles.f_at p (Z.of_nat k) = Some w.
Proof.
  intros Hf. pose proof (lookup_lt_Some _ _ _ Hf) as Hlt.
  rewrite lengths_x_f in Hlt.
  unfold particles.f_at, particles.size, particles.vsize.
  replace (0 <=? Z.of_nat k)%Z with true by (symmetry; apply Z.leb_le; lia).
  replace (Z.of_nat k <? Z.of_nat (List.length xs))%Z with true
    by (symmetry; apply Z.ltb_lt; lia).
  simpl. now rewrite Nat2Z.id.
Qed.

(** One iteration: the weight density [f * inv_dx] is added to the cell that
    [cell_index] finds for [x], and to no other. *)
Lemma deposit_one_step (d : grid.Field) (k : nat) (x w : Q) :
  grid.size d = grid.n_cells g ->
  (grid.size d <= vector_max_size)%Z ->
  xs !! k = Some x -> fs !! k = Some w ->
  exists i old,
    grid.cell_index g x = Some i /\
    grid.data_ d !! Z.to_nat i = Some old /\
    app.deposit_one p g inv_dx d k
      = Some (grid.mkField (grid.grid_ d)
                (<[Z.to_nat i := old + w * inv_dx]> (grid.data_ d))).
Proof.
  intros Hsize Hmax Hx Hf.
  assert (Hfits : (grid.n_cells g - 1 <= PTRDIFF_MAX)%Z).
  { assert (vector_max_size <= PTRDIFF_MAX)%Z by (vm_compute; discriminate). lia. }
  destruct (cell_index_floor g g_valid Hfits x) as [Hc Hr].
  set (i := Qfloor _) in *.
  assert (Hin : (0 <=? i)%Z && (i <? grid.size d)%Z = true).
  { unfold grid.n_cells in Hsize. rewrite Hsize.
    apply andb_true_intro; split; [apply Z.leb_le | apply Z.ltb_lt]; lia. }
  destruct (lookup_lt_is_Some_2 (grid.data_ d) (Z.to_nat i)) as [old Hold].
  { unfold grid.size, grid.n_cells in Hsize. lia. }
  exists i, old. split; [exact Hc|]. split; [exact Hold|].
  unfold app.deposit_one.
  rewrite (x_at_lookup k x Hx), (f_at_lookup k w Hf), Hc.
  unfold grid.at_, grid.set_at. rewrite Hin, Hold. reflexivity.
Qed.

(** The loop from sample [s] on: it runs to its end, keeps the size of the
    field, adds the remaining weights to the integral and computes what the
    specification's accumulation computes. *)
Lemma deposit_loop_spec (m s : nat) (d : grid.Field) :
  (s + m)%nat = List.length xs ->
  grid.size d = grid.n_cells g ->
  (grid.size d <= vector_max_size)%Z ->
  exists d',
    app.deposit_loop p g inv_dx (seq s m) d = Some d' /\
    grid.size d' = grid.size d /\
    grid.grid_ d' = grid.grid_ d /\
    wf.integral g (grid.data_ d')
      == wf.integral g (grid.data_ d) + wf.Qsum (drop s fs) * (inv_dx * grid.dx g) /\
    (forall l, Forall2 Qeq (grid.data_ d) l ->
       exists l', wf.accumulate_spec g (drop s xs) (drop s fs) l = Some l' /\
                  Forall2 Qeq (grid.data_ d') l').
Proof.
  revert s d. induction m as [|m IH]; intros s d Hlen Hsize Hmax.
  - exists d. simpl. repeat split.
    + rewrite drop_ge by (rewrite lengths_x_f; lia). simpl. ring.
    + intros l Hl. exists l. split; [|exact Hl].
      rewrite (drop_ge xs) by lia. reflexivity.
  - destruct (lookup_lt_is_Some_2 xs s) as [x Hx]; [lia|].
    destruct (lookup_lt_is_Some_2 fs s) as [w Hw]; [rewrite lengths_x_f; lia|].
    destruct (deposit_one_step d s x w Hsize Hmax Hx Hw) as (i & old & Hc & Hold & Hstep).
    set (d1 := grid.mkField _ _) in Hstep.
    assert (Hsize1 : grid.size d1 = grid.size d).
    { unfold grid.size, d1. simpl. now rewrite length_insert. }
    destruct (IH (S s) d1) as (d' & Hloop & Hs' & Hg' & Hint & Hacc).
    { lia. } { now rewrite Hsize1. } { now rewrite Hsize1. }
    exists d'. split; [|split; [|split; [|split]]].
    + simpl. rewrite Hstep. exact Hloop.
    + now rewrite Hs'.
    + rewrite Hg'. reflexivity.
    + rewrite Hint. unfold d1. simpl grid.data_.
      rewrite (integral_insert g _ _ old _ Hold).
      rewrite (Qsum_drop fs s w Hw). ring.
    + intros l Hl.
      destruct (Hacc (alter (fun o => o + w / grid.dx g) (Z.to_nat i) l)) as (l' & Hl' & HF).
      { unfold d1. simpl grid.data_.
        rewrite (insert_as_alter (fun o => o + w * inv_dx) _ _ old Hold).
        apply Forall2_alter; [exact Hl|].
        intros a b _ _ Hab. rewrite Hab. unfold Qdiv. ring. }
      exists l'. split; [|exact HF].
      rewrite (drop_S xs x s Hx), (drop_S fs w s Hw). simpl. rewrite Hc. exact Hl'.
Qed.

End Deposition.

(** C1. [compute_density] zeroes the field and then, sample by sample, adds
    [f[i] / dx] to the cell [cell_index(x[i])]: it runs to its end on every
    valid Grid, every particle set and every Field with one value per cell,
    its result is the one of the specification's accumulation, and the sum
    over all cells of [field[i] * dx] equals the total weight [sum(f[i])],
    wherever the positions lie. *)
Theorem deposit_conserves (p : particles.Particles) (g : grid.Grid)
    (density : grid.Field) :
  wf.valid g ->
  wf.synchronized p ->
  grid.size density = grid.n_cells g ->
  grid.size density <= cxx.vector_max_size ->
  exists d',
    app.compute_density p g density = Some d' /\
    grid.size d' = grid.size density /\
    (exists l,
       wf.deposit_density_spec g (particles.elems (particles.x_ p))
         (particles.elems (particles.f_ p)) (grid.data_ density) = Some l /\
       Forall2 Qeq (grid.data_ d') l) /\
    (wf.integral g (grid.data_ d') == wf.Qsum (particles.elems (particles.f_ p)))%Q.
Proof.
  intros Hv Hp Hsize Hmax.
  set (z := grid.zero density).
  assert (Hz : grid.size z = grid.size density).
  { unfold z, grid.zero, grid.fill, grid.size. simpl. now rewrite length_replicate. }
  destruct (deposit_loop_spec p g Hv Hp
              (List.length (particles.elems (particles.x_ p))) 0 z)
    as (d' & Hloop & Hs & _ & Hint & Hacc).
  { reflexivity. } { now rewrite Hz. } { now rewrite Hz. }
  exists d'. split; [|split; [|split]].
  - unfold app.compute_density, particles.size, particles.vsize.
    rewrite Nat2Z.id. exact Hloop.
  - now rewrite Hs.
  - destruct (Hacc (grid.data_ z)) as (l & Hl & HF).
    { apply Forall2_same_length_lookup_2; [reflexivity|].
      intros i a b Ha Hb. rewrite Ha in Hb. inversion Hb. reflexivity. }
    exists l. split; [exact Hl | exact HF].
  - rewrite Hint. unfold z, grid.zero, grid.fill. simpl grid.data_.
    rewrite integral_zero. rewrite drop_0.
    pose proof (wf.gf_dx_pos g (valid_facts g Hv)) as Hd. unfold grid.dx.
    assert (E : (1 / grid.dx_ g * grid.dx_ g == 1)%Q) by (field; lra).
    rewrite E. ring.
Qed.

Lemma three_samples_synchronized : wf.synchronized wf.three_samples.
Proof. split; reflexivity. Qed.

Lemma deposit_conserves_witness :
  exists d',
    app.compute_density wf.three_samples wf.grid_0_4 wf.field_const_5 = Some d' /\
    (wf.integral wf.grid_0_4 (grid.data_ d') == (1 # 3) + (2 # 3) + 5)%Q.
Proof.
  destruct (deposit_conserves wf.three_samples wf.grid_0_4 wf.field_const_5
              valid_grid_0_4 three_samples_synchronized)
    as (d' & Hc & _ & _ & Hint).
  - reflexivity.
  - vm_compute. discriminate.
  - exists d'. split; [exact Hc|]. rewrite Hint. vm_compute. reflexivity.
Defined.

(** ** The particle container *)

Section Vectors.
Import cxx particles.

Lemma vector_ctor_inr (mem : bool) (n : Z) (val : Q) (v : vector) :
  0 <= n -> vector_ctor mem n val = inr v ->
  elems v = replicate (Z.to_nat n) val /\ vsize v = n /\ cap v = n.
Proof.
  intros Hn. unfold vector_ctor.
  destruct (vector_max_size <? n); [discriminate|].
  destruct (_ && _); [discriminate|].
  intros H. inversion H; subst v; clear H. unfold vsize. simpl.
  rewrite length_replicate. repeat split; lia.
Qed.

Lemma vector_reserve_inr (mem : bool) (n : Z) (v v' : vector) :
  vector_reserve mem n v = inr v' -> elems v' = elems v /\ n <= cap v'.
Proof.
  unfold vector_reserve.
  destruct (vector_max_size <? n); [discriminate|].
  destruct (n <=? cap v) eqn:E.
  - intros H. inversion H; subst v'. apply Z.leb_le in E. now split.
  - destruct mem; [|discriminate].
    intros H. inversion H; subst v'. simpl. split; [reflexivity | lia].
Qed.

Lemma vector_resize_inr (mem : bool) (n : Z) (val : Q) (v v' : vector) :
  0 <= n -> vector_resize mem n val v = inr v' -> vsize v' = n.
Proof.
  intros Hn. unfold vector_resize.
  assert (Hgrow : n > vsize v ->
    Z.of_nat (List.length (elems v ++ replicate (Z.to_nat (n - vsize v)) val)) = n).
  { intros Hgt. rewrite length_app, length_replicate. unfold vsize in *. lia. }
  destruct (n <=? vsize v) eqn:E.
  - apply Z.leb_le in E. intros H. inversion H; subst v'. unfold vsize in *. simpl.
    rewrite length_take. lia.
  - apply Z.leb_gt in E.
    destruct (n <=? cap v).
    + intros H. inversion H; subst v'. unfold vsize at 1. simpl. apply Hgrow. lia.
    + destruct (vector_max_size <? n); [discriminate|].
      destruct mem; [|discriminate].
      intros H. inversion H; subst v'. unfold vsize at 1. simpl. apply Hgrow. lia.
Qed.

Lemma vector_push_back_inr (mem : bool) (val : Q) (v v' : vector) :
  vector_push_back mem val v = inr v' ->
  elems v' = elems v ++ [val] /\ vsize v' = vsize v + 1.
Proof.
  unfold vector_push_back.
  assert (Hlen : Z.of_nat (List.length (elems v ++ [val])) = vsize v + 1).
  { rewrite length_app. unfold vsize. simpl. lia. }
  destruct (vsize v <? cap v).
  - intros H. inversion H; subst v'. unfold vsize at 1. simpl. now split.
  - destruct (vector_max_size <=? vsize v); [discriminate|].
    destruct mem; [|discriminate].
    intros H. inversion H; subst v'. unfold vsize at 1. simpl. now split.
Qed.

(** With memory at hand [push_back] fails only on a vector that is full at
    [max_size()]. *)
Lemma vector_push_back_returns (val : Q) (v : vector) :
  vsize v < vector_max_size -> exists v', vector_push_back true val v = inr v'.
Proof.
  intros Hlt. unfold vector_push_back.
  destruct (vsize v <? cap v); [eauto|].
  replace (vector_max_size <=? vsize v) with false by (symmetry; apply Z.leb_gt; lia).
  eauto.
Qed.

Lemma vector_pop_back_some (v : vector) :
  0 < vsize v ->
  vector_pop_back v
  = Some (mkvector (take (Nat.pred (List.length (elems v))) (elems v)) (cap v)).
Proof.
  unfold vector_pop_back. intros Hpos.
  replace (vsize v =? 0) with false by (symmetry; apply Z.eqb_neq; lia).
  reflexivity.
Qed.

Lemma vector_pop_back_size (v v' : vector) :
  0 < vsize v -> vector_pop_back v = Some v' -> vsize v' = vsize v - 1.
Proof.
  intros Hpos. rewrite (vector_pop_back_some v Hpos). intros [= <-].
  unfold vsize in *. simpl. rewrite length_take. lia.
Qed.

End Vectors.

Section Methods.
Import cxx particles.
Local Open Scope method_scope.

(** How a member function made of [x_.op; v_.op; f_.op] can end: all three
    statements ran, or the first failing statement left the earlier vectors
    updated and the later ones untouched. *)
Lemma three_statements (opx opv opf : vector -> exception + vector)
    (p p' : Particles) (o : outcome unit) :
  (on_x opx ;; on_v opv ;; on_f opf) p = (o, p') ->
  match o with
  | Returned _ =>
      exists x' v' f',
        opx (x_ p) = inr x' /\ opv (v_ p) = inr v' /\ opf (f_ p) = inr f' /\
        p' = mkParticles x' v' f'
  | Thrown e =>
      (opx (x_ p) = inl e /\ p' = p) \/
      (exists x', opx (x_ p) = inr x' /\ opv (v_ p) = inl e /\
                  p' = mkParticles x' (v_ p) (f_ p)) \/
      (exists x' v', opx (x_ p) = inr x' /\ opv (v_ p) = inr v' /\
                     opf (f_ p) = inl e /\ p' = mkParticles x' v' (f_ p))
  | Undefined => False
  end.
Proof.
  unfold bind, on_x, on_v, on_f.
  destruct (opx (x_ p)) as [e1 | x'] eqn:Ex; simpl.
  - intros H. inversion H; subst. left. now split.
  - destruct (opv (v_ p)) as [e2 | v'] eqn:Ev; simpl.
    + intros H. inversion H; subst. right. left. exists x'. now repeat split.
    + destruct (opf (f_ p)) as [e3 | f'] eqn:Ef; simpl.
      * intros H. inversion H; subst. right. right. exists x', v'. now repeat split.
      * intros H. inversion H; subst. exists x', v', f'. now repeat split.
Qed.

(** The three statements all run when each vector operation succeeds. *)
Lemma three_statements_return (opx opv opf : vector -> exception + vector)
    (p : Particles) (x' v' f' : vector) :
  opx (x_ p) = inr x' -> opv (v_ p) = inr v' -> opf (f_ p) = inr f' ->
  (on_x opx ;; on_v opv ;; on_f opf) p = (Returned tt, mkParticles x' v' f').
Proof.
  intros Hx Hv Hf. unfold bind, on_x, on_v, on_f.
  rewrite Hx. simpl. rewrite Hv. simpl. rewrite Hf. reflexivity.
Qed.

(** C7, as the code has it.  [push_back(x, v, f)] appends to [x_], to [v_]
    and to [f_], in this order.  When it returns, each of the three
    sequences is the former one with the new value at its tail and the size
    has grown by one; with memory at hand and room below [max_size()] it
    does return.  When an allocation fails there is no rollback: the
    sequences appended before the failing one keep the new element and the
    later ones are untouched, so that the set is unchanged only when the
    failure is in [x_]. *)
Theorem push_back_outcome (a : allocator) (x_val v_val f_val : Q)
    (p p' : Particles) (o : outcome unit) :
  push_back a x_val v_val f_val p = (o, p') ->
  match o with
  | Returned _ =>
      elems (x_ p') = elems (x_ p) ++ [x_val] /\
      elems (v_ p') = elems (v_ p) ++ [v_val] /\
      elems (f_ p') = elems (f_ p) ++ [f_val] /\
      size p' = size p + 1
  | Thrown e =>
      (vector_push_back (mem_x a) x_val (x_ p) = inl e /\ p' = p) \/
      (vector_push_back (mem_v a) v_val (v_ p) = inl e /\
       elems (x_ p') = elems (x_ p) ++ [x_val] /\
       v_ p' = v_ p /\ f_ p' = f_ p) \/
      (vector_push_back (mem_f a) f_val (f_ p) = inl e /\
       elems (x_ p') = elems (x_ p) ++ [x_val] /\
       elems (v_ p') = elems (v_ p) ++ [v_val] /\ f_ p' = f_ p)
  | Undefined => False
  end /\
  (wf.lengths_are p (size p) -> size p < vector_max_size ->
   exists q, push_back wf.plentiful x_val v_val f_val p = (Returned tt, q)).
Proof.
  intros H. split.
  - apply three_statements in H. destruct o as [[]|e|].
    + destruct H as (x' & v' & f' & Hx & Hv & Hf & ->).
      apply vector_push_back_inr in Hx, Hv, Hf. unfold size. simpl. tauto.
    + destruct H as [[He ->] | [(x' & Hx & He & ->) | (x' & v' & Hx & Hv & He & ->)]].
      * left. now split.
      * right. left. apply vector_push_back_inr in Hx. simpl. tauto.
      * right. right. apply vector_push_back_inr in Hx, Hv. simpl. tauto.
    + exact H.
  - intros (Hx & Hv & Hf) Hroom. unfold size in *.
    destruct (vector_push_back_returns x_val (x_ p)) as [x' Hx']; [lia|].
    destruct (vector_push_back_returns v_val (v_ p)) as [v' Hv']; [lia|].
    destruct (vector_push_back_returns f_val (f_ p)) as [f' Hf']; [lia|].
    exists (mkParticles x' v' f').
    now apply three_statements_return.
Qed.

End Methods.

Lemma push_back_outcome_witness :
  let p' := particles.mkParticles
              (particles.mkvector [1 # 2]%Q 1) (particles.mkvector [1%Q] 1)
              (particles.mkvector [1 # 10]%Q 1) in
  particles.elems (particles.x_ p') = [] ++ [1 # 2]%Q /\
  particles.elems (particles.v_ p') = [] ++ [1%Q] /\
  particles.elems (particles.f_ p') = [] ++ [1 # 10]%Q /\
  particles.size p' = particles.size particles.Particles_default + 1.
Proof.
  exact (proj1 (push_back_outcome wf.plentiful (1 # 2) 1 (1 # 10)
                  particles.Particles_default _ (particles.Returned tt) eq_refl)).
Defined.

(** C7 as stated fails when the allocator runs out of memory after serving
    [x_]: [push_back] on the empty set exits by [std::bad_alloc] and leaves a
    set whose [x_] holds the new position while [v_] and [f_] are empty. *)
Lemma push_back_partial_update :
  particles.push_back wf.exhausted_after_x (1 # 2) 1 (1 # 10)
    particles.Particles_default
  = (particles.Thrown cxx.bad_alloc,
     particles.mkParticles (particles.mkvector [1 # 2]%Q 1)
       particles.vector_empty particles.vector_empty) /\
  particles.mkParticles (particles.mkvector [1 # 2]%Q 1)
    particles.vector_empty particles.vector_empty
  <> particles.Particles_default.
Proof.
  split; [reflexivity | discriminate].
Qed.

Section Lengths.
Import cxx particles.
Local Open Scope method_scope.

Lemma lengths_default : wf.lengths_are Particles_default 0.
Proof. repeat split. Qed.

Lemma lengths_capacity (a : allocator) (n : Z) (p : Particles) :
  Particles_capacity a n = Returned p ->
  wf.lengths_are p 0 /\ n <= capacity p.
Proof.
  unfold Particles_capacity.
  destruct (reserve a n Particles_default) as [o p'] eqn:E.
  apply three_statements in E.
  destruct o as [[]|e|]; try discriminate.
  intros H. inversion H; subst p'; clear H.
  destruct E as (x' & v' & f' & Hx & Hv & Hf & ->).
  apply vector_reserve_inr in Hx, Hv, Hf.
  destruct Hx as [Hx Hcap], Hv as [Hv _], Hf as [Hf _].
  unfold wf.lengths_are, vsize, capacity. simpl in *.
  rewrite Hx, Hv, Hf. simpl. repeat split. exact Hcap.
Qed.

Lemma lengths_fill (a : allocator) (n : Z) (x_val v_val f_val : Q) (p : Particles) :
  0 <= n -> Particles_fill a n x_val v_val f_val = Returned p ->
  wf.lengths_are p n.
Proof.
  intros Hn. unfold Particles_fill.
  destruct (vector_ctor (mem_x a) n x_val) as [|x'] eqn:Ex; [discriminate|].
  destruct (vector_ctor (mem_v a) n v_val) as [|v'] eqn:Ev; [discriminate|].
  destruct (vector_ctor (mem_f a) n f_val) as [|f'] eqn:Ef; [discriminate|].
  intros H. inversion H; subst p; clear H.
  apply vector_ctor_inr in Ex, Ev, Ef; try assumption.
  unfold wf.lengths_are. simpl. tauto.
Qed.

(** [reserve] keeps the three lengths however it ends. *)
Lemma lengths_reserve (a : allocator) (n k : Z) (p p' : Particles) (o : outcome unit) :
  wf.lengths_are p k -> reserve a n p = (o, p') -> wf.lengths_are p' k.
Proof.
  intros (Hx & Hv & Hf) E. apply three_statements in E.
  unfold wf.lengths_are, vsize in *.
  destruct o as [[]|e|].
  - destruct E as (x' & v' & f' & Ex & Ev & Ef & ->).
    apply vector_reserve_inr in Ex, Ev, Ef. simpl.
    destruct Ex as [-> _], Ev as [-> _], Ef as [-> _]. tauto.
  - destruct E as [[_ ->] | [(x' & Ex & _ & ->) | (x' & v' & Ex & Ev & _ & ->)]].
    + tauto.
    + apply vector_reserve_inr in Ex. simpl. destruct Ex as [-> _]. tauto.
    + apply vector_reserve_inr in Ex, Ev. simpl.
      destruct Ex as [-> _], Ev as [-> _]. tauto.
  - contradiction.
Qed.

Lemma lengths_resize_with (a : allocator) (n : Z) (x_val v_val f_val : Q)
    (p p' : Particles) :
  0 <= n -> resize_with a n x_val v_val f_val p = (Returned tt, p') ->
  wf.lengths_are p' n.
Proof.
  intros Hn E. apply three_statements in E.
  destruct E as (x' & v' & f' & Ex & Ev & Ef & ->).
  apply vector_resize_inr in Ex, Ev, Ef; try assumption.
  unfold wf.lengths_are. simpl. tauto.
Qed.

Lemma lengths_resize (a : allocator) (n : Z) (p p' : Particles) :
  0 <= n -> resize a n p = (Returned tt, p') -> wf.lengths_are p' n.
Proof. apply lengths_resize_with. Qed.

Lemma lengths_clear (p : Particles) :
  exists p', clear p = (Returned tt, p') /\ wf.lengths_are p' 0.
Proof. eexists. split; [reflexivity|]. repeat split. Qed.

Lemma lengths_push_back (a : allocator) (x_val v_val f_val : Q) (k : Z)
    (p p' : Particles) :
  wf.lengths_are p k -> push_back a x_val v_val f_val p = (Returned tt, p') ->
  wf.lengths_are p' (k + 1).
Proof.
  intros (Hx & Hv & Hf) E. apply three_statements in E.
  destruct E as (x' & v' & f' & Ex & Ev & Ef & ->).
  apply vector_push_back_inr in Ex, Ev, Ef.
  unfold wf.lengths_are. simpl. lia.
Qed.

Lemma lengths_pop_back (k : Z) (p : Particles) :
  wf.lengths_are p k -> empty p = false ->
  exists p', pop_back p = (Returned tt, p') /\ wf.lengths_are p' (k - 1).
Proof.
  intros (Hx & Hv & Hf) He. unfold pop_back. rewrite He.
  unfold empty, size in He. apply Z.eqb_neq in He.
  assert (Hk : 0 < k) by (unfold vsize in *; lia).
  unfold bind, on_x_noexcept, on_v_noexcept, on_f_noexcept.
  rewrite (vector_pop_back_some (x_ p)) by lia. simpl.
  rewrite (vector_pop_back_some (v_ p)) by lia. simpl.
  rewrite (vector_pop_back_some (f_ p)) by lia.
  eexists. split; [reflexivity|].
  unfold wf.lengths_are, vsize in *. simpl.
  rewrite !length_take. lia.
Qed.

Lemma lengths_step (op : wf.operation) (p p' : Particles) :
  wf.lengths_are p (size p) -> wf.argument_ok op ->
  wf.run op p = (Returned tt, p') ->
  wf.lengths_are p' (size p').
Proof.
  intros Hl Hop E.
  assert (Hany : forall k, wf.lengths_are p' k -> wf.lengths_are p' (size p')).
  { intros k (Hx & Hv & Hf). unfold wf.lengths_are, size. rewrite Hv, Hf, Hx. tauto. }
  destruct op as [a n | a n | a n xv vv fv | | a xv vv fv | ]; simpl in *.
  - eapply Hany, lengths_reserve; eassumption.
  - eapply Hany, lengths_resize; [apply Hop | eassumption].
  - eapply Hany, lengths_resize_with; [apply Hop | eassumption].
  - destruct (lengths_clear p) as (q & Hq & Hlq). rewrite Hq in E.
    inversion E; subst. eapply Hany; eassumption.
  - eapply Hany, lengths_push_back; eassumption.
  - unfold pop_back in E. destruct (empty p) eqn:He; [discriminate|].
    destruct (lengths_pop_back _ p Hl He) as (q & Hq & Hlq).
    unfold pop_back in Hq. rewrite He in Hq. rewrite Hq in E.
    inversion E; subst. eapply Hany; eassumption.
Qed.

(** C8, as the code has it.  A particle set that a constructor returned,
    and that has since gone through [reserve], [resize] (both overloads),
    [clear], [push_back] and [pop_back] (on a non-empty set) calls that all
    returned, has [len(x) == len(v) == len(f)], and this length is
    [size()]. *)
Theorem lengths_synchronized (p : Particles) :
  wf.built p -> wf.lengths_are p (size p) /\ wf.synchronized p.
Proof.
  intros Hb.
  assert (Hs : forall q, wf.lengths_are q (size q) -> wf.synchronized q).
  { intros q (Hx & Hv & Hf). unfold wf.synchronized. lia. }
  assert (Hl : wf.lengths_are p (size p)).
  { induction Hb as [| a n p Hn Hc | a n xv vv fv p Hn Hc | op p p' Hb IH Hop Hrun].
    - exact lengths_default.
    - apply lengths_capacity in Hc. destruct Hc as [(Hx & Hv & Hf) _].
      unfold wf.lengths_are, size. rewrite Hx, Hv, Hf. tauto.
    - apply lengths_fill in Hc; [|apply Hn]. destruct Hc as (Hx & Hv & Hf).
      unfold wf.lengths_are, size. rewrite Hx, Hv, Hf. tauto.
    - exact (lengths_step op p p' IH Hop Hrun). }
  split; [exact Hl | exact (Hs p Hl)].
Qed.

End Lengths.

Lemma lengths_synchronized_witness :
  let p := particles.mkParticles
             (particles.mkvector [1 # 2]%Q 1) (particles.mkvector [1%Q] 1)
             (particles.mkvector [1 # 10]%Q 1) in
  wf.lengths_are p (particles.size p) /\ wf.synchronized p.
Proof.
  apply lengths_synchronized.
  apply (wf.built_step (wf.op_push_back wf.plentiful (1 # 2) 1 (1 # 10))
           particles.Particles_default).
  - exact wf.built_default.
  - exact I.
  - reflexivity.
Defined.

(** C8 as stated fails when the allocator runs out of memory after serving
    [x_]: [resize(2)] on the empty set exits by [std::bad_alloc] with two
    positions and no velocity. *)
Lemma resize_desynchronizes :
  wf.built particles.Particles_default /\
  cxx.is_size_t 2 /\
  particles.resize wf.exhausted_after_x 2 particles.Particles_default
  = (particles.Thrown cxx.bad_alloc,
     particles.mkParticles (particles.mkvector [0; 0]%Q 2)
       particles.vector_empty particles.vector_empty) /\
  ~ wf.synchronized
      (particles.mkParticles (particles.mkvector [0; 0]%Q 2)
         particles.vector_empty particles.vector_empty).
Proof.
  split; [exact wf.built_default|].
  split; [unfold cxx.is_size_t, cxx.SIZE_MAX; lia|].
  split; [reflexivity|].
  intros [H _]. vm_compute in H. discriminate.
Qed.

(** ** Constructors *)

Section Constructors.
Import cxx particles.

(** C10. [Particles(capacity)] creates an empty container: whenever it
    returns, [size() == 0], [empty()] holds and [capacity() >= n], whatever
    [n]; it returns for every [n] up to [max_size()] when memory is
    delivered.  [Particles(size, x_val, v_val, f_val)] creates [size]
    samples, each the given triple. *)
Theorem Particles_capacity_empty (a : allocator) (n : Z) :
  is_size_t n ->
  (forall p, Particles_capacity a n = Returned p ->
     size p = 0 /\ empty p = true /\ n <= capacity p) /\
  (n <= vector_max_size ->
   exists p, Particles_capacity wf.plentiful n = Returned p) /\
  (forall x_val v_val f_val q,
     Particles_fill a n x_val v_val f_val = Returned q ->
     size q = n /\ empty q = (n =? 0) /\
     elems (x_ q) = replicate (Z.to_nat n) x_val /\
     elems (v_ q) = replicate (Z.to_nat n) v_val /\
     elems (f_ q) = replicate (Z.to_nat n) f_val).
Proof.
  intros [Hn0 Hn1]. split; [|split].
  - intros p Hc. apply lengths_capacity in Hc. destruct Hc as [(Hx & _ & _) Hcap].
    unfold empty, size. rewrite Hx. repeat split. exact Hcap.
  - intros Hmax. unfold Particles_capacity, reserve, wf.plentiful.
    cbn [mem_x mem_v mem_f].
    assert (Hr : exists v, vector_reserve true n vector_empty = inr v).
    { unfold vector_reserve.
      replace (vector_max_size <? n) with false by (symmetry; apply Z.ltb_ge; lia).
      destruct (n <=? cap vector_empty); eauto. }
    destruct Hr as [v Hr].
    rewrite (three_statements_return _ _ _ Particles_default v v v Hr Hr Hr).
    eauto.
  - intros xv vv fv q Hc. unfold Particles_fill in Hc.
    destruct (vector_ctor (mem_x a) n xv) as [|x'] eqn:Ex; [discriminate|].
    destruct (vector_ctor (mem_v a) n vv) as [|v'] eqn:Ev; [discriminate|].
    destruct (vector_ctor (mem_f a) n fv) as [|f'] eqn:Ef; [discriminate|].
    inversion Hc; subst q; clear Hc.
    apply vector_ctor_inr in Ex, Ev, Ef; try assumption.
    unfold empty, size. simpl.
    destruct Ex as (Ex & -> & _), Ev as (Ev & _ & _), Ef as (Ef & _ & _).
    tauto.
Qed.

End Constructors.

Lemma Particles_capacity_empty_witness :
  exists p, particles.Particles_capacity wf.plentiful 1000 = particles.Returned p /\
            particles.size p = 0 /\ particles.empty p = true /\
            1000 <= particles.capacity p.
Proof.
  assert (H : cxx.is_size_t 1000) by (unfold cxx.is_size_t, cxx.SIZE_MAX; lia).
  destruct (Particles_capacity_empty wf.plentiful 1000 H) as (Hempty & Hret & _).
  destruct Hret as [p Hp]; [vm_compute; discriminate|].
  exists p. split; [exact Hp | exact (Hempty p Hp)].
Defined.

(** ** Free streaming *)

Section Advance.
Import cxx particles.
Variable v : list Q.
Variable dt : Q.

(** Iterations over distinct slots: every scheduled slot receives
    [x[i] + v[i] * dt], computed from the value the slot had before the loop,
    and no other slot changes. *)
Lemma advance_loop_slots (order : list nat) (x : list Q) :
  NoDup order ->
  (forall i, i ∈ order -> (i < List.length x)%nat) ->
  (List.length x <= List.length v)%nat ->
  exists x',
    advance_loop order v dt x = Some x' /\
    List.length x' = List.length x /\
    forall i xi vi, x !! i = Some xi -> v !! i = Some vi ->
      x' !! i = Some (if decide (i ∈ order) then (xi + vi * dt)%Q else xi).
Proof.
  revert x. induction order as [|i0 rest IH]; intros x Hnd Hin Hlen.
  - exists x. simpl. repeat split. intros i xi vi Hx _.
    destruct (decide (i ∈ [])) as [Hi|_]; [inversion Hi | exact Hx].
  - apply NoDup_cons in Hnd. destruct Hnd as [Hnotin Hnd].
    assert (Hi0 : (i0 < List.length x)%nat) by (apply Hin; left).
    destruct (lookup_lt_is_Some_2 x i0 Hi0) as [xi0 Hx0].
    destruct (lookup_lt_is_Some_2 v i0 ltac:(lia)) as [vi0 Hv0].
    set (x1 := <[i0 := (xi0 + vi0 * dt)%Q]> x).
    destruct (IH x1 Hnd) as (x' & Hloop & Hlen' & Hslots).
    { intros i Hi. unfold x1. rewrite length_insert. apply Hin. now right. }
    { unfold x1. rewrite length_insert. exact Hlen. }
    exists x'. split; [|split].
    + simpl. unfold advance_slot. rewrite Hx0, Hv0. exact Hloop.
    + rewrite Hlen'. unfold x1. apply length_insert.
    + intros i xi vi Hx Hv.
      destruct (decide (i = i0)) as [->|Hne].
      * assert (xi = xi0) by congruence. assert (vi = vi0) by congruence. subst.
        rewrite (Hslots i0 (xi0 + vi0 * dt)%Q vi0).
        -- destruct (decide (i0 ∈ rest)); [contradiction|].
           destruct (decide (i0 ∈ i0 :: rest)) as [_|Hn]; [reflexivity|].
           exfalso. apply Hn. left.
        -- unfold x1. now apply list_lookup_insert_eq.
        -- exact Hv0.
      * rewrite (Hslots i xi vi).
        -- destruct (decide (i ∈ rest)) as [Hi|Hi];
             destruct (decide (i ∈ i0 :: rest)) as [Hi'|Hi']; try reflexivity.
           ++ exfalso. apply Hi'. now right.
           ++ exfalso. apply elem_of_cons in Hi'. destruct Hi'; contradiction.
        -- unfold x1. rewrite list_lookup_insert_ne by congruence. exact Hx.
        -- exact Hv.
Qed.

(** Two schedules of the same iterations give the same positions. *)
Lemma advance_loop_schedule (order order' : list nat) (x : list Q) :
  Permutation order order' ->
  NoDup order ->
  (forall i, i ∈ order -> (i < List.length x)%nat) ->
  (List.length x <= List.length v)%nat ->
  advance_loop order v dt x = advance_loop order' v dt x.
Proof.
  intros Hperm Hnd Hin Hlen.
  assert (Hnd' : NoDup order') by now rewrite <- Hperm.
  assert (Hin' : forall i, i ∈ order' -> (i < List.length x)%nat).
  { intros i Hi. apply Hin. now rewrite Hperm. }
  destruct (advance_loop_slots order x Hnd Hin Hlen) as (x1 & -> & Hl1 & H1).
  destruct (advance_loop_slots order' x Hnd' Hin' Hlen) as (x2 & -> & Hl2 & H2).
  f_equal. apply list_eq. intros i.
  destruct (x !! i) as [xi|] eqn:Hx.
  - destruct (lookup_lt_is_Some_2 v i) as [vi Hv].
    { apply lookup_lt_Some in Hx. lia. }
    rewrite (H1 i xi vi Hx Hv), (H2 i xi vi Hx Hv).
    destruct (decide (i ∈ order)) as [Hi|Hi];
      destruct (decide (i ∈ order')) as [Hi'|Hi']; try reflexivity.
    + exfalso. apply Hi'. now rewrite <- Hperm.
    + exfalso. apply Hi. now rewrite Hperm.
  - apply lookup_ge_None in Hx.
    rewrite (lookup_ge_None_2 x1), (lookup_ge_None_2 x2) by lia. reflexivity.
Qed.

End Advance.

(** C9. On a particle set with synchronized sequences,
    [advance_positions(particles, dt)] runs to its end and replaces every
    position [x[i]], [0 <= i < size], by [x[i] + v[i] * dt]; the velocities,
    the weights, the size and the capacity are as before; and the loop gives
    this same result in whatever order its iterations are run. *)
Theorem advance_positions_spec (p : particles.Particles) (dt : Q) :
  wf.synchronized p ->
  exists p',
    particles.advance_positions p dt = Some p' /\
    particles.size p' = particles.size p /\
    particles.capacity p' = particles.capacity p /\
    particles.v_ p' = particles.v_ p /\
    particles.f_ p' = particles.f_ p /\
    (forall i xi vi,
       particles.x_at p i = Some xi -> particles.v_at p i = Some vi ->
       particles.x_at p' i = Some (xi + vi * dt)%Q) /\
    (forall order,
       Permutation order (seq 0 (Z.to_nat (particles.size p))) ->
       particles.advance_positions_scheduled order p dt = Some p').
Proof.
  intros [Hxv _].
  set (x := particles.elems (particles.x_ p)).
  set (v := particles.elems (particles.v_ p)).
  assert (Hn : Z.to_nat (particles.size p) = List.length x).
  { unfold particles.size, particles.vsize. now rewrite Nat2Z.id. }
  assert (Hlen : (List.length x <= List.length v)%nat).
  { unfold particles.vsize in Hxv. subst x v. lia. }
  assert (Hin : forall i, i ∈ seq 0 (List.length x) -> (i < List.length x)%nat).
  { intros i Hi. apply elem_of_seq in Hi. lia. }
  destruct (advance_loop_slots v dt (seq 0 (List.length x)) x
              (NoDup_seq 0 _) Hin Hlen) as (x' & Hloop & Hl' & Hslots).
  exists (particles.mkParticles (particles.mkvector x' (particles.cap (particles.x_ p)))
            (particles.v_ p) (particles.f_ p)).
  split; [|split; [|split; [|split; [|split; [|split]]]]]; try reflexivity.
  - unfold particles.advance_positions, particles.advance_positions_scheduled.
    rewrite Hn. fold x v. now rewrite Hloop.
  - unfold particles.size, particles.vsize. simpl. fold x. now rewrite Hl'.
  - intros i xi vi. unfold particles.x_at, particles.v_at.
    replace (particles.size (particles.mkParticles _ _ _)) with (particles.size p)
      by (unfold particles.size, particles.vsize; simpl; fold x; now rewrite Hl').
    destruct ((0 <=? i) && (i <? particles.size p)) eqn:Hi; [|discriminate].
    simpl. fold x v. intros Hx Hv.
    rewrite (Hslots _ xi vi Hx Hv).
    destruct (decide (Z.to_nat i ∈ seq 0 (List.length x))) as [_|Hno]; [reflexivity|].
    exfalso. apply Hno. apply elem_of_seq. apply lookup_lt_Some in Hx. lia.
  - intros order Hperm. rewrite Hn in Hperm.
    unfold particles.advance_positions_scheduled. fold x v.
    rewrite <- (advance_loop_schedule v dt (seq 0 (List.length x)) order x);
      [now rewrite Hloop | now symmetry | apply NoDup_seq | exact Hin | exact Hlen].
Qed.

Lemma advance_positions_spec_witness :
  exists p',
    particles.advance_positions wf.three_samples (1 # 10) = Some p' /\
    particles.x_at p' 1 = Some ((3 # 4) + -1 * (1 # 10))%Q /\
    particles.advance_positions_scheduled [2; 0; 1]%nat wf.three_samples (1 # 10)
      = Some p'.
Proof.
  destruct (advance_positions_spec wf.three_samples (1 # 10)
              three_samples_synchronized)
    as (p' & Hadv & _ & _ & _ & _ & Hslot & Hsched).
  exists p'. split; [exact Hadv|]. split.
  - apply Hslot; reflexivity.
  - apply Hsched. vm_compute.
    apply perm_trans with (l' := [0; 2; 1]%nat); [apply perm_swap|].
    apply perm_skip. apply perm_swap.
Defined.

(** * Grid and Field in binary64 *)

(** ** Comparison of doubles *)

Section Unordered.
Import cxx PrimFloat SpecFloat FloatOps.

Lemma Prim2SF_nan (a : float) : Prim2SF a = S754_nan -> is_nan a = true.
Proof.
  unfold Prim2SF. destruct (is_nan a); [reflexivity|].
  destruct (is_zero a); [discriminate|].
  destruct (is_infinity a); [discriminate|].
  destruct (Z.frexp a) as [r e].
  destruct (shr_fexp _ _ _ _ _) as [sh e'].
  destruct (shr_m sh); discriminate.
Qed.

(** Two doubles compare as unordered only when one of them is a NaN. *)
Lemma compare_unordered (a b : float) :
  compare a b = FNotComparable -> is_nan a = true \/ is_nan b = true.
Proof.
  rewrite FloatAxioms.compare_spec. unfold SFcompare.
  destruct (Prim2SF a) as [sa | sa | | sa ma ea] eqn:Ea;
    try (intros _; left; now apply Prim2SF_nan);
    destruct (Prim2SF b) as [sb | sb | | sb mb eb] eqn:Eb;
    try (intros _; right; now apply Prim2SF_nan);
    try (destruct sa; discriminate); try (destruct sb; discriminate);
    try (destruct sa, sb; discriminate).
  destruct sa, sb; try discriminate.
  - destruct (ea ?= eb); try discriminate. destruct (CompOpp _); discriminate.
  - destruct (ea ?= eb); try discriminate. destruct (Pos.compare_cont _ _ _); discriminate.
Qed.

End Unordered.

(** ** The integer steps of [cell_index] and [wrap_index] *)

Section IntegerSteps.
Import cxx PrimFloat ieee.

Lemma double_to_ptrdiff_t_fits (x : double) (t : Z) :
  double_to_ptrdiff_t x = Some t -> is_ptrdiff_t t.
Proof.
  unfold double_to_ptrdiff_t.
  destruct (FloatOps.Prim2SF x) as [s | s | | s m e]; try discriminate.
  - intros [= <-]. unfold is_ptrdiff_t, PTRDIFF_MIN, PTRDIFF_MAX. lia.
  - cbv zeta. match goal with |- context [fits_ptrdiff_t ?v] => set (t0 := v) end.
    destruct (fits_ptrdiff_t t0) eqn:E; [|discriminate].
    intros [= <-]. unfold fits_ptrdiff_t in E.
    apply andb_true_iff in E. destruct E as [E1 E2].
    apply Z.leb_le in E1, E2. split; assumption.
Qed.

Lemma Grid_ctor64_inr (n : Z) (xmin xmax : double) (bc : grid.BoundaryCondition)
  (g : grid64.Grid) :
  grid64.Grid_ctor n xmin xmax bc = inr g ->
  n <> 0 /\ ge xmin xmax = false /\
  g = grid64.mkGrid n xmin xmax (xmax - xmin) ((xmax - xmin) / to_double n)
        (1 / ((xmax - xmin) / to_double n)) bc.
Proof.
  unfold grid64.Grid_ctor. intros H.
  destruct (n =? 0) eqn:En; [discriminate|].
  destruct (ge xmin xmax) eqn:Ex; [discriminate|].
  apply Z.eqb_neq in En. split; [exact En|]. split; [reflexivity|].
  now inversion H.
Qed.

Lemma valid64_n (g : grid64.Grid) :
  wf64.valid g -> 1 <= grid64.n_cells_ g <= SIZE_MAX.
Proof.
  intros (n & xmin & xmax & bc & [Hn0 Hn1] & Hc).
  apply Grid_ctor64_inr in Hc. destruct Hc as (Hnz & _ & ->). simpl. lia.
Qed.

Lemma valid64_inv_dx (g : grid64.Grid) :
  wf64.valid g -> grid64.inv_dx_ g = (1 / grid64.dx_ g)%float.
Proof.
  intros (n & xmin & xmax & bc & _ & Hc).
  apply Grid_ctor64_inr in Hc. destruct Hc as (_ & _ & ->). reflexivity.
Qed.

Lemma cell_index64_clamp (g : grid64.Grid) (x : double) :
  wf64.valid g ->
  grid64.cell_index g x
  = option_map (wf.clamp (grid64.n_cells_ g))
      (double_to_ptrdiff_t
         ((grid64.wrap_position g x - grid64.x_min_ g) * grid64.inv_dx_ g)).
Proof.
  intros Hv. pose proof (valid64_n g Hv) as Hn.
  unfold grid64.cell_index.
  destruct (double_to_ptrdiff_t _) as [t|] eqn:E; [|reflexivity].
  simpl. f_equal. apply clamp_code; [exact Hn|].
  exact (double_to_ptrdiff_t_fits _ _ E).
Qed.

Lemma cell_index64_range (g : grid64.Grid) (x : double) (i : Z) :
  wf64.valid g -> grid64.cell_index g x = Some i -> 0 <= i <= grid64.n_cells_ g - 1.
Proof.
  intros Hv. rewrite (cell_index64_clamp g x Hv).
  destruct (double_to_ptrdiff_t _) as [t|]; [|discriminate].
  intros [= <-]. apply clamp_range. pose proof (valid64_n g Hv). lia.
Qed.

Lemma wrap_index64_mod (g : grid64.Grid) (i : Z) :
  1 <= grid64.n_cells_ g <= PTRDIFF_MAX ->
  is_ptrdiff_t i -> grid64.wrap_index g i = Some (i mod grid64.n_cells_ g).
Proof.
  intros [F1 n_fits] Hi.
  assert (Hn : is_ptrdiff_t (grid64.n_cells_ g)) by (apply small_is_ptrdiff_t; lia).
  unfold grid64.wrap_index. destruct (grid64.bc_ g).
  rewrite (to_ptrdiff_t_id _ Hn).
  unfold ptrdiff_rem.
  replace (grid64.n_cells_ g =? 0) with false by (symmetry; apply Z.eqb_neq; lia).
  replace (grid64.n_cells_ g =? -1) with false by (symmetry; apply Z.eqb_neq; lia).
  rewrite andb_false_r. simpl.
  pose proof (rem_to_mod i (grid64.n_cells_ g) ltac:(lia)) as Hm.
  pose proof (Z.mod_pos_bound i (grid64.n_cells_ g) ltac:(lia)) as Hb.
  unfold PTRDIFF_MAX in n_fits.
  destruct (Z.rem i (grid64.n_cells_ g) <? 0) eqn:E.
  - unfold ptrdiff_add. rewrite Hm.
    rewrite fits_ptrdiff_t_true by (apply small_is_ptrdiff_t; unfold PTRDIFF_MAX; lia).
    rewrite to_size_t_id by (apply small_is_size_t; unfold PTRDIFF_MAX; lia).
    reflexivity.
  - rewrite Hm.
    rewrite to_size_t_id by (apply small_is_size_t; unfold PTRDIFF_MAX; lia).
    reflexivity.
Qed.

End IntegerSteps.

(** ** Signs of differences and quotients *)

Section Signs.
Import SpecFloat FloatOps ieee.

Lemma shr_1_nonneg (mrs : shr_record) : 0 <= shr_m mrs -> 0 <= shr_m (shr_1 mrs).
Proof.
  destruct mrs as [m r s]. simpl.
  destruct m as [|[p|p|]|p]; simpl; lia.
Qed.

Lemma iter_shr_1_nonneg (d : positive) (mrs : shr_record) :
  0 <= shr_m mrs -> 0 <= shr_m (iter_pos shr_1 d mrs).
Proof.
  revert mrs. induction d as [d IH | d IH |]; intros mrs H; simpl.
  - apply IH, IH, shr_1_nonneg, H.
  - apply IH, IH, H.
  - apply shr_1_nonneg, H.
Qed.

Lemma shr_fexp_nonneg (m e : Z) (l : location) :
  0 <= m -> 0 <= shr_m (fst (shr_fexp prec emax m e l)).
Proof.
  intros Hm. unfold shr_fexp, shr.
  assert (H0 : 0 <= shr_m (shr_record_of_loc m l)).
  { destruct l as [|[| |]]; simpl; exact Hm. }
  destruct (_ - e) as [|d|d]; simpl; try exact H0.
  now apply iter_shr_1_nonneg.
Qed.

Lemma round_nearest_even_nonneg (m : Z) (l : location) :
  0 <= m -> 0 <= round_nearest_even m l.
Proof.
  intros Hm. destruct l as [|[| |]]; simpl; try lia.
  destruct (Z.even m); lia.
Qed.

Lemma binary_round_aux_nonneg (m e : Z) (l : location) :
  0 <= m -> SFnonneg (binary_round_aux prec emax false m e l).
Proof.
  intros Hm. unfold binary_round_aux.
  pose proof (shr_fexp_nonneg m e l Hm) as H1.
  destruct (shr_fexp prec emax m e l) as [mrs' e']. simpl in H1.
  pose proof (shr_fexp_nonneg _ e' loc_Exact
                (round_nearest_even_nonneg _ (loc_of_shr_record mrs') H1)) as H2.
  destruct (shr_fexp prec emax _ e' loc_Exact) as [mrs'' e'']. simpl in H2.
  destruct (shr_m mrs'') as [|p|p]; simpl; [reflexivity| |lia].
  destruct (e'' <=? _); reflexivity.
Qed.

Lemma binary_normalize_nonneg (m e : Z) :
  0 <= m -> SFnonneg (binary_normalize prec emax m e false).
Proof.
  intros Hm. destruct m as [|p|p]; simpl; [reflexivity| |lia].
  unfold binary_round. destruct (shl_align _ _ _) as [mz ez].
  apply binary_round_aux_nonneg. lia.
Qed.

Lemma SFdiv_core_nonneg (m1 e1 m2 e2 : Z) :
  0 <= m1 -> 0 < m2 ->
  0 <= fst (fst (SFdiv_core_binary prec emax m1 e1 m2 e2)).
Proof.
  intros H1 H2. unfold SFdiv_core_binary.
  set (s := _ - _ - _).
  set (m' := match s with Zpos _ => Z.shiftl m1 s | Z0 => m1 | Zneg _ => 0 end).
  assert (Hm' : 0 <= m').
  { unfold m'. destruct s as [|p|p]; try lia. apply Z.shiftl_nonneg. exact H1. }
  pose proof (Z_div_mod m' m2 ltac:(lia)) as Hd.
  destruct (Z.div_eucl m' m2) as [q r]. simpl.
  destruct Hd as [Hq Hr]. nia.
Qed.

(** A quotient of a non-negative double by a positive number is
    non-negative. *)
Lemma SFdiv_nonneg (a : spec_float) (m : positive) (e : Z) :
  SFnonneg a -> SFnonneg (SFdiv prec emax a (S754_finite false m e)).
Proof.
  destruct a as [s | s | | s ma ea]; simpl; try tauto.
  - intros ->. reflexivity.
  - intros ->. reflexivity.
  - intros ->.
    pose proof (SFdiv_core_nonneg (Zpos ma) ea (Zpos m) e ltac:(lia) ltac:(lia)) as H.
    destruct (SFdiv_core_binary _ _ _ _ _ _) as [[mz ez] lz]. simpl in H.
    now apply binary_round_aux_nonneg.
Qed.

Lemma digits2_pos_size (p : positive) : digits2_pos p = Pos.size p.
Proof. induction p as [p IH | p IH |]; simpl; congruence. Qed.

(** What [valid_binary] says of a finite double: at most 53 digits, an
    exponent of at least [emin], and 53 digits above [emin]. *)
Lemma bounded_digits (m : positive) (e : Z) :
  bounded prec emax m e = true ->
  Z.pos m < 2 ^ 53 /\ -1074 <= e /\ (-1074 < e -> 2 ^ 53 <= 2 * Z.pos m).
Proof.
  unfold bounded, canonical_mantissa, fexp, emin, prec, emax.
  intros H. apply andb_true_iff in H. destruct H as [H _].
  apply Z.eqb_eq in H. rewrite digits2_pos_size in H.
  pose proof (Pos.size_gt m) as Hgt. pose proof (Pos.size_le m) as Hle.
  apply Pos2Z.pos_lt_pos in Hgt. apply Pos2Z.pos_le_pos in Hle.
  rewrite Pos2Z.inj_pow in Hgt, Hle. rewrite Pos2Z.inj_xO in Hle.
  set (d := Z.pos (Pos.size m)) in *.
  assert (Hd : 0 < d) by (unfold d; lia).
  split; [|split].
  - assert (d <= 53) by lia.
    assert (2 ^ d <= 2 ^ 53) by (apply Z.pow_le_mono_r; lia). lia.
  - lia.
  - intros He. assert (Ed : d = 53) by lia. rewrite Ed in Hle. exact Hle.
Qed.

Lemma canonical_lt (m1 m2 : positive) (e1 e2 : Z) :
  bounded prec emax m1 e1 = true -> bounded prec emax m2 e2 = true ->
  e1 < e2 -> Z.pos m1 < Z.pos m2 * 2 ^ (e2 - e1).
Proof.
  intros H1 H2 He.
  destruct (bounded_digits m1 e1 H1) as (A1 & B1 & _).
  destruct (bounded_digits m2 e2 H2) as (_ & _ & C2).
  specialize (C2 ltac:(lia)).
  assert (2 ^ 1 <= 2 ^ (e2 - e1)) by (apply Z.pow_le_mono_r; lia).
  change (2 ^ 1) with 2 in *. nia.
Qed.

Lemma shl_align_value (m : positive) (e ez : Z) :
  ez <= e -> Z.pos (fst (shl_align m e ez)) = Z.pos m * 2 ^ (e - ez).
Proof.
  intros He. unfold shl_align.
  destruct (ez - e) as [|d|d] eqn:E; simpl.
  - replace (e - ez) with 0 by lia. simpl. lia.
  - lia.
  - replace (e - ez) with (Z.pos d) by lia.
    rewrite (Pos.iter_swap_gen _ _ Z.pos xO (Z.mul 2)) by reflexivity.
    rewrite <- (Z.shiftl_mul_pow2 (Z.pos m) (Z.pos d)) by lia.
    reflexivity.
Qed.

(** The difference of two doubles is non-negative when the second compares
    as less than the first. *)
Lemma SFsub_nonneg (a b : spec_float) :
  valid_binary prec emax a = true -> valid_binary prec emax b = true ->
  SFcompare a b = Some Lt -> SFnonneg (SFsub prec emax b a).
Proof.
  destruct a as [sa | sa | | sa ma ea], b as [sb | sb | | sb mb eb];
    simpl; intros Ha Hb Hc; try discriminate;
    try (destruct sa; try discriminate; reflexivity);
    try (destruct sb; try discriminate; reflexivity);
    try (destruct sa, sb; try discriminate; reflexivity).
  apply binary_normalize_nonneg.
  pose proof (shl_align_value mb eb (Z.min eb ea) ltac:(lia)) as Vb.
  pose proof (shl_align_value ma ea (Z.min eb ea) ltac:(lia)) as Va.
  rewrite Va, Vb.
  assert (Pa : 0 <= 2 ^ (ea - Z.min eb ea)) by (apply Z.pow_nonneg; lia).
  assert (Pb : 0 <= 2 ^ (eb - Z.min eb ea)) by (apply Z.pow_nonneg; lia).
  destruct sa, sb; simpl; try discriminate.
  - destruct (ea ?= eb) eqn:Ee; try discriminate.
    + apply Z.compare_eq in Ee. subst eb.
      rewrite Z.min_id, Z.sub_diag. simpl.
      rewrite Pos.compare_cont_spec in Hc. simpl in Hc.
      destruct (Pos.compare_spec ma mb); simpl in Hc; try discriminate. lia.
    + change (ea > eb) in Ee.
      rewrite Z.min_l by lia. rewrite Z.sub_diag. simpl.
      pose proof (canonical_lt mb ma eb ea Hb Ha ltac:(lia)). lia.
  - nia.
  - destruct (ea ?= eb) eqn:Ee; try discriminate.
    + apply Z.compare_eq in Ee. subst eb.
      rewrite Z.min_id, Z.sub_diag. simpl.
      rewrite Pos.compare_cont_spec in Hc. simpl in Hc.
      destruct (Pos.compare_spec ma mb); simpl in Hc; try discriminate. lia.
    + change (ea < eb) in Ee.
      rewrite Z.min_r by lia. rewrite Z.sub_diag. simpl.
      pose proof (canonical_lt ma mb ea eb Ha Hb Ee). lia.
Qed.

End Signs.

(** ** Conversion of a cell count to double *)

Section Conversion.
Import SpecFloat FloatOps ieee.

Lemma Zdigits2_bounds (p : positive) :
  2 ^ (Z.pos (digits2_pos p) - 1) <= Z.pos p < 2 ^ Z.pos (digits2_pos p).
Proof.
  rewrite digits2_pos_size.
  pose proof (Pos.size_gt p) as Hgt. pose proof (Pos.size_le p) as Hle.
  apply Pos2Z.pos_lt_pos in Hgt. apply Pos2Z.pos_le_pos in Hle.
  rewrite Pos2Z.inj_pow in Hgt, Hle.
  change (Z.pos p~0) with (2 * Z.pos p) in Hle.
  set (d := Z.pos (Pos.size p)) in *.
  assert (Hd : 0 < d) by (unfold d; lia).
  assert (E : 2 ^ d = 2 * 2 ^ (d - 1)).
  { rewrite <- Z.pow_succ_r by lia. f_equal. lia. }
  lia.
Qed.

Lemma Zdigits2_unique (p : positive) (d : Z) :
  2 ^ (d - 1) <= Z.pos p < 2 ^ d -> Z.pos (digits2_pos p) = d.
Proof.
  intros [Hlo Hhi]. pose proof (Zdigits2_bounds p) as [Blo Bhi].
  set (k := Z.pos (digits2_pos p)) in *.
  assert (Hk : 0 < k) by (unfold k; lia).
  destruct (Z_lt_le_dec d k) as [Hlt | Hge].
  - assert (2 ^ d <= 2 ^ (k - 1)).
    { destruct (Z_lt_le_dec d 0) as [Hneg | Hnn].
      - rewrite (Z.pow_neg_r 2 d Hneg) in Hhi. lia.
      - apply Z.pow_le_mono_r; lia. }
    lia.
  - destruct (Z_le_lt_eq_dec k d Hge) as [Hgt | ->]; [|reflexivity].
    assert (2 ^ k <= 2 ^ (d - 1)) by (apply Z.pow_le_mono_r; lia).
    lia.
Qed.

Lemma shr_1_div2 (mrs : shr_record) :
  0 <= shr_m mrs -> shr_m (shr_1 mrs) = Z.div2 (shr_m mrs).
Proof.
  destruct mrs as [m r s]. simpl.
  destruct m as [|[p|p|]|p]; simpl; try reflexivity; lia.
Qed.

Lemma iter_shr_1_shiftr (d : positive) (mrs : shr_record) :
  0 <= shr_m mrs ->
  shr_m (iter_pos shr_1 d mrs) = Z.shiftr (shr_m mrs) (Z.pos d).
Proof.
  revert mrs. induction d as [d IH | d IH |]; intros mrs H; simpl iter_pos.
  - rewrite IH by (apply iter_shr_1_nonneg, shr_1_nonneg, H).
    rewrite IH by (apply shr_1_nonneg, H).
    rewrite shr_1_div2 by exact H.
    rewrite Z.div2_spec, !Z.shiftr_shiftr by lia.
    f_equal. lia.
  - rewrite IH by (apply iter_shr_1_nonneg, H).
    rewrite IH by exact H.
    rewrite Z.shiftr_shiftr by lia. f_equal. lia.
  - rewrite shr_1_div2 by exact H. apply Z.div2_spec.
Qed.

(** A mantissa of at least 53 digits, in the range of the normal numbers, is
    shifted down to exactly 53 digits. *)
Lemma shr_fexp_normal (p : positive) (e : Z) (l : location) :
  53 <= Z.pos (digits2_pos p) ->
  -1074 <= Z.pos (digits2_pos p) + e - 53 ->
  let r := shr_fexp prec emax (Z.pos p) e l in
  snd r = Z.pos (digits2_pos p) + e - 53 /\
  2 ^ 52 <= shr_m (fst r) < 2 ^ 53.
Proof.
  intros Hd He. unfold shr_fexp, shr, fexp, emin, prec, emax. simpl Zdigits2.
  set (d := Z.pos (digits2_pos p)) in *.
  rewrite Z.max_l by lia.
  pose proof (Zdigits2_bounds p) as [Blo Bhi]. fold d in Blo, Bhi.
  destruct (d + e - 53 - e) as [|n|n] eqn:En; simpl.
  - assert (d = 53) by lia.
    replace (d - 1) with 52 in Blo by lia. replace d with 53 in Bhi by lia.
    split; [lia|]. destruct l as [|[| |]]; simpl; lia.
  - split; [lia|].
    rewrite iter_shr_1_shiftr by (destruct l as [|[| |]]; simpl; lia).
    replace (shr_m (shr_record_of_loc (Z.pos p) l)) with (Z.pos p)
      by (destruct l as [|[| |]]; reflexivity).
    rewrite Z.shiftr_div_pow2 by lia.
    assert (Hn : Z.pos n = d - 53) by lia.
    assert (P : 0 < 2 ^ Z.pos n) by (apply Z.pow_pos_nonneg; lia).
    assert (E1 : 2 ^ (d - 1) = 2 ^ 52 * 2 ^ Z.pos n).
    { rewrite <- Z.pow_add_r by lia. f_equal. lia. }
    assert (E2 : 2 ^ d = 2 ^ 53 * 2 ^ Z.pos n).
    { rewrite <- Z.pow_add_r by lia. f_equal. lia. }
    split.
    + apply Z.div_le_lower_bound; lia.
    + apply Z.div_lt_upper_bound; lia.
  - lia.
Qed.

Lemma pow2_digits (q : positive) (a b : Z) :
  0 <= a -> 2 ^ a <= Z.pos q -> Z.pos q < 2 ^ b ->
  a + 1 <= Z.pos (digits2_pos q) <= b.
Proof.
  intros Ha Hlo Hhi. pose proof (Zdigits2_bounds q) as [Blo Bhi].
  set (d := Z.pos (digits2_pos q)) in *.
  assert (Hd : 0 < d) by (unfold d; lia).
  split.
  - destruct (Z_lt_le_dec d (a + 1)) as [Hlt | Hge]; [|exact Hge].
    assert (2 ^ d <= 2 ^ a) by (apply Z.pow_le_mono_r; lia). lia.
  - destruct (Z_lt_le_dec b d) as [Hlt | Hge]; [|exact Hge].
    destruct (Z_lt_le_dec b 0) as [Hneg | Hnn].
    + rewrite (Z.pow_neg_r 2 b Hneg) in Hhi. lia.
    + assert (2 ^ b <= 2 ^ (d - 1)) by (apply Z.pow_le_mono_r; lia). lia.
Qed.

Lemma bounded_53 (m : positive) (e : Z) :
  2 ^ 52 <= Z.pos m < 2 ^ 53 -> -1074 <= e <= 971 ->
  bounded prec emax m e = true.
Proof.
  intros [Hlo Hhi] He.
  pose proof (pow2_digits m 52 53 ltac:(lia) Hlo Hhi) as Hd.
  unfold bounded, canonical_mantissa, fexp, emin, prec, emax.
  apply andb_true_iff. split.
  - apply Z.eqb_eq. lia.
  - apply Z.leb_le. lia.
Qed.

(** Rounding a positive mantissa of at least 53 digits in the range of the
    normal numbers gives a positive finite double. *)
Lemma binary_round_aux_finite (p : positive) (e : Z) (l : location) :
  53 <= Z.pos (digits2_pos p) ->
  -1074 <= Z.pos (digits2_pos p) + e - 53 ->
  Z.pos (digits2_pos p) + e <= 1023 ->
  exists m e',
    binary_round_aux prec emax false (Z.pos p) e l = S754_finite false m e' /\
    bounded prec emax m e' = true.
Proof.
  intros Hd Hlo Hhi. unfold binary_round_aux.
  destruct (shr_fexp_normal p e l Hd Hlo) as [He1 Hm1].
  destruct (shr_fexp prec emax (Z.pos p) e l) as [mrs' e1]. simpl in He1, Hm1.
  set (m1 := round_nearest_even (shr_m mrs') (loc_of_shr_record mrs')).
  assert (Hr : 2 ^ 52 <= m1 <= 2 ^ 53).
  { unfold m1, round_nearest_even.
    destruct (loc_of_shr_record mrs') as [|[| |]]; try lia.
    destruct (Z.even (shr_m mrs')); lia. }
  destruct m1 as [|q|q] eqn:Eq; try lia.
  pose proof (pow2_digits q 52 54 ltac:(lia) ltac:(lia) ltac:(lia)) as Hq.
  destruct (shr_fexp_normal q e1 loc_Exact ltac:(lia) ltac:(lia)) as [He2 Hm2].
  destruct (shr_fexp prec emax (Z.pos q) e1 loc_Exact) as [mrs'' e2].
  simpl in He2, Hm2.
  destruct (shr_m mrs'') as [|m2|m2] eqn:Em2; try lia.
  replace (e2 <=? emax - prec) with true
    by (symmetry; apply Z.leb_le; unfold emax, prec; lia).
  exists m2, e2. split; [reflexivity|].
  apply bounded_53; [exact Hm2 | lia].
Qed.

Lemma iter_xO_value (p d : positive) :
  Z.pos (Pos.iter xO p d) = Z.pos p * 2 ^ Z.pos d.
Proof.
  rewrite (Pos.iter_swap_gen _ _ Z.pos xO (Z.mul 2)) by reflexivity.
  rewrite <- (Z.shiftl_mul_pow2 (Z.pos p) (Z.pos d)) by lia.
  reflexivity.
Qed.

Lemma binary_round_finite (p : positive) (e : Z) :
  -1074 <= Z.pos (digits2_pos p) + e - 53 ->
  Z.pos (digits2_pos p) + e <= 1023 ->
  exists m e',
    binary_round prec emax false p e = S754_finite false m e' /\
    bounded prec emax m e' = true.
Proof.
  intros Hlo Hhi. unfold binary_round, shl_align, fexp, emin, prec, emax.
  pose proof (Zdigits2_bounds p) as [Blo Bhi].
  set (k := Z.pos (digits2_pos p)) in *.
  rewrite Z.max_l by lia.
  destruct (k + e - 53 - e) as [|d|d] eqn:Ed.
  - apply binary_round_aux_finite; fold k; lia.
  - apply binary_round_aux_finite; fold k; lia.
  - assert (Hk : Z.pos d = 53 - k) by lia.
    assert (Hdig : Z.pos (digits2_pos (Pos.iter xO p d)) = 53).
    { apply Zdigits2_unique. rewrite iter_xO_value.
      assert (P : 0 < 2 ^ Z.pos d) by (apply Z.pow_pos_nonneg; lia).
      assert (E1 : 2 ^ (53 - 1) = 2 ^ (k - 1) * 2 ^ Z.pos d).
      { rewrite <- Z.pow_add_r by lia. f_equal. lia. }
      assert (E2 : 2 ^ 53 = 2 ^ k * 2 ^ Z.pos d).
      { rewrite <- Z.pow_add_r by lia. f_equal. lia. }
      rewrite E1, E2. split.
      - apply Z.mul_le_mono_nonneg_r; lia.
      - apply Z.mul_lt_mono_pos_r; lia. }
    apply binary_round_aux_finite; rewrite Hdig; lia.
Qed.

End Conversion.

(** ** The cell width *)

Section Quotient.
Import cxx PrimFloat SpecFloat FloatOps ieee.

(** [static_cast<double>(n)] is a positive finite double for every cell
    count [n >= 1] a [size_t] can hold. *)
Lemma to_double_positive (n : Z) :
  1 <= n <= SIZE_MAX ->
  exists m e, Prim2SF (to_double n) = S754_finite false m e.
Proof.
  intros [Hlo Hhi]. unfold SIZE_MAX in Hhi.
  destruct n as [|p|p]; try lia.
  unfold to_double, of_scaled. simpl binary_normalize.
  pose proof (pow2_digits p 0 64 ltac:(lia) ltac:(simpl; lia) ltac:(lia)) as Hk.
  destruct (binary_round_finite p 0 ltac:(lia) ltac:(lia)) as (m & e & Hr & Hb).
  exists m, e. rewrite Hr. now apply FloatAxioms.Prim2SF_SF2Prim.
Qed.

Lemma compare_lt_spec (a b : float) :
  compare a b = FLt -> SFcompare (Prim2SF a) (Prim2SF b) = Some Lt.
Proof.
  rewrite FloatAxioms.compare_spec.
  destruct (SFcompare _ _) as [[| |]|]; simpl; congruence.
Qed.

(** The cell width of a Grid whose bounds compare as [x_min < x_max] is not
    negative and not a NaN: it is positive, or [+0] when the quotient
    underflows. *)
Lemma dx_nonneg (n : Z) (xmin xmax : float) :
  1 <= n <= SIZE_MAX ->
  compare xmin xmax = FLt ->
  lt 0 ((xmax - xmin) / to_double n) = true \/
  ((xmax - xmin) / to_double n)%float = 0%float.
Proof.
  intros Hn Hc.
  destruct (to_double_positive n Hn) as (m & e & Hd).
  set (dx := ((xmax - xmin) / to_double n)%float).
  assert (Hnn : SFnonneg (Prim2SF dx)).
  { unfold dx. rewrite FloatAxioms.div_spec, FloatAxioms.sub_spec, Hd.
    apply SFdiv_nonneg, SFsub_nonneg.
    - apply FloatAxioms.Prim2SF_valid.
    - apply FloatAxioms.Prim2SF_valid.
    - now apply compare_lt_spec. }
  unfold lt. rewrite FloatAxioms.compare_spec.
  change (Prim2SF 0) with (S754_zero false).
  destruct (Prim2SF dx) as [s | s | | s md ed] eqn:E; simpl in Hnn; subst; simpl.
  - right. rewrite <- (FloatAxioms.SF2Prim_Prim2SF dx), E. reflexivity.
  - now left.
  - contradiction.
  - now left.
Qed.

End Quotient.

(** ** Construction, wrapping and cell lookup *)

Section Binary64Grid.
Import cxx PrimFloat ieee.

Lemma valid64_grid_0_4 : wf64.valid wf64.grid_0_4.
Proof.
  exists 4, 0%float, 4%float, grid.Periodic. split.
  - unfold is_size_t, SIZE_MAX. lia.
  - reflexivity.
Qed.

(** The conversion to [std::ptrdiff_t] discards the fractional part, toward
    zero, and is defined on the doubles of [[-2^63, 2^63)]. *)
Lemma double_to_ptrdiff_t_values :
  double_to_ptrdiff_t 0x1.feb851eb851ecp+1 = Some 3 /\
  double_to_ptrdiff_t (-0x1.feb851eb851ecp+1) = Some (-3) /\
  double_to_ptrdiff_t (-0.5) = Some 0 /\
  double_to_ptrdiff_t (-0) = Some 0 /\
  double_to_ptrdiff_t 0x1p-1074 = Some 0 /\
  double_to_ptrdiff_t 0x1.fffffffffffffp+62 = Some (2 ^ 63 - 1024) /\
  double_to_ptrdiff_t 0x1p+63 = None /\
  double_to_ptrdiff_t (-0x1p+63) = Some PTRDIFF_MIN /\
  double_to_ptrdiff_t (-0x1.0000000000001p+63) = None /\
  double_to_ptrdiff_t infinity = None /\
  double_to_ptrdiff_t nan = None /\
  to_double SIZE_MAX = 0x1p+64%float /\
  to_double (2 ^ 53 + 1) = 0x1p+53%float /\
  to_double (2 ^ 53 + 3) = 0x1.0000000000002p+53%float.
Proof. repeat split; vm_compute; reflexivity. Qed.

(** [fmod] on a few operands: the remainder has the sign of the dividend and
    is exact, also where the quotient is huge. *)
Lemma fmod_values :
  fmod 5.5 2 = 1.5%float /\
  fmod (-5.5) 2 = (-1.5)%float /\
  fmod 5.5 (-2) = 1.5%float /\
  fmod (-10) 10 = (-0)%float /\
  fmod 10 0x1.999999999999ap-4 = 0x1.9999999999972p-4%float /\
  fmod 0x1.7e43c8800759cp+996 0x1.3333333333333p-2 = 0x1.39ca9efec80b2p-3%float /\
  fmod 3 infinity = 3%float /\
  fmod 3 0 = nan /\
  fmod infinity 3 = nan.
Proof. repeat split; vm_compute; reflexivity. Qed.

(** The assertions of test_grid.cpp on [cell_index] and [wrap_position]
    hold of the binary64 reading. *)
Lemma grid_tests_replayed :
  (exists g,
     grid64.Grid_ctor 10 0 10 grid.Periodic = inr g /\
     grid64.cell_index g 0.5 = Some 0 /\
     grid64.cell_index g 1.5 = Some 1 /\
     grid64.cell_index g 9.5 = Some 9 /\
     grid64.cell_index g 0 = Some 0 /\
     grid64.cell_index g 0x1.3fae147ae147bp+3 = Some 9 /\
     grid64.cell_index g 10.5 = Some 0 /\
     grid64.cell_index g 11.5 = Some 1 /\
     grid64.cell_index g (-0.5) = Some 9 /\
     grid64.cell_index g (-1.5) = Some 8 /\
     grid64.wrap_position g 5 = 5%float /\
     grid64.wrap_position g 0 = 0%float /\
     grid64.wrap_position g 10 = 0%float /\
     grid64.wrap_position g 12.5 = 2.5%float /\
     grid64.wrap_position g 25 = 5%float /\
     grid64.wrap_position g (-2.5) = 7.5%float /\
     grid64.wrap_position g (-10) = 0%float /\
     grid64.wrap_position g (-12.5) = 7.5%float) /\
  (exists g,
     grid64.Grid_ctor 10 (-5) 5 grid.Periodic = inr g /\
     grid64.wrap_position g 0 = 0%float /\
     grid64.wrap_position g 7 = (-3)%float /\
     grid64.wrap_position g (-7) = 3%float) /\
  (exists g,
     grid64.Grid_ctor 4 0 4 grid.Periodic = inr g /\
     grid64.dx g = 1%float /\
     grid64.wrap_position g (-0.5) = 3.5%float).
Proof.
  split; [|split]; eexists; (split; [reflexivity|]);
    repeat split; vm_compute; reflexivity.
Qed.

(** C5, as the code has it.  [Grid::Grid] throws [std::invalid_argument]
    exactly when [n_cells == 0] or the comparison [x_min >= x_max] holds; for
    all other arguments it returns the Grid with the given cell count and
    bounds, [length = x_max - x_min] and [dx = length / n] as binary64
    computes them, and that Grid has [n_cells >= 1] and, unless a bound is a
    NaN, [x_min < x_max] and [dx >= 0]: [dx] is positive, or [+0] when the
    quotient underflows.  A Grid has no mutating member function, so these
    hold for as long as the object lives. *)
Theorem Grid_ctor_checks (n : Z) (xmin xmax : double) (bc : grid.BoundaryCondition) :
  is_size_t n ->
  ((n = 0 \/ ge xmin xmax = true) <->
   exists what, grid64.Grid_ctor n xmin xmax bc = inl (invalid_argument what)) /\
  (~ (n = 0 \/ ge xmin xmax = true) ->
   exists g, grid64.Grid_ctor n xmin xmax bc = inr g /\
     grid64.n_cells g = n /\ grid64.x_min g = xmin /\ grid64.x_max g = xmax /\
     grid64.length g = (xmax - xmin)%float /\
     grid64.dx g = (grid64.length g / to_double n)%float /\
     1 <= grid64.n_cells g /\
     (is_nan xmin = false -> is_nan xmax = false ->
      lt (grid64.x_min g) (grid64.x_max g) = true /\
      (lt 0 (grid64.dx g) = true \/ grid64.dx g = 0%float))).
Proof.
  intros Hn. split.
  - unfold grid64.Grid_ctor. split.
    + intros [-> | Hx].
      * simpl. eauto.
      * destruct (n =? 0); [eauto|]. rewrite Hx. eauto.
    + intros [what H].
      destruct (n =? 0) eqn:En.
      * left. now apply Z.eqb_eq.
      * destruct (ge xmin xmax) eqn:Ex; [|discriminate]. now right.
  - intros Hok.
    assert (Hnz : n <> 0) by tauto.
    assert (Hge : ge xmin xmax = false)
      by (destruct (ge xmin xmax); [exfalso; apply Hok; now right | reflexivity]).
    unfold grid64.Grid_ctor.
    apply Z.eqb_neq in Hnz. rewrite Hnz, Hge.
    eexists. split; [reflexivity|].
    unfold grid64.n_cells, grid64.x_min, grid64.x_max, grid64.length, grid64.dx.
    simpl. apply Z.eqb_neq in Hnz. destruct Hn as [Hn0 Hn1].
    repeat (split; [reflexivity || lia|]).
    intros Hmin Hmax.
    assert (Ec : compare xmin xmax = FLt).
    { unfold ge in Hge.
      destruct (compare xmin xmax) eqn:Ec; try discriminate; [reflexivity|].
      destruct (compare_unordered _ _ Ec); congruence. }
    split; [unfold lt; now rewrite Ec|].
    apply dx_nonneg; [lia | exact Ec].
Qed.

Lemma Grid_ctor_checks_witness :
  exists g, grid64.Grid_ctor 4 0 4 grid.Periodic = inr g /\
            lt (grid64.x_min g) (grid64.x_max g) = true /\
            (lt 0 (grid64.dx g) = true \/ grid64.dx g = 0%float).
Proof.
  assert (H4 : is_size_t 4) by (unfold is_size_t, SIZE_MAX; lia).
  destruct (Grid_ctor_checks 4 0 4 grid.Periodic H4) as [_ Hok].
  destruct Hok as (g & Hg & _ & _ & _ & _ & _ & _ & Hlt).
  - intros [H | H]; discriminate.
  - exists g. split; [exact Hg|]. exact (Hlt eq_refl eq_refl).
Defined.

(** C5 as stated fails in binary64.  [Grid(4, 0, 2^-1074)] is accepted:
    [0 >= 2^-1074] is false, the quotient [2^-1074 / 4] underflows, and the
    Grid has [dx == 0] and [inv_dx == inf].  [Grid(4, NaN, 1)] is accepted
    as well, a comparison with a NaN being false, and neither [x_min < x_max]
    nor [dx > 0] holds of it. *)
Lemma Grid_ctor_accepts_zero_dx :
  (exists g,
     grid64.Grid_ctor 4 0 0x1p-1074 grid.Periodic = inr g /\
     is_size_t 4 /\ ge 0 0x1p-1074 = false /\
     grid64.dx g = 0%float /\ lt 0 (grid64.dx g) = false /\
     grid64.inv_dx_ g = infinity) /\
  (exists g,
     grid64.Grid_ctor 4 nan 1 grid.Periodic = inr g /\
     ge nan 1 = false /\
     lt (grid64.x_min g) (grid64.x_max g) = false /\
     lt 0 (grid64.dx g) = false).
Proof.
  split; eexists; (split; [reflexivity|]); repeat split; try reflexivity;
    unfold is_size_t, SIZE_MAX; lia.
Qed.

(** C2 fails of the code at [Grid(4, 0, 4)], [x = -2^-60].  [fmod] returns
    [-2^-60], which is negative, and [x_rel += length_] rounds [4 - 2^-60]
    to [4.0]: [wrap_position(x)] is [x_max], outside [[x_min, x_max)].
    Wrapping it again gives [0.0], so [wrap_position] is not idempotent
    there, and [cell_index(x)] is the last cell, 3, while
    [cell_index(wrap_position(x))] is cell 0. *)
Theorem wrap_position_returns_x_max :
  exists g,
    grid64.Grid_ctor 4 0 4 grid.Periodic = inr g /\
    fmod (-0x1p-60 - grid64.x_min g) (grid64.length g) = (-0x1p-60)%float /\
    lt (-0x1p-60) 0 = true /\
    (-0x1p-60 + grid64.length g)%float = grid64.length g /\
    grid64.wrap_position g (-0x1p-60) = grid64.x_max g /\
    grid64.contains g (grid64.wrap_position g (-0x1p-60)) = false /\
    grid64.wrap_position g (grid64.wrap_position g (-0x1p-60)) = 0%float /\
    grid64.cell_index g (-0x1p-60) = Some 3 /\
    grid64.cell_index g (grid64.wrap_position g (-0x1p-60)) = Some 0.
Proof.
  eexists. split; [reflexivity|]. repeat split; vm_compute; reflexivity.
Qed.

(** C3, as the code has it.  For every Grid the constructor returned and
    every double [x], [cell_index(x)] wraps [x], multiplies the offset
    [wrap_position(x) - x_min] by the cached [inv_dx_ = 1.0 / dx_], converts
    the product to [std::ptrdiff_t] by discarding its fractional part, and
    clamps the result to [[0, n-1]]: it is undefined exactly when that
    conversion is (the product is a NaN, infinite or outside the range of
    [std::ptrdiff_t]), and every index it returns lies in [[0, n-1]].  On
    [Grid(n=4, x_min=0, x_max=4)], [cell_index(3.99) == 3] and
    [cell_index(4.5) == 0]. *)
Theorem cell_index_clamped (g : grid64.Grid) (x : double) :
  wf64.valid g ->
  grid64.inv_dx_ g = (1 / grid64.dx g)%float /\
  grid64.cell_index g x
  = option_map (wf.clamp (grid64.n_cells g))
      (double_to_ptrdiff_t
         ((grid64.wrap_position g x - grid64.x_min g) * grid64.inv_dx_ g)) /\
  (forall i, grid64.cell_index g x = Some i -> 0 <= i <= grid64.n_cells g - 1) /\
  (exists g4,
     grid64.Grid_ctor 4 0 4 grid.Periodic = inr g4 /\
     grid64.cell_index g4 0x1.feb851eb851ecp+1 = Some 3 /\
     grid64.cell_index g4 4.5 = Some 0).
Proof.
  intros Hv. split; [exact (valid64_inv_dx g Hv)|].
  split; [exact (cell_index64_clamp g x Hv)|].
  split; [intros i; exact (cell_index64_range g x i Hv)|].
  eexists. split; [reflexivity|]. split; vm_compute; reflexivity.
Qed.

Lemma cell_index_clamped_witness :
  grid64.cell_index wf64.grid_0_4 4.5
  = option_map (wf.clamp (grid64.n_cells wf64.grid_0_4))
      (double_to_ptrdiff_t
         ((grid64.wrap_position wf64.grid_0_4 4.5 - grid64.x_min wf64.grid_0_4)
          * grid64.inv_dx_ wf64.grid_0_4)) /\
  (forall i, grid64.cell_index wf64.grid_0_4 4.5 = Some i ->
             0 <= i <= grid64.n_cells wf64.grid_0_4 - 1).
Proof.
  destruct (cell_index_clamped wf64.grid_0_4 4.5 valid64_grid_0_4)
    as (_ & Hc & Hr & _).
  split; [exact Hc | exact Hr].
Defined.

(** C3 as stated fails in binary64.  On [Grid(10, 0, 1)] at [x = 0.3] the
    product with [inv_dx_] rounds to [3.0] and the cell returned is 3, while
    [(x_wrapped - x_min) / dx] is [2.9999999999999996], of floor 2, and [x]
    lies left of [cell_left(3)].  On a Grid of [SIZE_MAX] cells at
    [x = 0.75] the product exceeds [PTRDIFF_MAX], and on
    [Grid(4, 0, 2^-1074)], where [inv_dx_] is infinite, the product is a NaN
    at [x = 0]: the conversion to [std::ptrdiff_t] is undefined in both. *)
Lemma cell_index_scaled_not_divided :
  (exists g,
     grid64.Grid_ctor 10 0 1 grid.Periodic = inr g /\
     grid64.cell_index g 0x1.3333333333333p-2 = Some 3 /\
     double_to_ptrdiff_t
       ((grid64.wrap_position g 0x1.3333333333333p-2 - grid64.x_min g) / grid64.dx g)
     = Some 2 /\
     lt 0x1.3333333333333p-2 (grid64.cell_left g 3) = true) /\
  (exists g,
     grid64.Grid_ctor SIZE_MAX 0 1 grid.Periodic = inr g /\
     is_size_t SIZE_MAX /\
     grid64.cell_index g 0.75 = None) /\
  (exists g,
     grid64.Grid_ctor 4 0 0x1p-1074 grid.Periodic = inr g /\
     grid64.cell_index g 0 = None).
Proof.
  split; [|split]; eexists; (split; [reflexivity|]); repeat split;
    try (vm_compute; reflexivity); vm_compute; discriminate.
Qed.

End Binary64Grid.

(** ** Interpolation *)

Section Binary64Interpolation.
Import cxx PrimFloat ieee.

Lemma at64_in_range (f : grid64.Field) (i : Z) :
  wf64.Field_ok f ->
  0 <= i < grid64.n_cells_ (grid64.grid_ f) -> exists a, grid64.at_ f i = Some a.
Proof.
  intros (_ & Hs & _) Hi. unfold grid64.n_cells in Hs.
  unfold grid64.at_. rewrite Hs.
  replace (0 <=? i) with true by (symmetry; apply Z.leb_le; lia).
  replace (i <? grid64.n_cells_ (grid64.grid_ f)) with true
    by (symmetry; apply Z.ltb_lt; lia).
  simpl. apply lookup_lt_is_Some.
  unfold grid64.size in Hs. lia.
Qed.

Lemma field64_n (f : grid64.Field) :
  wf64.Field_ok f -> 1 <= grid64.n_cells_ (grid64.grid_ f) <= PTRDIFF_MAX.
Proof.
  intros (Hv & Hs & Hm). pose proof (valid64_n _ Hv) as Hn.
  unfold grid64.n_cells in Hs.
  assert (vector_max_size <= PTRDIFF_MAX) by (vm_compute; discriminate).
  lia.
Qed.

(** C4, as the code has it.  On a Field over its Grid, [interpolate(x)] is
    undefined exactly when [cell_index] is, at [x] or at [wrap_position(x)].
    Otherwise it returns
    [w_left * values[cell_index(x)] + w_right * values[wrap_index(cell_index(x) + 1)]]
    as binary64 computes it, where both cells are cells of the Field,
    [wrap_index(i + 1)] is [(i + 1) mod n], and
    [(w_left, w_right) = interpolation_weights(x)] with [w_right] the offset
    of [wrap_position(x)] from the left edge of the cell found for it, times
    [inv_dx_], and [w_left = 1.0 - w_right].  On the inputs of the tests the
    result is exact: the field of constant 5.0 over [Grid(10, 0, 10)] gives
    5.0 at 0.0, 5.5, 9.9 and, beyond [x_max], at 12.5; on [Grid(4, 0, 4)]
    the left edge 1.0 has the weights [(1, 0)] and gives the value stored in
    cell 1, and 4.5 gives what 0.5 gives. *)
Theorem interpolate_blends (f : grid64.Field) (x : double) :
  wf64.Field_ok f ->
  (grid64.interpolate f x = None <->
   grid64.cell_index (grid64.grid_ f) x = None \/
   grid64.cell_index (grid64.grid_ f)
     (grid64.wrap_position (grid64.grid_ f) x) = None) /\
  (forall idx idx',
     grid64.cell_index (grid64.grid_ f) x = Some idx ->
     grid64.cell_index (grid64.grid_ f)
       (grid64.wrap_position (grid64.grid_ f) x) = Some idx' ->
     exists w_left w_right a b,
       grid64.interpolation_weights (grid64.grid_ f) x = Some (w_left, w_right) /\
       w_right = ((grid64.wrap_position (grid64.grid_ f) x
                   - grid64.cell_left (grid64.grid_ f) idx')
                  * grid64.inv_dx_ (grid64.grid_ f))%float /\
       w_left = (1 - w_right)%float /\
       grid64.wrap_index (grid64.grid_ f) (idx + 1)
       = Some ((idx + 1) mod grid64.n_cells (grid64.grid_ f)) /\
       grid64.at_ f idx = Some a /\
       grid64.at_ f ((idx + 1) mod grid64.n_cells (grid64.grid_ f)) = Some b /\
       grid64.interpolate f x = Some (w_left * a + w_right * b)%float) /\
  (exists g c,
     grid64.Grid_ctor 10 0 10 grid.Periodic = inr g /\
     grid64.Field_ctor true g 5 = inr c /\
     grid64.interpolate c 0 = Some 5%float /\
     grid64.interpolate c 5.5 = Some 5%float /\
     grid64.interpolate c 0x1.3cccccccccccdp+3 = Some 5%float /\
     grid64.interpolate c 12.5 = Some 5%float) /\
  (exists g,
     grid64.Grid_ctor 4 0 4 grid.Periodic = inr g /\
     grid64.interpolation_weights g 1 = Some (1, 0)%float /\
     grid64.interpolate (grid64.mkField g [0; 1; 2; 3]%float) 1 = Some 1%float /\
     grid64.interpolate (grid64.mkField g [0; 1; 2; 3]%float) 4.5
     = grid64.interpolate (grid64.mkField g [0; 1; 2; 3]%float) 0.5).
Proof.
  intros Hf. pose proof (field64_n f Hf) as Hn.
  assert (Hv : wf64.valid (grid64.grid_ f)) by exact (proj1 Hf).
  set (g := grid64.grid_ f) in *.
  assert (Hblend : forall idx idx',
     grid64.cell_index g x = Some idx ->
     grid64.cell_index g (grid64.wrap_position g x) = Some idx' ->
     exists a b,
       grid64.wrap_index g (idx + 1) = Some ((idx + 1) mod grid64.n_cells_ g) /\
       grid64.at_ f idx = Some a /\
       grid64.at_ f ((idx + 1) mod grid64.n_cells_ g) = Some b /\
       grid64.interpolate f x
       = Some ((1 - (grid64.wrap_position g x - grid64.cell_left g idx')
                    * grid64.inv_dx_ g) * a
               + ((grid64.wrap_position g x - grid64.cell_left g idx')
                  * grid64.inv_dx_ g) * b)%float).
  { intros idx idx' Hc Hc'.
    pose proof (cell_index64_range g x idx Hv Hc) as Hr.
    assert (Hnext : is_ptrdiff_t (idx + 1)) by (apply small_is_ptrdiff_t; lia).
    pose proof (wrap_index64_mod g (idx + 1) Hn Hnext) as Hwi.
    assert (Hb : 0 <= (idx + 1) mod grid64.n_cells_ g < grid64.n_cells_ g)
      by (apply Z.mod_pos_bound; lia).
    destruct (at64_in_range f idx Hf) as [a Ha]; [fold g; lia|].
    destruct (at64_in_range f _ Hf Hb) as [b Hbv].
    exists a, b. repeat (split; [assumption|]).
    unfold grid64.interpolate, grid64.interpolation_weights. fold g.
    rewrite Hc, Hc'.
    rewrite to_ptrdiff_t_id by (apply small_is_ptrdiff_t; lia).
    unfold ptrdiff_add.
    rewrite fits_ptrdiff_t_true by exact Hnext.
    rewrite Hwi, Ha, Hbv. reflexivity. }
  split; [|split; [|split]].
  - split.
    + intros Hnone.
      destruct (grid64.cell_index g x) as [idx|] eqn:Hc; [|now left].
      destruct (grid64.cell_index g (grid64.wrap_position g x)) as [idx'|] eqn:Hc';
        [|now right].
      destruct (Hblend idx idx' eq_refl eq_refl) as (a & b & _ & _ & _ & Hi).
      congruence.
    + unfold grid64.interpolate, grid64.interpolation_weights. fold g.
      intros [Hc | Hc']; [now rewrite Hc|].
      rewrite Hc'. now destruct (grid64.cell_index g x).
  - intros idx idx' Hc Hc'.
    destruct (Hblend idx idx' Hc Hc') as (a & b & Hwi & Ha & Hb & Hi).
    eexists _, _, a, b.
    split; [unfold grid64.interpolation_weights; fold g; rewrite Hc'; reflexivity|].
    split; [reflexivity|]. split; [reflexivity|].
    repeat (split; [assumption|]). exact Hi.
  - eexists _, _. split; [reflexivity|]. split; [reflexivity|].
    repeat split; vm_compute; reflexivity.
  - eexists. split; [reflexivity|]. repeat split; vm_compute; reflexivity.
Qed.

Lemma field64_ramp_ok : wf64.Field_ok wf64.field_ramp.
Proof.
  split; [exact valid64_grid_0_4|]. split; [reflexivity|].
  vm_compute. discriminate.
Qed.

Lemma interpolate_blends_witness :
  exists w_left w_right a b,
    grid64.interpolation_weights wf64.grid_0_4 1.5 = Some (w_left, w_right) /\
    grid64.at_ wf64.field_ramp 1 = Some a /\
    grid64.at_ wf64.field_ramp ((1 + 1) mod 4) = Some b /\
    grid64.interpolate wf64.field_ramp 1.5 = Some (w_left * a + w_right * b)%float.
Proof.
  destruct (interpolate_blends wf64.field_ramp 1.5 field64_ramp_ok)
    as (_ & Hblend & _).
  destruct (Hblend 1 1 eq_refl eq_refl)
    as (wl & wr & a & b & Hw & _ & _ & _ & Ha & Hb & Hi).
  exists wl, wr, a, b. repeat split; assumption.
Defined.

(** C4 as stated fails in binary64.  On [Grid(7, -1, 1)] at the left edge
    [x = cell_left(5)] the cell found is 4 and the weights are
    [(2^-51, 1 - 2^-51)], not [(1, 0)]: of a field that holds 1 in cell 5 and
    0 elsewhere [interpolate(x)] returns [0.9999999999999996], not the value
    stored in cell 5.  On the field of constant 5.0 over [Grid(10, 0, 10)],
    [interpolate(0.06)] returns [4.999999999999999].  On
    [Grid(4, -2^1023, 2^1023)], whose length overflows, [dx] is infinite,
    [inv_dx_] is 0 and [cell_left(0)] is a NaN: both weights are NaN, which
    do not sum to one, and a constant field is interpolated to NaN. *)
Lemma interpolate_not_exact :
  (exists g,
     grid64.Grid_ctor 7 (-1) 1 grid.Periodic = inr g /\
     grid64.cell_index g (grid64.cell_left g 5) = Some 4 /\
     grid64.interpolation_weights g (grid64.cell_left g 5)
     = Some (0x1p-51, 0x1.ffffffffffffcp-1)%float /\
     grid64.at_ (wf64.field_pulse g) 5 = Some 1%float /\
     grid64.interpolate (wf64.field_pulse g) (grid64.cell_left g 5)
     = Some 0x1.ffffffffffffcp-1%float) /\
  (exists g c,
     grid64.Grid_ctor 10 0 10 grid.Periodic = inr g /\
     grid64.Field_ctor true g 5 = inr c /\
     grid64.interpolate c 0x1.eb851eb851eb8p-5 = Some 0x1.3ffffffffffffp+2%float) /\
  (exists g c,
     grid64.Grid_ctor 4 (-0x1p+1023) 0x1p+1023 grid.Periodic = inr g /\
     grid64.Field_ctor true g 5 = inr c /\
     lt (grid64.x_min g) (grid64.x_max g) = true /\
     grid64.cell_index g 1 = Some 0 /\
     grid64.interpolation_weights g 1 = Some (nan, nan) /\
     (nan + nan)%float <> 1%float /\
     grid64.interpolate c 1 = Some nan).
Proof.
  split; [|split].
  - eexists. split; [reflexivity|]. repeat split; vm_compute; reflexivity.
  - eexists _, _. split; [reflexivity|]. split; [reflexivity|].
    vm_compute. reflexivity.
  - eexists _, _. split; [reflexivity|]. split; [reflexivity|].
    repeat split; try (vm_compute; reflexivity).
    intros H. apply (f_equal is_nan) in H. vm_compute in H. discriminate.
Qed.

End Binary64Interpolation.

(** * Further properties of the code *)

(** ** Membership in the domain *)

Section Domain.
Local Open Scope Q_scope.

Lemma contains_range (g : grid.Grid) (y : Q) :
  grid.contains g y = true <-> grid.x_min_ g <= y /\ y < grid.x_max_ g.
Proof.
  unfold grid.contains. rewrite andb_true_iff, negb_true_iff.
  rewrite Qle_bool_iff. split.
  - intros [H1 H2]. split; [exact H1|].
    apply Qnot_le_lt. intros H. apply Qle_bool_iff in H. congruence.
  - intros [H1 H2]. split; [exact H1|].
    destruct (Qle_bool (grid.x_max_ g) y) eqn:E; [|reflexivity].
    apply Qle_bool_iff in E. lra.
Qed.

End Domain.

(** ** Cells *)

Section CellGeometry.
Import cxx.
Local Open Scope Q_scope.
Variable g : grid.Grid.
Hypothesis g_valid : wf.valid g.

Local Abbreviation F := (valid_facts g g_valid).

Lemma inject_Z_index (i : Z) :
  (0 <= i < grid.n_cells_ g)%Z ->
  0 <= inject_Z i /\ inject_Z i + 1 <= inject_Z (grid.n_cells_ g).
Proof.
  intros Hi. split.
  - change 0 with (inject_Z 0). rewrite <- Zle_Qle. lia.
  - change 1 with (inject_Z 1). rewrite <- inject_Z_plus, <- Zle_Qle. lia.
Qed.

Lemma cell_right_eq (i : Z) :
  (0 <= i < grid.n_cells_ g)%Z ->
  grid.cell_right g i == grid.cell_left g i + grid.dx_ g.
Proof.
  intros Hi. pose proof (wf.gf_n_size g F) as Hs.
  unfold grid.cell_right, grid.cell_left, to_double.
  rewrite to_size_t_id by (unfold is_size_t; lia).
  rewrite inject_Z_plus. change (inject_Z 1) with 1. ring.
Qed.

(** Edges and centers of the cells. *)
Lemma cell_edges (i : Z) :
  (0 <= i < grid.n_cells g)%Z ->
  grid.cell_left g 0 == grid.x_min g /\
  grid.cell_right g (grid.n_cells g - 1) == grid.x_max g /\
  grid.cell_right g i == grid.cell_left g i + grid.dx g /\
  grid.cell_center g i == (grid.cell_left g i + grid.cell_right g i) / 2 /\
  ((i + 1 < grid.n_cells g)%Z -> grid.cell_right g i == grid.cell_left g (i + 1)) /\
  grid.x_min g <= grid.cell_left g i /\
  grid.cell_left g i < grid.cell_center g i /\
  grid.cell_center g i < grid.cell_right g i /\
  grid.cell_right g i <= grid.x_max g.
Proof.
  unfold grid.n_cells, grid.x_min, grid.x_max, grid.dx. intros Hi.
  pose proof (wf.gf_n_pos g F) as Hn. pose proof (wf.gf_dx_pos g F) as Hd.
  pose proof (wf.gf_dx_n g F) as Hdn. pose proof (wf.gf_length g F) as HL.
  pose proof (cell_right_eq i Hi) as Hr.
  pose proof (cell_right_eq (grid.n_cells_ g - 1) ltac:(lia)) as Hlast.
  destruct (inject_Z_index i Hi) as [Hi0 Hi1].
  assert (Hl : grid.cell_left g i == grid.x_min_ g + inject_Z i * grid.dx_ g)
    by reflexivity.
  assert (Hc : grid.cell_center g i == grid.cell_left g i + grid.dx_ g * (1 # 2)).
  { unfold grid.cell_center, grid.cell_left, to_double. ring. }
  split; [unfold grid.cell_left, to_double; change (inject_Z 0) with 0; ring|].
  split.
  { rewrite Hlast. unfold grid.cell_left, to_double, Z.sub.
    rewrite inject_Z_plus. change (inject_Z (Z.opp 1%Z)) with (-1).
    rewrite HL in Hdn. lra. }
  split; [exact Hr|].
  split; [rewrite Hc, Hr; field|].
  split.
  { intros _. rewrite Hr. unfold grid.cell_left, to_double.
    rewrite inject_Z_plus. change (inject_Z 1) with 1. ring. }
  assert (Hend : (inject_Z i + 1) * grid.dx_ g
                 <= inject_Z (grid.n_cells_ g) * grid.dx_ g)
    by (apply Qmult_le_compat_r; lra).
  assert (Hstart : 0 <= inject_Z i * grid.dx_ g)
    by (apply Qmult_le_0_compat; lra).
  rewrite Hc, Hr, Hl. rewrite HL in Hdn.
  repeat split; lra.
Qed.


Lemma Qfloor_unique (q : Q) (i : Z) :
  inject_Z i <= q -> q < inject_Z i + 1 -> Qfloor q = i.
Proof.
  intros Hlo Hhi.
  pose proof (Qfloor_le q) as H1. pose proof (Qlt_floor q) as H2.
  rewrite inject_Z_plus in H2. change (inject_Z 1) with 1 in H2.
  assert (Qfloor q < i + 1)%Z.
  { rewrite Zlt_Qlt, inject_Z_plus. change (inject_Z 1) with 1. lra. }
  assert (i < Qfloor q + 1)%Z.
  { rewrite Zlt_Qlt, inject_Z_plus. change (inject_Z 1) with 1. lra. }
  lia.
Qed.

(** The cell coordinate times [dx] is the wrapped offset. *)
Lemma coordinate_dx (y : Q) :
  (y - grid.x_min_ g) * grid.inv_dx_ g * grid.dx_ g == y - grid.x_min_ g.
Proof.
  pose proof (wf.gf_inv_dx g F) as Hid.
  transitivity ((y - grid.x_min_ g) * (grid.inv_dx_ g * grid.dx_ g)); [ring|].
  rewrite Hid. ring.
Qed.

Hypothesis index_fits : (grid.n_cells g - 1 <= PTRDIFF_MAX)%Z.

Lemma cell_index_in_cell (x : Q) (i : Z) :
  (0 <= i < grid.n_cells_ g)%Z ->
  grid.cell_left g i <= x -> x < grid.cell_right g i ->
  grid.cell_index g x = Some i.
Proof.
  intros Hi Hlo Hhi.
  pose proof (wf.gf_dx_pos g F) as Hd. pose proof (wf.gf_inv_dx_pos g F) as Hinv.
  pose proof (wf.gf_dx_n g F) as Hdn. pose proof (wf.gf_length g F) as HL.
  pose proof (wf.gf_inv_dx g F) as Hid.
  destruct (inject_Z_index i Hi) as [Hi0 Hi1].
  rewrite (cell_right_eq i Hi) in Hhi.
  unfold grid.cell_left, to_double in *.
  assert (Hin : grid.wrap_position g x == x).
  { apply wrap_position_inside; [exact g_valid | nra | nra]. }
  destruct (cell_index_floor g g_valid index_fits x) as [Hc _].
  rewrite Hc. f_equal. apply Qfloor_unique.
  - rewrite Hin.
    assert (E : inject_Z i == inject_Z i * grid.dx_ g * grid.inv_dx_ g).
    { transitivity (inject_Z i * (grid.inv_dx_ g * grid.dx_ g)); [rewrite Hid|]; ring. }
    rewrite E. apply Qmult_le_compat_r; lra.
  - rewrite Hin.
    assert (E : inject_Z i + 1 == (inject_Z i * grid.dx_ g + grid.dx_ g) * grid.inv_dx_ g).
    { transitivity ((inject_Z i + 1) * (grid.inv_dx_ g * grid.dx_ g)); [rewrite Hid|]; ring. }
    rewrite E. apply Qmult_lt_compat_r; lra.
Qed.

(** The center of a cell lies in the cell. *)
Lemma cell_center_index (i : Z) :
  (0 <= i < grid.n_cells g)%Z ->
  grid.cell_index g (grid.cell_center g i) = Some i.
Proof.
  intros Hi. pose proof (wf.gf_dx_pos g F) as Hd.
  assert (Hc : grid.cell_center g i == grid.cell_left g i + grid.dx_ g * (1 # 2)).
  { unfold grid.cell_center, grid.cell_left, to_double. ring. }
  apply cell_index_in_cell; [exact Hi | |]; rewrite Hc.
  - lra.
  - rewrite (cell_right_eq i Hi). lra.
Qed.


Lemma cell_of_position (x : Q) :
  exists i,
    grid.cell_index g x = Some i /\ (0 <= i < grid.n_cells_ g)%Z /\
    grid.cell_left g i <= grid.wrap_position g x /\
    grid.wrap_position g x < grid.cell_left g i + grid.dx_ g.
Proof.
  destruct (cell_index_floor g g_valid index_fits x) as [Hc Hr].
  set (c := (grid.wrap_position g x - grid.x_min_ g) * grid.inv_dx_ g) in *.
  exists (Qfloor c). split; [exact Hc|]. split; [exact Hr|].
  pose proof (Qfloor_le c) as H1. pose proof (Qlt_floor c) as H2.
  rewrite inject_Z_plus in H2. change (inject_Z 1) with 1 in H2.
  pose proof (coordinate_dx (grid.wrap_position g x)) as Hcd. fold c in Hcd.
  pose proof (wf.gf_dx_pos g F) as Hd.
  unfold grid.cell_left, to_double.
  split; nra.
Qed.

End CellGeometry.

Lemma grid_0_4_index_fits : grid.n_cells wf.grid_0_4 - 1 <= cxx.PTRDIFF_MAX.
Proof. vm_compute. discriminate. Qed.



(** ** Cell centers *)

Section CellCenters.
Import cxx.

Lemma fill_slots (h : nat -> Q) (m : nat) (l : list Q) :
  (m <= List.length l)%nat ->
  List.length (foldl (fun c i => <[i := h i]> c) l (seq 0 m)) = List.length l /\
  forall i, (i < m)%nat ->
    foldl (fun c i => <[i := h i]> c) l (seq 0 m) !! i = Some (h i).
Proof.
  induction m as [|m IH]; intros Hm.
  - simpl. split; [reflexivity | intros i Hi; lia].
  - destruct IH as [IHl IHs]; [lia|].
    rewrite seq_S, foldl_app. simpl. split.
    + now rewrite length_insert.
    + intros i Hi. destruct (decide (i = m)) as [->|Hne].
      * apply list_lookup_insert_eq. lia.
      * rewrite list_lookup_insert_ne by congruence. apply IHs. lia.
Qed.

(** X9. On a valid Grid [cell_centers] returns whenever the cell count is
    at most [max_size()] and memory is delivered; it throws
    [std::length_error] for a larger cell count and [std::bad_alloc] when
    memory is not delivered.  Whenever it returns, it returns one position
    per cell, the position in slot [i] is [cell_center(i)], it lies in the
    domain, and [cell_index] maps it back to [i]. *)
Theorem cell_centers_round_trip (g : grid.Grid) (mem : bool) :
  wf.valid g ->
  (grid.n_cells g <= vector_max_size ->
   exists centers, grid.cell_centers true g = inr centers) /\
  (vector_max_size < grid.n_cells g ->
   grid.cell_centers mem g = inl length_error) /\
  (grid.n_cells g <= vector_max_size ->
   grid.cell_centers false g = inl bad_alloc) /\
  (forall centers,
     grid.cell_centers mem g = inr centers ->
     Z.of_nat (List.length centers) = grid.n_cells g /\
     forall i, 0 <= i < grid.n_cells g ->
       centers !! Z.to_nat i = Some (grid.cell_center g i) /\
       grid.cell_index g (grid.cell_center g i) = Some i /\
       grid.contains g (grid.cell_center g i) = true).
Proof.
  intros Hv. unfold grid.cell_centers, grid.n_cells.
  pose proof (wf.gf_n_pos g (valid_facts g Hv)) as Hn.
  split.
  { intros Hmax. apply Z.ltb_ge in Hmax. rewrite Hmax, andb_false_r. eauto. }
  split.
  { intros Hmax. apply Z.ltb_lt in Hmax. now rewrite Hmax. }
  split.
  { intros Hmax. apply Z.ltb_ge in Hmax. rewrite Hmax.
    replace (0 <? grid.n_cells_ g) with true by (symmetry; apply Z.ltb_lt; lia).
    reflexivity. }
  intros centers.
  destruct (vector_max_size <? grid.n_cells_ g) eqn:E; [discriminate|].
  apply Z.ltb_ge in E.
  destruct (_ && _); [discriminate|].
  intros H. inversion H as [Hc]; clear H.
  destruct (fill_slots (fun i => grid.cell_center g (Z.of_nat i))
              (Z.to_nat (grid.n_cells_ g))
              (replicate (Z.to_nat (grid.n_cells_ g)) 0%Q)) as [Hl Hs].
  { now rewrite length_replicate. }
  rewrite length_replicate in Hl.
  assert (Hfits : grid.n_cells g - 1 <= PTRDIFF_MAX).
  { assert (vector_max_size <= PTRDIFF_MAX) by (vm_compute; discriminate).
    unfold grid.n_cells. lia. }
  split; [rewrite Hl; lia|].
  intros i Hi. split; [|split].
  - rewrite (Hs (Z.to_nat i)) by lia. now rewrite Z2Nat.id by lia.
  - now apply cell_center_index.
  - destruct (cell_edges g Hv i Hi) as (_ & _ & _ & _ & _ & H1 & H2 & H3 & H4).
    unfold grid.contains. apply andb_true_intro. split.
    + apply Qle_bool_iff. unfold grid.x_min in *. lra.
    + apply negb_true_iff. destruct (Qle_bool _ _) eqn:Eb; [|reflexivity].
      apply Qle_bool_iff in Eb. unfold grid.x_max in *. lra.
Qed.

End CellCenters.

Lemma cell_centers_round_trip_witness :
  exists centers,
    grid.cell_centers true wf.grid_0_4 = inr centers /\
    centers !! 1%nat = Some (grid.cell_center wf.grid_0_4 1).
Proof.
  destruct (cell_centers_round_trip wf.grid_0_4 true valid_grid_0_4)
    as (Hreturns & _ & _ & Hslots).
  destruct Hreturns as [centers E]; [vm_compute; discriminate|].
  exists centers. split; [exact E|].
  destruct (Hslots centers E) as [_ Hs].
  apply (Hs 1). vm_compute. split; [discriminate | reflexivity].
Defined.

(** ** Field storage *)

Section FieldStorage.
Import cxx.

Lemma at_lookup (f : grid.Field) (i : Z) :
  0 <= i < grid.size f -> grid.at_ f i = grid.data_ f !! Z.to_nat i.
Proof.
  intros Hi. unfold grid.at_.
  replace (0 <=? i) with true by (symmetry; apply Z.leb_le; lia).
  replace (i <? grid.size f) with true by (symmetry; apply Z.ltb_lt; lia).
  reflexivity.
Qed.

Lemma at_outside (f : grid.Field) (i : Z) :
  ~ (0 <= i < grid.size f) -> grid.at_ f i = None.
Proof.
  intros Hi. unfold grid.at_.
  destruct (0 <=? i) eqn:E1; [|reflexivity].
  destruct (i <? grid.size f) eqn:E2; [|reflexivity].
  apply Z.leb_le in E1. apply Z.ltb_lt in E2. lia.
Qed.

(** X10. [fill(val)] keeps the grid and the size of a Field and leaves
    [val] in every cell, whatever the cells held; an index outside the Field
    is not readable afterwards either. *)
Theorem fill_overwrites (f : grid.Field) (val : Q) :
  grid.grid_ (grid.fill f val) = grid.grid_ f /\
  grid.size (grid.fill f val) = grid.size f /\
  (forall i, 0 <= i < grid.size f -> grid.at_ (grid.fill f val) i = Some val) /\
  (forall i, ~ (0 <= i < grid.size f) -> grid.at_ (grid.fill f val) i = None) /\
  (forall u, grid.fill (grid.fill f u) val = grid.fill f val) /\
  grid.zero f = grid.fill f 0%Q.
Proof.
  assert (Hs : grid.size (grid.fill f val) = grid.size f).
  { unfold grid.size, grid.fill. simpl. now rewrite length_replicate. }
  split; [reflexivity|]. split; [exact Hs|]. split; [|split; [|split]].
  - intros i Hi. rewrite at_lookup by (rewrite Hs; exact Hi).
    unfold grid.fill. simpl. apply lookup_replicate_2.
    unfold grid.size in Hi. lia.
  - intros i Hi. apply at_outside. now rewrite Hs.
  - intros u. unfold grid.fill. simpl. now rewrite length_replicate.
  - reflexivity.
Qed.

(** X11. Writing a cell and reading it back: a write through [operator[]]
    is defined exactly where a read is; after it the cell holds the value
    written, every other cell holds what it held, and the grid and the size
    are the same. *)
Theorem set_at_read_back (f : grid.Field) (i : Z) (v : Q) :
  (grid.set_at f i v = None <-> grid.at_ f i = None) /\
  (forall f', grid.set_at f i v = Some f' ->
     grid.at_ f' i = Some v /\
     (forall j, j <> i -> grid.at_ f' j = grid.at_ f j) /\
     grid.size f' = grid.size f /\
     grid.grid_ f' = grid.grid_ f).
Proof.
  unfold grid.set_at, grid.at_.
  destruct ((0 <=? i) && (i <? grid.size f)) eqn:E.
  - apply andb_true_iff in E. destruct E as [E1 E2].
    apply Z.leb_le in E1. apply Z.ltb_lt in E2.
    assert (Hlt : (Z.to_nat i < List.length (grid.data_ f))%nat)
      by (unfold grid.size in E2; lia).
    split.
    + split; [discriminate|]. intros H.
      apply lookup_ge_None in H. lia.
    + intros f' H. inversion H; subst f'; clear H.
      assert (Hs : grid.size (grid.mkField (grid.grid_ f)
                     (<[Z.to_nat i := v]> (grid.data_ f))) = grid.size f).
      { unfold grid.size. simpl. now rewrite length_insert. }
      rewrite Hs. simpl.
      replace (0 <=? i) with true by (symmetry; apply Z.leb_le; lia).
      replace (i <? grid.size f) with true by (symmetry; apply Z.ltb_lt; lia).
      simpl. split; [now apply list_lookup_insert_eq|].
      split; [|split; reflexivity].
      intros j Hj. destruct ((0 <=? j) && (j <? grid.size f)) eqn:Ej; [|reflexivity].
      apply andb_true_iff in Ej. destruct Ej as [Ej1 _]. apply Z.leb_le in Ej1.
      apply list_lookup_insert_ne. lia.
  - split; [tauto|]. discriminate.
Qed.

(** X12. On a valid Grid [Field::Field] throws [std::length_error] when the
    cell count exceeds [max_size()], [std::bad_alloc] when memory is not
    delivered, and otherwise returns a Field on that Grid with one cell per
    grid cell, each holding the initial value. *)
Theorem Field_ctor_spec (mem : bool) (g : grid.Grid) (v0 : Q) :
  wf.valid g ->
  match grid.Field_ctor mem g v0 with
  | inl e =>
      (e = length_error /\ vector_max_size < grid.n_cells g) \/
      (e = bad_alloc /\ mem = false /\ grid.n_cells g <= vector_max_size)
  | inr f =>
      wf.Field_ok f /\ grid.grid_ f = g /\ grid.size f = grid.n_cells g /\
      forall i, 0 <= i < grid.n_cells g -> grid.at_ f i = Some v0
  end.
Proof.
  intros Hv. pose proof (wf.gf_n_pos g (valid_facts g Hv)) as Hn.
  destruct (grid.Field_ctor mem g v0) as [e | f] eqn:E.
  - unfold grid.Field_ctor in E.
    destruct (vector_max_size <? grid.n_cells g) eqn:E1.
    + inversion E. left. split; [reflexivity | now apply Z.ltb_lt].
    + apply Z.ltb_ge in E1. destruct mem; simpl in E.
      * rewrite andb_false_r in E. discriminate.
      * destruct (0 <? grid.n_cells g); [|discriminate].
        inversion E. right. tauto.
  - destruct (Field_ctor_ok mem g v0 f Hv E) as [Hok Hg].
    destruct Hok as (Hv' & Hs & Hm).
    split; [now repeat split|]. split; [exact Hg|].
    rewrite Hg in Hs. split; [exact Hs|].
    intros i Hi. rewrite at_lookup by lia.
    unfold grid.Field_ctor in E.
    destruct (vector_max_size <? grid.n_cells g); [discriminate|].
    destruct (_ && _); [discriminate|].
    inversion E; subst f. simpl. apply lookup_replicate_2.
    unfold grid.n_cells in *. lia.
Qed.

End FieldStorage.

Lemma set_at_read_back_witness :
  exists f',
    grid.set_at wf.field_const_5 2 (7 # 1) = Some f' /\
    grid.at_ f' 2 = Some (7 # 1)%Q /\
    grid.at_ f' 3 = grid.at_ wf.field_const_5 3.
Proof.
  destruct (set_at_read_back wf.field_const_5 2 (7 # 1)) as [_ H].
  eexists. split; [reflexivity|].
  destruct (H _ eq_refl) as (Hr & Ho & _).
  split; [exact Hr | apply Ho; discriminate].
Defined.

Lemma Field_ctor_spec_witness :
  exists f, grid.Field_ctor true wf.grid_0_4 (5 # 1) = inr f /\
            grid.at_ f 3 = Some (5 # 1)%Q.
Proof.
  pose proof (Field_ctor_spec true wf.grid_0_4 (5 # 1) valid_grid_0_4) as H.
  destruct (grid.Field_ctor true wf.grid_0_4 (5 # 1)) as [e | f] eqn:E;
    [vm_compute in E; discriminate|].
  exists f. split; [reflexivity|].
  destruct H as (_ & _ & _ & Hat). apply Hat.
  vm_compute. split; [discriminate | reflexivity].
Defined.

(** ** More on interpolation *)

Section InterpolationMore.
Import cxx.
Local Open Scope Q_scope.
Variable f : grid.Field.
Hypothesis f_ok : wf.Field_ok f.

Local Abbreviation g := (grid.grid_ f).
Local Abbreviation Hv := (field_grid_valid f f_ok).
Local Abbreviation Hfits := (field_index_fits f f_ok).

(** [interpolate] in terms of the cell of [x] and the offset in it. *)
Lemma interpolate_blend (x : Q) :
  exists i a b w,
    grid.cell_index g x = Some i /\ (0 <= i < grid.n_cells_ g)%Z /\
    grid.at_ f i = Some a /\
    grid.at_ f ((i + 1) mod grid.n_cells_ g) = Some b /\
    w = (grid.wrap_position g x - grid.cell_left g i) * grid.inv_dx_ g /\
    0 <= w /\ w < 1 /\
    w * grid.dx_ g == grid.wrap_position g x - grid.cell_left g i /\
    grid.interpolate f x = Some ((1 - w) * a + w * b).
Proof.
  destruct (interpolate_defined f f_ok x)
    as (idx & idx_next & wl & wr & a & b & Hc & Hr & Hw & Hwr & Hwl & Hwi & Ha & Hb & Hi).
  destruct (cell_of_position g Hv Hfits x) as (i' & Hc' & _ & Hlo & Hhi).
  assert (i' = idx) by congruence. subst i'.
  assert (Hnext : idx_next = ((idx + 1) mod grid.n_cells_ g)%Z).
  { assert (Hp : is_ptrdiff_t (idx + 1)).
    { apply small_is_ptrdiff_t. pose proof (field_n_fits f f_ok).
      unfold grid.n_cells in *. lia. }
    rewrite (wrap_index_mod g Hv (field_n_fits f f_ok) _ Hp) in Hwi.
    unfold grid.n_cells in Hwi. congruence. }
  subst idx_next.
  exists idx, a, b, wr. subst wl.
  pose proof (wf.gf_dx_pos g (valid_facts g Hv)) as Hd.
  pose proof (wf.gf_inv_dx_pos g (valid_facts g Hv)) as Hinv.
  pose proof (wf.gf_inv_dx g (valid_facts g Hv)) as Hid.
  repeat (split; [assumption|]).
  set (d := grid.wrap_position g x - grid.cell_left g idx) in *.
  assert (Hd0 : 0 <= d) by (unfold d; lra).
  assert (Hd1 : d < grid.dx_ g) by (unfold d; lra).
  assert (Hwd : wr * grid.dx_ g == d).
  { rewrite Hwr. transitivity (d * (grid.inv_dx_ g * grid.dx_ g)); [ring|].
    rewrite Hid. ring. }
  split; [rewrite Hwr; apply Qmult_le_0_compat; lra|].
  split; [|split; [exact Hwd | exact Hi]].
  assert (E : 1 == grid.dx_ g * grid.inv_dx_ g) by (rewrite <- Hid; ring).
  rewrite Hwr, E. apply Qmult_lt_compat_r; lra.
Qed.


End InterpolationMore.

Lemma field_ramp_ok : wf.Field_ok wf.field_ramp.
Proof.
  split; [exact valid_grid_0_4|]. split; [reflexivity|].
  vm_compute. discriminate.
Qed.


(** ** More on the particle container *)

Section Capacity.
Import cxx particles.
Local Open Scope method_scope.

Lemma vector_reserve_grows (mem : bool) (n : Z) (v v' : vector) :
  vector_reserve mem n v = inr v' ->
  elems v' = elems v /\ n <= cap v' /\ cap v <= cap v'.
Proof.
  unfold vector_reserve.
  destruct (vector_max_size <? n); [discriminate|].
  destruct (n <=? cap v) eqn:E.
  - intros H. inversion H; subst v'. apply Z.leb_le in E. repeat split; lia.
  - destruct mem; [|discriminate]. apply Z.leb_gt in E.
    intros H. inversion H; subst v'. simpl. repeat split; lia.
Qed.

(** X16. [reserve(n)] never changes the samples, however it ends, and
    never lowers a capacity; when it returns, the three sequences have
    capacity at least [n]. *)
Theorem reserve_keeps_samples (a : allocator) (n : Z) (p p' : Particles)
    (o : outcome unit) :
  reserve a n p = (o, p') ->
  elems (x_ p') = elems (x_ p) /\
  elems (v_ p') = elems (v_ p) /\
  elems (f_ p') = elems (f_ p) /\
  size p' = size p /\
  cap (x_ p) <= cap (x_ p') /\ cap (v_ p) <= cap (v_ p') /\
  cap (f_ p) <= cap (f_ p') /\
  match o with
  | Returned _ => n <= capacity p' /\ n <= cap (v_ p') /\ n <= cap (f_ p')
  | Thrown e => e = length_error \/ e = bad_alloc
  | Undefined => False
  end.
Proof.
  intros E. apply three_statements in E.
  assert (Herr : forall m v e, vector_reserve m n v = inl e ->
                   e = length_error \/ e = bad_alloc).
  { intros m v e. unfold vector_reserve.
    destruct (vector_max_size <? n); [intros H; inversion H; now left|].
    destruct (n <=? cap v); [discriminate|].
    destruct m; [discriminate|]. intros H; inversion H; now right. }
  unfold size, vsize, capacity.
  destruct o as [[]|e|].
  - destruct E as (x' & v' & f' & Ex & Ev & Ef & ->).
    apply vector_reserve_grows in Ex, Ev, Ef. simpl.
    destruct Ex as (-> & ? & ?), Ev as (-> & ? & ?), Ef as (-> & ? & ?).
    repeat split; assumption.
  - destruct E as [[He ->] | [(x' & Ex & He & ->) | (x' & v' & Ex & Ev & He & ->)]];
      apply Herr in He; simpl.
    + repeat split; try lia; exact He.
    + apply vector_reserve_grows in Ex. destruct Ex as (-> & ? & ?).
      repeat split; try lia; exact He.
    + apply vector_reserve_grows in Ex, Ev.
      destruct Ex as (-> & ? & ?), Ev as (-> & ? & ?).
      repeat split; try lia; exact He.
  - contradiction.
Qed.

Lemma vector_resize_elems (mem : bool) (n : Z) (val : Q) (v v' : vector) :
  0 <= n -> vector_resize mem n val v = inr v' ->
  elems v' = take (Z.to_nat n) (elems v)
             ++ replicate (Z.to_nat (n - vsize v)) val.
Proof.
  intros Hn. unfold vector_resize.
  destruct (n <=? vsize v) eqn:E.
  - apply Z.leb_le in E. intros H. inversion H; subst v'. simpl.
    replace (Z.to_nat (n - vsize v)) with 0%nat by lia.
    simpl. now rewrite app_nil_r.
  - apply Z.leb_gt in E.
    assert (Ht : take (Z.to_nat n) (elems v) = elems v).
    { apply take_ge. unfold vsize in E. lia. }
    destruct (n <=? cap v).
    + intros H. inversion H; subst v'. simpl. now rewrite Ht.
    + destruct (vector_max_size <? n); [discriminate|].
      destruct mem; [|discriminate].
      intros H. inversion H; subst v'. simpl. now rewrite Ht.
Qed.

(** X17. When [resize(n, x_val, v_val, f_val)] returns, each sequence is
    its first [n] former elements followed, if it had fewer, by copies of
    the value given for it; [resize(n)] is the same with zeros. *)
Theorem resize_contents (a : allocator) (n : Z) (x_val v_val f_val : Q)
    (p p' : Particles) :
  is_size_t n ->
  resize_with a n x_val v_val f_val p = (Returned tt, p') ->
  elems (x_ p') = take (Z.to_nat n) (elems (x_ p))
                  ++ replicate (Z.to_nat (n - vsize (x_ p))) x_val /\
  elems (v_ p') = take (Z.to_nat n) (elems (v_ p))
                  ++ replicate (Z.to_nat (n - vsize (v_ p))) v_val /\
  elems (f_ p') = take (Z.to_nat n) (elems (f_ p))
                  ++ replicate (Z.to_nat (n - vsize (f_ p))) f_val /\
  size p' = n /\
  resize a n = resize_with a n 0 0 0.
Proof.
  intros [Hn _] E. pose proof (lengths_resize_with a n _ _ _ p p' Hn E) as (Hx & _ & _).
  apply three_statements in E.
  destruct E as (x' & v' & f' & Ex & Ev & Ef & ->).
  apply vector_resize_elems in Ex, Ev, Ef; try assumption. simpl in *.
  repeat split; assumption.
Qed.

(** X18. A sample that [push_back] appended is the one [pop_back] removes:
    when [push_back] returns, [pop_back] returns next and the three
    sequences hold what they held before the two calls. *)
Theorem push_back_pop_back (a : allocator) (x_val v_val f_val : Q)
    (p p1 : Particles) :
  push_back a x_val v_val f_val p = (Returned tt, p1) ->
  exists p2,
    pop_back p1 = (Returned tt, p2) /\
    elems (x_ p2) = elems (x_ p) /\
    elems (v_ p2) = elems (v_ p) /\
    elems (f_ p2) = elems (f_ p) /\
    capacity p2 = capacity p1.
Proof.
  intros E. apply three_statements in E.
  destruct E as (x' & v' & f' & Ex & Ev & Ef & ->).
  apply vector_push_back_inr in Ex, Ev, Ef.
  destruct Ex as [Ex Hsx], Ev as [Ev _], Ef as [Ef _].
  assert (Hne : empty (mkParticles x' v' f') = false).
  { unfold empty, size. simpl. apply Z.eqb_neq. unfold vsize in *. lia. }
  assert (Hback : forall (l : list Q) y, take (Nat.pred (List.length (l ++ [y]))) (l ++ [y]) = l).
  { intros l y. rewrite length_app. simpl.
    replace (Nat.pred (List.length l + 1)) with (List.length l) by lia.
    apply take_app_length. }
  assert (Hpos : forall (l : list Q) y u,
            0 < vsize (mkvector (l ++ [y]) u)).
  { intros l y u. unfold vsize. simpl. rewrite length_app. simpl. lia. }
  unfold pop_back. rewrite Hne.
  unfold bind, on_x_noexcept, on_v_noexcept, on_f_noexcept. simpl.
  destruct x' as [ex cx], v' as [ev cv], f' as [ef cf]. simpl in *. subst ex ev ef.
  rewrite !vector_pop_back_some by apply Hpos. simpl.
  eexists. split; [reflexivity|]. simpl. rewrite !Hback. tauto.
Qed.

(** X19. [pop_back] on an empty set breaks the contract of the function and
    leaves the set as it is; on a set with synchronized sequences that is
    not empty it returns and removes the last element of each sequence. *)
Theorem pop_back_last (p : Particles) :
  (empty p = true -> pop_back p = (Undefined, p)) /\
  (empty p = false -> wf.synchronized p ->
   exists p' x_last v_last f_last,
     pop_back p = (Returned tt, p') /\
     elems (x_ p) = elems (x_ p') ++ [x_last] /\
     elems (v_ p) = elems (v_ p') ++ [v_last] /\
     elems (f_ p) = elems (f_ p') ++ [f_last] /\
     size p' = size p - 1).
Proof.
  split.
  - intros He. unfold pop_back. now rewrite He.
  - intros He [Hxv Hvf]. unfold pop_back. rewrite He.
    unfold empty, size in He. apply Z.eqb_neq in He.
    assert (Hsplit : forall l : list Q, (0 < List.length l)%nat ->
              exists y, l = take (Nat.pred (List.length l)) l ++ [y]).
    { intros l Hl. destruct (lookup_lt_is_Some_2 l (Nat.pred (List.length l))) as [y Hy]; [lia|].
      exists y. rewrite <- (take_S_r l _ y Hy).
      symmetry. apply take_ge. lia. }
    unfold vsize in *.
    destruct (Hsplit (elems (x_ p))) as [xl Hx]; [lia|].
    destruct (Hsplit (elems (v_ p))) as [vl Hvl]; [lia|].
    destruct (Hsplit (elems (f_ p))) as [fl Hfl]; [lia|].
    unfold bind, on_x_noexcept, on_v_noexcept, on_f_noexcept.
    rewrite (vector_pop_back_some (x_ p)) by (unfold vsize; lia). simpl.
    rewrite (vector_pop_back_some (v_ p)) by (unfold vsize; lia). simpl.
    rewrite (vector_pop_back_some (f_ p)) by (unfold vsize; lia).
    eexists _, xl, vl, fl. split; [reflexivity|].
    unfold size, vsize. simpl.
    repeat split; try assumption.
    rewrite length_take. lia.
Qed.

(** X20. [push_back] on a set whose three sequences have spare capacity
    returns whatever the allocator would answer, and leaves the capacities as
    they are: no reallocation takes place. *)
Theorem push_back_within_capacity (a : allocator) (x_val v_val f_val : Q)
    (p : Particles) :
  vsize (x_ p) < cap (x_ p) ->
  vsize (v_ p) < cap (v_ p) ->
  vsize (f_ p) < cap (f_ p) ->
  exists p',
    push_back a x_val v_val f_val p = (Returned tt, p') /\
    cap (x_ p') = cap (x_ p) /\ cap (v_ p') = cap (v_ p) /\
    cap (f_ p') = cap (f_ p) /\
    size p' = size p + 1.
Proof.
  intros Hx Hv Hf.
  assert (Hroom : forall m val v, vsize v < cap v ->
            vector_push_back m val v = inr (mkvector (elems v ++ [val]) (cap v))).
  { intros m val v Hlt. unfold vector_push_back.
    replace (vsize v <? cap v) with true by (symmetry; apply Z.ltb_lt; lia).
    reflexivity. }
  eexists. split.
  - unfold push_back. apply three_statements_return; apply Hroom; assumption.
  - unfold size, vsize. simpl. rewrite length_app. simpl. repeat split. lia.
Qed.

End Capacity.

Lemma reserve_keeps_samples_witness :
  exists p',
    particles.reserve wf.plentiful 10 wf.three_samples = (particles.Returned tt, p') /\
    particles.elems (particles.x_ p') = particles.elems (particles.x_ wf.three_samples) /\
    10 <= particles.capacity p'.
Proof.
  eexists. split; [reflexivity|].
  destruct (reserve_keeps_samples wf.plentiful 10 wf.three_samples _ _ eq_refl)
    as (Hx & _ & _ & _ & _ & _ & _ & Hc & _).
  split; [exact Hx | exact Hc].
Defined.

Lemma resize_contents_witness :
  exists p',
    particles.resize_with wf.plentiful 5 (7 # 1) (8 # 1) (9 # 1) wf.three_samples
      = (particles.Returned tt, p') /\
    particles.elems (particles.x_ p')
      = take 5 (particles.elems (particles.x_ wf.three_samples))
        ++ replicate 2 (7 # 1)%Q.
Proof.
  eexists. split; [reflexivity|].
  assert (H5 : cxx.is_size_t 5) by (unfold cxx.is_size_t, cxx.SIZE_MAX; lia).
  exact (proj1 (resize_contents wf.plentiful 5 (7 # 1) (8 # 1) (9 # 1)
                  wf.three_samples _ H5 eq_refl)).
Defined.

Lemma push_back_pop_back_witness :
  exists p1 p2,
    particles.push_back wf.plentiful (1 # 2) 1 (1 # 10) wf.three_samples
      = (particles.Returned tt, p1) /\
    particles.pop_back p1 = (particles.Returned tt, p2) /\
    particles.elems (particles.x_ p2) = particles.elems (particles.x_ wf.three_samples).
Proof.
  eexists. 
  destruct (push_back_pop_back wf.plentiful (1 # 2) 1 (1 # 10) wf.three_samples _ eq_refl)
    as (p2 & Hpop & Hx & _).
  exists p2. split; [reflexivity|]. split; [exact Hpop | exact Hx].
Defined.

Lemma pop_back_last_witness :
  exists p', particles.pop_back wf.three_samples = (particles.Returned tt, p') /\
             particles.size p' = particles.size wf.three_samples - 1.
Proof.
  destruct (proj2 (pop_back_last wf.three_samples) eq_refl three_samples_synchronized)
    as (p' & xl & vl & fl & Hp & _ & _ & _ & Hs).
  exists p'. split; [exact Hp | exact Hs].
Defined.

Lemma push_back_within_capacity_witness :
  let p := particles.mkParticles (particles.mkvector [] 2)
             (particles.mkvector [] 2) (particles.mkvector [] 2) in
  exists p',
    particles.push_back wf.exhausted_after_x (1 # 2) 1 (1 # 10) p
      = (particles.Returned tt, p') /\
    particles.cap (particles.x_ p') = particles.cap (particles.x_ p).
Proof.
  intros p.
  destruct (push_back_within_capacity wf.exhausted_after_x (1 # 2) 1 (1 # 10) p)
    as (p' & Hp & Hc & _); try reflexivity.
  exists p'. split; [exact Hp | exact Hc].
Defined.

(** ** Bulk kernels *)

Section Kernels.
Import cxx particles.

(** A loop over the first [m] slots after [a] maps [h] over them. *)
Lemma for_each_slot_range (h : Q -> Q) (m a : nat) (s : list Q) :
  (a + m <= List.length s)%nat ->
  for_each_slot h (seq a m) s
  = Some (take a s ++ map h (take m (drop a s)) ++ drop (a + m) s).
Proof.
  revert a s. induction m as [|m IH]; intros a s Hlen.
  - simpl. rewrite Nat.add_0_r, take_drop. reflexivity.
  - destruct (lookup_lt_is_Some_2 s a) as [sa Hsa]; [lia|].
    simpl. rewrite Hsa.
    rewrite IH by (rewrite length_insert; lia).
    f_equal.
    assert (Hins : <[a := h sa]> s !! a = Some (h sa))
      by (apply list_lookup_insert_eq; lia).
    rewrite (take_S_r _ a (h sa) Hins), take_insert_ge by lia.
    rewrite !drop_insert_lt by lia.
    rewrite (drop_S s sa a Hsa). simpl.
    rewrite <- app_assoc. simpl.
    replace (a + S m)%nat with (S (a + m)) by lia. reflexivity.
Qed.

Lemma for_each_slot_all (h : Q -> Q) (s : list Q) :
  for_each_slot h (seq 0 (List.length s)) s = Some (map h s).
Proof.
  rewrite for_each_slot_range by lia.
  rewrite take_0, drop_0, Nat.add_0_l, (take_ge s (List.length s)) by lia.
  rewrite drop_all. simpl. now rewrite app_nil_r.
Qed.

(** The loop stops with an undefined access when the span is shorter than
    the index range. *)
Lemma for_each_slot_short (h : Q -> Q) (n : nat) (s : list Q) :
  (List.length s < n)%nat -> for_each_slot h (seq 0 n) s = None.
Proof.
  intros Hlt.
  replace n with (List.length s + (n - List.length s))%nat by lia.
  rewrite seq_app. simpl.
  assert (Hsplit : forall o1 o2 t r,
            for_each_slot h o1 t = Some r ->
            for_each_slot h (o1 ++ o2) t = for_each_slot h o2 r).
  { induction o1 as [|i o1 IH]; intros o2 t r; simpl.
    - now intros [= ->].
    - destruct (t !! i); [apply IH | discriminate]. }
  rewrite (Hsplit _ _ _ _ (for_each_slot_all h s)).
  destruct (n - List.length s)%nat as [|k] eqn:E; [lia|]. simpl.
  rewrite lookup_ge_None_2; [reflexivity|].
  rewrite length_map. lia.
Qed.

(** X22. [advance_velocities(particles, a, dt)] on a set with synchronized
    sequences adds [a * dt] to every velocity and touches nothing else;
    when [v_] is shorter than [x_] the loop reads past the end of [v_]. *)
Theorem advance_velocities_spec (p : Particles) (acceleration dt : Q) :
  (vsize (x_ p) = vsize (v_ p) ->
   advance_velocities p acceleration dt
   = Some (mkParticles (x_ p)
             (mkvector (map (fun vi => (vi + acceleration * dt)%Q) (elems (v_ p)))
                (cap (v_ p)))
             (f_ p))) /\
  (vsize (v_ p) < vsize (x_ p) -> advance_velocities p acceleration dt = None).
Proof.
  unfold advance_velocities, size, vsize. rewrite Nat2Z.id. split.
  - intros Hxv. replace (List.length (elems (x_ p))) with (List.length (elems (v_ p))) by lia.
    now rewrite for_each_slot_all.
  - intros Hlt. rewrite for_each_slot_short by lia. reflexivity.
Qed.

Lemma apply_periodic_bc_map (p : Particles) (g : grid.Grid) :
  app.apply_periodic_bc p g
  = Some (mkParticles
            (mkvector (map (grid.wrap_position g) (elems (x_ p))) (cap (x_ p)))
            (v_ p) (f_ p)).
Proof.
  unfold app.apply_periodic_bc, size, vsize. rewrite Nat2Z.id.
  now rewrite for_each_slot_all.
Qed.

(** X23. [apply_periodic_bc] always runs to its end, on every Grid and
    every set; it replaces every position by [wrap_position] of it, in place,
    and keeps the velocities, the weights, the size and the capacity. *)
Theorem apply_periodic_bc_spec (p : Particles) (g : grid.Grid) :
  exists p',
    app.apply_periodic_bc p g = Some p' /\
    elems (x_ p') = map (grid.wrap_position g) (elems (x_ p)) /\
    v_ p' = v_ p /\ f_ p' = f_ p /\
    size p' = size p /\ capacity p' = capacity p.
Proof.
  eexists. split; [apply apply_periodic_bc_map|]. simpl.
  split; [reflexivity|]. split; [reflexivity|]. split; [reflexivity|].
  split; [unfold size, vsize; simpl; now rewrite length_map|].
  reflexivity.
Qed.

End Kernels.

Lemma advance_velocities_spec_witness :
  particles.advance_velocities wf.three_samples 2 (1 # 2)
  = Some (particles.mkParticles (particles.x_ wf.three_samples)
            (particles.mkvector
               (map (fun vi => (vi + 2 * (1 # 2))%Q)
                  (particles.elems (particles.v_ wf.three_samples)))
               (particles.cap (particles.v_ wf.three_samples)))
            (particles.f_ wf.three_samples)).
Proof.
  exact (proj1 (advance_velocities_spec wf.three_samples 2 (1 # 2)) eq_refl).
Defined.

(** ** Free streaming over several steps *)

Section FreeStreaming.
Import cxx particles.

Lemma x_at_iff (p : Particles) (i : Z) (y : Q) :
  x_at p i = Some y <-> 0 <= i < size p /\ elems (x_ p) !! Z.to_nat i = Some y.
Proof.
  unfold x_at. destruct ((0 <=? i) && (i <? size p)) eqn:E.
  - apply andb_true_iff in E. destruct E as [E1 E2].
    apply Z.leb_le in E1. apply Z.ltb_lt in E2. tauto.
  - split; [discriminate|]. intros [[H1 H2] _].
    apply Z.leb_le in H1. apply Z.ltb_lt in H2. rewrite H1, H2 in E. discriminate.
Qed.

Lemma v_at_iff (p : Particles) (i : Z) (y : Q) :
  v_at p i = Some y <-> 0 <= i < size p /\ elems (v_ p) !! Z.to_nat i = Some y.
Proof.
  unfold v_at. destruct ((0 <=? i) && (i <? size p)) eqn:E.
  - apply andb_true_iff in E. destruct E as [E1 E2].
    apply Z.leb_le in E1. apply Z.ltb_lt in E2. tauto.
  - split; [discriminate|]. intros [[H1 H2] _].
    apply Z.leb_le in H1. apply Z.ltb_lt in H2. rewrite H1, H2 in E. discriminate.
Qed.

(** One call: what the loop leaves in each slot. *)
Lemma advance_positions_once (p : Particles) (dt : Q) :
  wf.synchronized p ->
  exists p',
    advance_positions p dt = Some p' /\
    v_ p' = v_ p /\ f_ p' = f_ p /\ size p' = size p /\
    cap (x_ p') = cap (x_ p) /\
    forall i xi vi, x_at p i = Some xi -> v_at p i = Some vi ->
      x_at p' i = Some (xi + vi * dt)%Q.
Proof.
  intros [Hxv _].
  set (x := elems (x_ p)). set (v := elems (v_ p)).
  assert (Hn : Z.to_nat (size p) = List.length x).
  { unfold size, vsize. now rewrite Nat2Z.id. }
  assert (Hlen : (List.length x <= List.length v)%nat).
  { unfold vsize in Hxv. subst x v. lia. }
  assert (Hin : forall i, i ∈ seq 0 (List.length x) -> (i < List.length x)%nat).
  { intros i Hi. apply elem_of_seq in Hi. lia. }
  destruct (advance_loop_slots v dt (seq 0 (List.length x)) x
              (NoDup_seq 0 _) Hin Hlen) as (x' & Hloop & Hl' & Hslots).
  exists (mkParticles (mkvector x' (cap (x_ p))) (v_ p) (f_ p)).
  assert (Hsize : size (mkParticles (mkvector x' (cap (x_ p))) (v_ p) (f_ p)) = size p).
  { unfold size, vsize. simpl. fold x. now rewrite Hl'. }
  split; [|split; [|split; [|split; [|split]]]]; try reflexivity; try exact Hsize.
  - unfold advance_positions, advance_positions_scheduled.
    rewrite Hn. fold x v. now rewrite Hloop.
  - intros i xi vi Hx Hvi. apply x_at_iff in Hx. apply v_at_iff in Hvi.
    destruct Hx as [Hr Hx], Hvi as [_ Hvi].
    apply x_at_iff. rewrite Hsize. split; [exact Hr|]. simpl.
    rewrite (Hslots _ xi vi Hx Hvi).
    destruct (decide (Z.to_nat i ∈ seq 0 (List.length x))) as [_|Hno]; [reflexivity|].
    exfalso. apply Hno. apply elem_of_seq. apply lookup_lt_Some in Hx. fold x in Hx. lia.
Qed.

Lemma advance_steps_exact (k : nat) (p : Particles) (dt : Q) :
  wf.synchronized p ->
  exists p',
    wf.advance_steps k p dt = Some p' /\
    v_ p' = v_ p /\ f_ p' = f_ p /\ size p' = size p /\
    forall i xi vi, x_at p i = Some xi -> v_at p i = Some vi ->
      exists xk, x_at p' i = Some xk /\
                 (xk == xi + inject_Z (Z.of_nat k) * (vi * dt))%Q.
Proof.
  revert p. induction k as [|k IH]; intros p Hs.
  - exists p. simpl. repeat split. intros i xi vi Hx _.
    exists xi. split; [exact Hx|]. change (inject_Z 0) with 0%Q. ring.
  - destruct (advance_positions_once p dt Hs) as (p1 & Hadv & Hv1 & Hf1 & Hs1 & _ & Hslot).
    assert (Hsync1 : wf.synchronized p1).
    { destruct Hs as [Hxv Hvf]. unfold wf.synchronized, size in *.
      rewrite Hv1, Hf1. split; [lia | exact Hvf]. }
    destruct (IH p1 Hsync1) as (p' & Hsteps & Hv' & Hf' & Hs' & Hk).
    exists p'. simpl. rewrite Hadv. split; [exact Hsteps|].
    split; [congruence|]. split; [congruence|]. split; [lia|].
    intros i xi vi Hx Hvi.
    assert (Hvi1 : v_at p1 i = Some vi).
    { apply v_at_iff. apply v_at_iff in Hvi. rewrite Hs1, Hv1. exact Hvi. }
    destruct (Hk i _ vi (Hslot i xi vi Hx Hvi) Hvi1) as (xk & Hxk & Hq).
    exists xk. split; [exact Hxk|].
    rewrite Hq, Nat2Z.inj_succ. unfold Z.succ.
    rewrite inject_Z_plus. change (inject_Z 1) with 1%Q. ring.
Qed.

(** X24. Free streaming is exact: after [k] calls of [advance_positions]
    with time step [dt] on a set with synchronized sequences, every position
    is the initial one plus [k * v * dt], and the velocities, the weights
    and the size are the initial ones. *)
Theorem free_streaming_exact (k : nat) (p : Particles) (dt : Q) :
  wf.synchronized p ->
  exists p',
    wf.advance_steps k p dt = Some p' /\
    v_ p' = v_ p /\ f_ p' = f_ p /\ size p' = size p /\
    forall i xi vi, x_at p i = Some xi -> v_at p i = Some vi ->
      exists xk, x_at p' i = Some xk /\
                 (xk == xi + inject_Z (Z.of_nat k) * (vi * dt))%Q.
Proof. exact (advance_steps_exact k p dt). Qed.

End FreeStreaming.

Lemma free_streaming_exact_witness :
  exists p' xk,
    wf.advance_steps 10 wf.three_samples (1 # 10) = Some p' /\
    particles.x_at p' 0 = Some xk /\
    (xk == (1 # 2) + inject_Z 10 * (1 * (1 # 10)))%Q.
Proof.
  destruct (free_streaming_exact 10 wf.three_samples (1 # 10)
              three_samples_synchronized) as (p' & Hp & _ & _ & _ & Hk).
  destruct (Hk 0 (1 # 2)%Q 1%Q eq_refl eq_refl) as (xk & Hx & Hq).
  exists p', xk. split; [exact Hp|]. split; [exact Hx | exact Hq].
Defined.

(** ** More on deposition *)

Section DepositionMore.
Import cxx.
Local Open Scope Q_scope.
Variable p : particles.Particles.
Variable g : grid.Grid.
Hypothesis g_valid : wf.valid g.

Local Abbreviation xs := (particles.elems (particles.x_ p)).
Local Abbreviation fs := (particles.elems (particles.f_ p)).
Local Abbreviation inv_dx := (1 / grid.dx g).
Hypothesis p_sync : wf.synchronized p.

Lemma cell_load_cons (x w : Q) (xs' fs' : list Q) (j : Z) :
  wf.cell_load g (x :: xs') (w :: fs') j
  = (if decide (grid.cell_index g x = Some j) then w / grid.dx g else 0)
    + wf.cell_load g xs' fs' j.
Proof. reflexivity. Qed.

(** The loop from sample [s] on adds to every cell the load of the
    remaining samples. *)
Lemma deposit_loop_cells (m s : nat) (d : grid.Field) :
  (s + m)%nat = List.length xs ->
  grid.size d = grid.n_cells g ->
  (grid.size d <= vector_max_size)%Z ->
  exists d',
    app.deposit_loop p g inv_dx (seq s m) d = Some d' /\
    grid.size d' = grid.size d /\
    forall j v, grid.data_ d !! j = Some v ->
      exists v', grid.data_ d' !! j = Some v' /\
                 v' == v + wf.cell_load g (drop s xs) (drop s fs) (Z.of_nat j).
Proof.
  revert s d. induction m as [|m IH]; intros s d Hlen Hsize Hmax.
  - exists d. simpl. repeat split. intros j v Hj. exists v. split; [exact Hj|].
    rewrite (drop_ge xs) by lia. unfold wf.cell_load. simpl. unfold wf.Qsum. simpl. ring.
  - destruct (lookup_lt_is_Some_2 xs s) as [x Hx]; [lia|].
    destruct (lookup_lt_is_Some_2 fs s) as [w Hw].
    { rewrite (lengths_x_f p p_sync). lia. }
    destruct (deposit_one_step p g g_valid p_sync d s x w Hsize Hmax Hx Hw)
      as (i & old & Hc & Hold & Hstep).
    assert (Hfits : (grid.n_cells g - 1 <= PTRDIFF_MAX)%Z).
    { assert (vector_max_size <= PTRDIFF_MAX)%Z by (vm_compute; discriminate). lia. }
    destruct (cell_index_floor g g_valid Hfits x) as [Hc' Hr].
    set (t := Qfloor _) in *.
    assert (Hti : t = i) by congruence. clearbody t. subst t. clear Hc'.
    set (d1 := grid.mkField _ _) in Hstep.
    assert (Hsize1 : grid.size d1 = grid.size d).
    { unfold grid.size, d1. simpl. now rewrite length_insert. }
    destruct (IH (S s) d1) as (d' & Hloop & Hs' & Hcells).
    { lia. } { now rewrite Hsize1. } { now rewrite Hsize1. }
    exists d'. split; [simpl; rewrite Hstep; exact Hloop|].
    split; [now rewrite Hs'|].
    intros j v Hj.
    rewrite (drop_S xs x s Hx), (drop_S fs w s Hw), cell_load_cons.
    destruct (decide (j = Z.to_nat i)) as [Hji | Hji].
    + subst j. assert (v = old) by congruence. subst v.
      destruct (Hcells (Z.to_nat i) (old + w * inv_dx)) as (v' & Hv' & Hq).
      { unfold d1. simpl. apply list_lookup_insert_eq.
        apply lookup_lt_Some in Hold. exact Hold. }
      exists v'. split; [exact Hv'|]. rewrite Hq.
      rewrite Z2Nat.id by lia.
      destruct (decide (grid.cell_index g x = Some i)) as [_|Hn]; [|contradiction].
      unfold Qdiv. ring.
    + destruct (Hcells j v) as (v' & Hv' & Hq).
      { unfold d1. simpl. rewrite list_lookup_insert_ne by congruence. exact Hj. }
      exists v'. split; [exact Hv'|]. rewrite Hq.
      destruct (decide (grid.cell_index g x = Some (Z.of_nat j))) as [He|_]; [|ring].
      exfalso. rewrite Hc in He. inversion He. lia.
Qed.


(** The integral of the density is the total weight. *)
Lemma compute_density_mass (density : grid.Field) :
  grid.size density = grid.n_cells g ->
  (grid.size density <= vector_max_size)%Z ->
  exists d',
    app.compute_density p g density = Some d' /\
    grid.size d' = grid.size density /\
    wf.integral g (grid.data_ d') == wf.Qsum fs.
Proof.
  intros Hsize Hmax.
  set (z := grid.zero density).
  assert (Hz : grid.size z = grid.size density).
  { unfold z, grid.zero, grid.fill, grid.size. simpl. now rewrite length_replicate. }
  destruct (deposit_loop_spec p g g_valid p_sync (List.length xs) 0 z)
    as (d' & Hloop & Hs & _ & Hint & _).
  { reflexivity. } { now rewrite Hz. } { now rewrite Hz. }
  exists d'. split; [|split].
  - unfold app.compute_density, particles.size, particles.vsize.
    rewrite Nat2Z.id. exact Hloop.
  - now rewrite Hs.
  - rewrite Hint. unfold z, grid.zero, grid.fill. simpl grid.data_.
    rewrite integral_zero, drop_0.
    pose proof (wf.gf_dx_pos g (valid_facts g g_valid)) as Hd. unfold grid.dx.
    assert (E : 1 / grid.dx_ g * grid.dx_ g == 1) by (field; lra).
    rewrite E. ring.
Qed.

End DepositionMore.

Lemma valid_grid_0_10 : wf.valid wf.grid_0_10.
Proof.
  exists 10, 0%Q, 10%Q, grid.Periodic. split.
  - unfold cxx.is_size_t, cxx.SIZE_MAX. lia.
  - reflexivity.
Qed.

Lemma one_sample_synchronized : wf.synchronized wf.one_sample.
Proof. split; reflexivity. Qed.


(** ** The time loop *)

Section TimeLoop.
Import cxx particles.
Variable g : grid.Grid.
Variable dt : Q.
Hypothesis g_valid : wf.valid g.

Lemma time_step_conserves (p : Particles) (d : grid.Field) :
  wf.synchronized p ->
  grid.size d = grid.n_cells g ->
  grid.size d <= vector_max_size ->
  exists p' d',
    app.time_step g dt (p, d) = Some (p', d') /\
    wf.synchronized p' /\
    v_ p' = v_ p /\ f_ p' = f_ p /\ size p' = size p /\
    grid.size d' = grid.size d /\
    (wf.integral g (grid.data_ d') == wf.Qsum (elems (f_ p)))%Q.
Proof.
  intros Hs Hsize Hmax.
  destruct (advance_positions_once p dt Hs) as (p1 & Hadv & Hv1 & Hf1 & Hs1 & _ & _).
  pose proof (apply_periodic_bc_map p1 g) as Hwrap.
  set (p2 := mkParticles _ _ _) in Hwrap.
  assert (Hs2 : size p2 = size p).
  { unfold p2, size, vsize in *. simpl. rewrite length_map. exact Hs1. }
  assert (Hsync2 : wf.synchronized p2).
  { destruct Hs as [Hxv Hvf]. unfold wf.synchronized. split.
    - change (vsize (x_ p2)) with (size p2). rewrite Hs2.
      change (v_ p2) with (v_ p1). rewrite Hv1. exact Hxv.
    - change (v_ p2) with (v_ p1). change (f_ p2) with (f_ p1).
      rewrite Hv1, Hf1. exact Hvf. }
  destruct (compute_density_mass p2 g g_valid Hsync2 d Hsize Hmax)
    as (d' & Hd & Hsd & Hint).
  exists p2, d'. split.
  { unfold app.time_step. rewrite Hadv, Hwrap, Hd. reflexivity. }
  split; [exact Hsync2|]. split; [exact Hv1|]. split; [exact Hf1|].
  split; [exact Hs2|]. split; [exact Hsd|].
  rewrite Hint. unfold p2. simpl. rewrite Hf1. reflexivity.
Qed.

Lemma time_loop_conserves (n_steps : nat) (p : Particles) (d : grid.Field) :
  wf.synchronized p ->
  grid.size d = grid.n_cells g ->
  grid.size d <= vector_max_size ->
  (wf.integral g (grid.data_ d) == wf.Qsum (elems (f_ p)))%Q ->
  exists p' d',
    app.time_loop n_steps g dt (p, d) = Some (p', d') /\
    v_ p' = v_ p /\ f_ p' = f_ p /\ size p' = size p /\
    grid.size d' = grid.size d /\
    (wf.integral g (grid.data_ d') == wf.Qsum (elems (f_ p)))%Q.
Proof.
  revert p d. induction n_steps as [|n IH]; intros p d Hs Hsize Hmax Hint.
  - exists p, d. simpl. repeat split; try assumption.
  - destruct (time_step_conserves p d Hs Hsize Hmax)
      as (p1 & d1 & Hstep & Hs1 & Hv1 & Hf1 & Hsz1 & Hd1 & Hint1).
    destruct (IH p1 d1 Hs1) as (p' & d' & Hloop & Hv' & Hf' & Hsz' & Hd' & Hint').
    { now rewrite Hd1. } { now rewrite Hd1. } { now rewrite Hf1. }
    exists p', d'. cbn [app.time_loop]. rewrite Hstep.
    split; [exact Hloop|]. split; [congruence|]. split; [congruence|].
    split; [lia|]. split; [lia|].
    rewrite Hint', Hf1. reflexivity.
Qed.

(** X28. The simulation conserves the total weight: on a valid Grid, for a
    set with synchronized sequences and a density Field with one value per
    cell, the initial deposition followed by any number of time steps (free
    streaming, periodic boundary, deposition) runs to its end; afterwards
    the density integrates to the sum of the weights, and the weights, the
    velocities and the number of samples are the initial ones. *)
Theorem simulation_conserves (n_steps : nat) (p : Particles) (density : grid.Field) :
  wf.synchronized p ->
  grid.size density = grid.n_cells g ->
  grid.size density <= vector_max_size ->
  exists p' d',
    app.simulate n_steps g dt p density = Some (p', d') /\
    (wf.integral g (grid.data_ d') == wf.Qsum (elems (f_ p)))%Q /\
    v_ p' = v_ p /\ f_ p' = f_ p /\ size p' = size p /\
    grid.size d' = grid.size density.
Proof.
  intros Hs Hsize Hmax.
  destruct (compute_density_mass p g g_valid Hs density Hsize Hmax)
    as (d0 & Hd0 & Hs0 & Hint0).
  destruct (time_loop_conserves n_steps p d0 Hs) as
    (p' & d' & Hloop & Hv & Hf & Hsz & Hd & Hint).
  { now rewrite Hs0. } { now rewrite Hs0. } { exact Hint0. }
  exists p', d'. unfold app.simulate. rewrite Hd0.
  split; [exact Hloop|]. split; [exact Hint|]. split; [exact Hv|].
  split; [exact Hf|]. split; [exact Hsz|]. lia.
Qed.

End TimeLoop.

Lemma simulation_conserves_witness :
  exists p' d',
    app.simulate 3 wf.grid_0_4 (7 # 10) wf.three_samples wf.field_const_5
      = Some (p', d') /\
    (wf.integral wf.grid_0_4 (grid.data_ d')
     == wf.Qsum (particles.elems (particles.f_ wf.three_samples)))%Q.
Proof.
  destruct (simulation_conserves wf.grid_0_4 (7 # 10) valid_grid_0_4 3
              wf.three_samples wf.field_const_5 three_samples_synchronized)
    as (p' & d' & Hsim & Hint & _).
  - reflexivity.
  - vm_compute. discriminate.
  - exists p', d'. split; [exact Hsim | exact Hint].
Defined.

(** ** The extrema printed by the driver *)

Section DensityRange.
Import cxx.
Local Open Scope Q_scope.

Local Abbreviation widen :=
  (fun (acc : Q * Q) (d : Q) => (app.std_min (fst acc) d, app.std_max (snd acc) d)).

Lemma std_min_spec (a d : Q) :
  app.std_min a d <= a /\ app.std_min a d <= d /\
  (app.std_min a d = a \/ app.std_min a d = d).
Proof.
  unfold app.std_min. destruct (Qlt_le_dec d a); repeat split; try lra; tauto.
Qed.

Lemma std_max_spec (a d : Q) :
  a <= app.std_max a d /\ d <= app.std_max a d /\
  (app.std_max a d = a \/ app.std_max a d = d).
Proof.
  unfold app.std_max. destruct (Qlt_le_dec a d); repeat split; try lra; tauto.
Qed.

Lemma widen_spec (l : list Q) (a b : Q) :
  let r := foldl widen (a, b) l in
  fst r <= a /\ b <= snd r /\
  (forall e, e ∈ l -> fst r <= e /\ e <= snd r) /\
  fst r ∈ a :: l /\ snd r ∈ b :: l.
Proof.
  revert a b. induction l as [|d l IH]; intros a b; simpl.
  - split; [lra|]. split; [lra|]. split; [intros e He; inversion He|].
    split; left.
  - destruct (IH (app.std_min a d) (app.std_max b d)) as (H1 & H2 & H3 & H4 & H5).
    destruct (std_min_spec a d) as (Hm1 & Hm2 & Hm3).
    destruct (std_max_spec b d) as (HM1 & HM2 & HM3).
    simpl in *.
    split; [lra|]. split; [lra|]. split; [|split].
    + intros e He. apply elem_of_cons in He. destruct He as [-> | He].
      * split; lra.
      * now apply H3.
    + apply elem_of_cons in H4. destruct H4 as [H4 | H4].
      * rewrite H4. destruct Hm3 as [-> | ->]; [left | right; left].
      * right. now right.
    + apply elem_of_cons in H5. destruct H5 as [H5 | H5].
      * rewrite H5. destruct HM3 as [-> | ->]; [left | right; left].
      * right. now right.
Qed.

(** The loop over the indices is the fold over the cells. *)
Lemma range_loop (density : grid.Field) (acc : Q * Q) (m : nat) :
  (m <= List.length (grid.data_ density))%nat ->
  foldl (fun acc i =>
           match acc, grid.at_ density (Z.of_nat i) with
           | Some (rho_min, rho_max), Some d =>
               Some (app.std_min rho_min d, app.std_max rho_max d)
           | _, _ => None
           end)
        (Some acc) (seq 0 m)
  = Some (foldl widen acc (take m (grid.data_ density))).
Proof.
  induction m as [|m IH]; intros Hm.
  - reflexivity.
  - rewrite seq_S, foldl_app, IH by lia. simpl.
    destruct (lookup_lt_is_Some_2 (grid.data_ density) m) as [d Hd]; [lia|].
    rewrite at_lookup by (unfold grid.size; lia).
    rewrite Nat2Z.id, Hd, (take_S_r _ _ _ Hd), foldl_app. simpl.
    now destruct (foldl widen acc (take m (grid.data_ density))).
Qed.


End DensityRange.


(** ** Initialisation of the particles *)

Section InitializeParticles.
Import cxx particles.
Local Open Scope method_scope.

(** With room in the three sequences [push_back] appends in place. *)
Lemma push_back_room (a : allocator) (xv vv fv : Q) (p : Particles) :
  vsize (x_ p) < cap (x_ p) ->
  vsize (v_ p) < cap (v_ p) ->
  vsize (f_ p) < cap (f_ p) ->
  push_back a xv vv fv p
  = (Returned tt,
     mkParticles (mkvector (elems (x_ p) ++ [xv]) (cap (x_ p)))
       (mkvector (elems (v_ p) ++ [vv]) (cap (v_ p)))
       (mkvector (elems (f_ p) ++ [fv]) (cap (f_ p)))).
Proof.
  intros Hx Hv Hf.
  assert (Hroom : forall m val v, vsize v < cap v ->
            vector_push_back m val v = inr (mkvector (elems v ++ [val]) (cap v))).
  { intros m val v Hlt. unfold vector_push_back.
    replace (vsize v <? cap v) with true by (symmetry; apply Z.ltb_lt; lia).
    reflexivity. }
  unfold push_back. apply three_statements_return; apply Hroom; assumption.
Qed.

(** A loop of [push_back] calls within the reserved capacity. *)
Lemma push_loop {A : Type} (mf : A -> allocator) (xf vf ff : A -> Q)
    (l : list A) (p : Particles) :
  vsize (x_ p) + Z.of_nat (List.length l) <= cap (x_ p) ->
  vsize (v_ p) + Z.of_nat (List.length l) <= cap (v_ p) ->
  vsize (f_ p) + Z.of_nat (List.length l) <= cap (f_ p) ->
  for_each (fun a => push_back (mf a) (xf a) (vf a) (ff a)) l p
  = (Returned tt,
     mkParticles (mkvector (elems (x_ p) ++ map xf l) (cap (x_ p)))
       (mkvector (elems (v_ p) ++ map vf l) (cap (v_ p)))
       (mkvector (elems (f_ p) ++ map ff l) (cap (f_ p)))).
Proof.
  revert p. induction l as [|a l IH]; intros p Hx Hv Hf.
  - simpl. unfold ret. rewrite !app_nil_r. now destruct p as [[] [] []].
  - simpl in Hx, Hv, Hf. cbn [for_each]. unfold bind.
    rewrite push_back_room by lia.
    rewrite IH; unfold vsize in *; simpl; rewrite ?length_app; simpl; try lia.
    rewrite <- !app_assoc. reflexivity.
Qed.

(** Two nested loops of [push_back] calls within the reserved capacity. *)
Lemma push_loops (mf : nat -> nat -> allocator) (xf vf ff : nat -> nat -> Q)
    (rows cols : list nat) (p : Particles) :
  vsize (x_ p) + Z.of_nat (List.length rows * List.length cols) <= cap (x_ p) ->
  vsize (v_ p) + Z.of_nat (List.length rows * List.length cols) <= cap (v_ p) ->
  vsize (f_ p) + Z.of_nat (List.length rows * List.length cols) <= cap (f_ p) ->
  for_each
    (fun i => for_each (fun j => push_back (mf i j) (xf i j) (vf i j) (ff i j)) cols)
    rows p
  = (Returned tt,
     mkParticles
       (mkvector (elems (x_ p) ++ flat_map (fun i => map (xf i) cols) rows) (cap (x_ p)))
       (mkvector (elems (v_ p) ++ flat_map (fun i => map (vf i) cols) rows) (cap (v_ p)))
       (mkvector (elems (f_ p) ++ flat_map (fun i => map (ff i) cols) rows) (cap (f_ p)))).
Proof.
  revert p. induction rows as [|i rows IH]; intros p Hx Hv Hf.
  - simpl. unfold ret. rewrite !app_nil_r. now destruct p as [[] [] []].
  - simpl in Hx, Hv, Hf. cbn [for_each flat_map]. unfold bind.
    rewrite (push_loop (mf i) (xf i) (vf i) (ff i)) by lia.
    rewrite IH; unfold vsize in *; simpl; rewrite ?length_app, ?length_map; try lia.
    rewrite <- !app_assoc. reflexivity.
Qed.

End InitializeParticles.

Section InitializeParticlesSpec.
Import cxx particles.
Variables cos exp sqrt : Q -> Q.
Variable pi : Q.

Lemma Particles_capacity_plentiful (total : Z) :
  0 <= total <= vector_max_size ->
  Particles_capacity wf.plentiful total
  = Returned (mkParticles (mkvector [] total) (mkvector [] total) (mkvector [] total)).
Proof.
  intros Ht. unfold Particles_capacity, reserve, wf.plentiful.
  cbn [mem_x mem_v mem_f].
  assert (Hr : vector_reserve true total vector_empty = inr (mkvector [] total)).
  { unfold vector_reserve.
    replace (vector_max_size <? total) with false by (symmetry; apply Z.ltb_ge; lia).
    simpl. destruct (total <=? 0) eqn:E; [|reflexivity].
    apply Z.leb_le in E. assert (total = 0) by lia. now subst total. }
  now rewrite (three_statements_return _ _ _ Particles_default _ _ _ Hr Hr Hr).
Qed.

Lemma length_flat_map_const {A B : Type} (h : A -> list B) (m : nat) (l : list A) :
  (forall a, List.length (h a) = m) ->
  List.length (flat_map h l) = (List.length l * m)%nat.
Proof.
  intros Hh. induction l as [|a l IH]; simpl; [reflexivity|].
  rewrite length_app, Hh, IH. reflexivity.
Qed.

Lemma map_const_seq {B : Type} (c : B) (a m : nat) :
  map (fun _ => c) (seq a m) = replicate m c.
Proof. revert a. induction m as [|m IH]; intros a; simpl; [|rewrite IH]; reflexivity. Qed.


End InitializeParticlesSpec.


(** ** Reading back an appended sample *)

Section ReadBack.
Import cxx particles.

Lemma f_at_iff (p : Particles) (i : Z) (y : Q) :
  f_at p i = Some y <-> 0 <= i < size p /\ elems (f_ p) !! Z.to_nat i = Some y.
Proof.
  unfold f_at. destruct ((0 <=? i) && (i <? size p)) eqn:E.
  - apply andb_true_iff in E. destruct E as [E1 E2].
    apply Z.leb_le in E1. apply Z.ltb_lt in E2. tauto.
  - split; [discriminate|]. intros [[H1 H2] _].
    apply Z.leb_le in H1. apply Z.ltb_lt in H2. rewrite H1, H2 in E. discriminate.
Qed.

(** X21. The sample that [push_back] appended to a set with synchronized
    sequences is read back at the index that was the size before the call,
    the samples before it are read as before, and the new size is no valid
    index. *)
Theorem push_back_read_back (a : allocator) (x_val v_val f_val : Q)
    (p p' : Particles) :
  wf.synchronized p ->
  push_back a x_val v_val f_val p = (Returned tt, p') ->
  x_at p' (size p) = Some x_val /\
  v_at p' (size p) = Some v_val /\
  f_at p' (size p) = Some f_val /\
  (forall i, 0 <= i < size p ->
     x_at p' i = x_at p i /\ v_at p' i = v_at p i /\ f_at p' i = f_at p i) /\
  x_at p' (size p') = None.
Proof.
  intros [Hxv Hvf] E. apply three_statements in E.
  destruct E as (x' & v' & f' & Ex & Ev & Ef & ->).
  apply vector_push_back_inr in Ex, Ev, Ef.
  destruct Ex as [Ex Hsx], Ev as [Ev _], Ef as [Ef _].
  assert (Hs' : size (mkParticles x' v' f') = size p + 1) by exact Hsx.
  assert (Hlast : forall (l : list Q) y, (l ++ [y]) !! List.length l = Some y).
  { intros l y. rewrite lookup_app_r by lia.
    now replace (List.length l - List.length l)%nat with 0%nat by lia. }
  assert (Hn : Z.to_nat (size p) = List.length (elems (x_ p))).
  { unfold size, vsize. now rewrite Nat2Z.id. }
  assert (Hpos : 0 <= size p) by (unfold size, vsize; lia).
  unfold vsize in Hxv, Hvf.
  split; [|split; [|split; [|split]]].
  - apply x_at_iff. rewrite Hs'. split; [lia|]. simpl. rewrite Ex, Hn. apply Hlast.
  - apply v_at_iff. rewrite Hs'. split; [lia|]. simpl. rewrite Ev, Hn.
    replace (List.length (elems (x_ p))) with (List.length (elems (v_ p))) by lia.
    apply Hlast.
  - apply f_at_iff. rewrite Hs'. split; [lia|]. simpl. rewrite Ef, Hn.
    replace (List.length (elems (x_ p))) with (List.length (elems (f_ p))) by lia.
    apply Hlast.
  - intros i Hi. unfold x_at, v_at, f_at. rewrite Hs'.
    replace ((0 <=? i) && (i <? size p + 1)) with true
      by (symmetry; apply andb_true_intro; split; [apply Z.leb_le | apply Z.ltb_lt]; lia).
    replace ((0 <=? i) && (i <? size p)) with true
      by (symmetry; apply andb_true_intro; split; [apply Z.leb_le | apply Z.ltb_lt]; lia).
    simpl. rewrite Ex, Ev, Ef.
    unfold size, vsize in Hi.
    rewrite !lookup_app_l by lia. tauto.
  - unfold x_at. rewrite Z.ltb_irrefl, andb_false_r. reflexivity.
Qed.

End ReadBack.

Lemma push_back_read_back_witness :
  exists p',
    particles.push_back wf.plentiful (1 # 2) 1 (1 # 10) wf.three_samples
      = (particles.Returned tt, p') /\
    particles.x_at p' 3 = Some (1 # 2)%Q /\
    particles.f_at p' 3 = Some (1 # 10)%Q.
Proof.
  eexists. split; [reflexivity|].
  destruct (push_back_read_back wf.plentiful (1 # 2) 1 (1 # 10) wf.three_samples _
              three_samples_synchronized eq_refl) as (Hx & _ & Hf & _).
  split; [exact Hx | exact Hf].
Defined.

(** ** A field smaller than the grid *)

Section SmallField.
Import cxx.
Variable p : particles.Particles.
Variable g : grid.Grid.

Local Abbreviation inv_dx := (1 / grid.dx g)%Q.

Lemma deposit_one_size (d d' : grid.Field) (k : nat) :
  app.deposit_one p g inv_dx d k = Some d' -> grid.size d' = grid.size d.
Proof.
  unfold app.deposit_one.
  destruct (particles.x_at p (Z.of_nat k)) as [x|]; [|discriminate].
  destruct (particles.f_at p (Z.of_nat k)) as [w|]; [|discriminate].
  destruct (grid.cell_index g x) as [i|]; [|discriminate].
  destruct (grid.at_ d i) as [old|]; [|discriminate].
  unfold grid.set_at. destruct (_ && _); [|discriminate].
  intros H. inversion H. unfold grid.size. simpl. now rewrite length_insert.
Qed.

(** An iteration whose cell is past the end of the field stops the loop,
    wherever it comes in the loop. *)
Lemma deposit_loop_overrun (ks : list nat) (d : grid.Field) (k : nat) (x : Q) (i : Z) :
  k ∈ ks ->
  particles.x_at p (Z.of_nat k) = Some x ->
  grid.cell_index g x = Some i ->
  grid.size d <= i ->
  app.deposit_loop p g inv_dx ks d = None.
Proof.
  revert d. induction ks as [|k' ks IH]; intros d Hk Hx Hc Hover.
  - inversion Hk.
  - simpl. destruct (app.deposit_one p g inv_dx d k') as [d'|] eqn:E; [|reflexivity].
    apply elem_of_cons in Hk. destruct Hk as [<- | Hk].
    + exfalso. unfold app.deposit_one in E. rewrite Hx in E.
      destruct (particles.f_at p (Z.of_nat k)); [|discriminate].
      rewrite Hc, at_outside in E by lia. discriminate.
    + apply IH; try assumption.
      rewrite (deposit_one_size d d' k' E). exact Hover.
Qed.

(** X27. [compute_density] needs a Field with a cell for every cell of the
    Grid: when some sample lies in a cell whose index is not below the size
    of the Field, the accumulation indexes the Field out of range, which
    [operator[]] checks in debug builds only. *)
Theorem compute_density_small_field (density : grid.Field) (j : Z) (x : Q) (i : Z) :
  0 <= j < particles.size p ->
  particles.x_at p j = Some x ->
  grid.cell_index g x = Some i ->
  grid.size density <= i ->
  app.compute_density p g density = None.
Proof.
  intros Hj Hx Hc Hover. unfold app.compute_density.
  apply (deposit_loop_overrun _ _ (Z.to_nat j) x i).
  - apply elem_of_seq. lia.
  - now rewrite Z2Nat.id by lia.
  - exact Hc.
  - unfold grid.zero, grid.fill, grid.size in *. simpl. now rewrite length_replicate.
Qed.

End SmallField.

Lemma compute_density_small_field_witness :
  app.compute_density wf.one_sample wf.grid_0_10 wf.field_short = None.
Proof.
  apply (compute_density_small_field wf.one_sample wf.grid_0_10 wf.field_short
           0 (5 # 2) 2).
  - vm_compute. split; [discriminate | reflexivity].
  - reflexivity.
  - reflexivity.
  - vm_compute. discriminate.
Defined.
